(** * mindspace: the voice-in / voice-out pipeline coordinator

    A shallow embedding of the JavaScript sources
    - [pol.js]          (text truncation, local single-slot file, S3 copy),
    - [transcribe.js]   (the transcription stage, in its two revisions: one
                         submits the job at once, the other first tests the
                         locator and asks the store for the object),
    - [graniteLLM.js]   (the text-generation stage),
    - [help.js]         (the coordinator [processAudioWithAI]),
    together with the properties the specification states about them.

    JavaScript strings are sequences of UTF-16 code units; they are modelled
    as lists of code units.  Promises are modelled by a state-and-error monad
    over an explicit world (local directory, log of the requests sent to the
    external services) and an environment that answers those requests and
    says which calls of the file system throw.  Paths are joined as
    [path.join] joins them on POSIX.

    What the model leaves out: [console.log] output; numbers that are not
    integers, apart from the product [maxLength * 0.7], which is rounded as
    binary64 rounds it.  The directory [public/aud_op] is kept as a map from
    the names of its entries to their bytes; an output file name that is
    not a plain name (it has a slash, or is [.] or [..]) is kept under the
    name given. *)

From Stdlib Require Import ZArith Ascii String.
From Stdlib.Strings Require Import Byte.
From stdpp Require Import gmap strings list pretty sorting.

(** ** JavaScript strings *)

Module JsString.

Abbreviation jsstr := (list N).

(** An ASCII literal as a JavaScript string. *)
Definition js (s : string) : jsstr :=
  N_of_ascii <$> list_ascii_of_string s.
#[global] Arguments js : simpl never.

Definition str_length (s : jsstr) : Z := Z.of_nat (length s).

Definition clamp (x len : Z) : Z := Z.min (Z.max x 0) len.

(** [s.substring(a, b)]: both indices are clamped to [0, s.length] and
    swapped when out of order. *)
Definition substring (s : jsstr) (a b : Z) : jsstr :=
  let a' := clamp a (str_length s) in
  let b' := clamp b (str_length s) in
  take (Z.to_nat (Z.max a' b' - Z.min a' b')) (drop (Z.to_nat (Z.min a' b')) s).

Fixpoint starts_with (pat s : jsstr) : bool :=
  match pat, s with
  | [], _ => true
  | _ :: _, [] => false
  | p :: pat', x :: s' => (p =? x)%N && starts_with pat' s'
  end.

(** Scan from the left, remembering the last position at which [pat]
    occurs. *)
Fixpoint lastIndexOf_from (pat s : jsstr) (i found : Z) : Z :=
  let found' := if starts_with pat s then i else found in
  match s with
  | [] => found'
  | _ :: s' => lastIndexOf_from pat s' (i + 1)%Z found'
  end.

(** [s.lastIndexOf(pat)]: index of the last occurrence, or -1. *)
Definition lastIndexOf (s pat : jsstr) : Z := lastIndexOf_from pat s 0 (-1).

(** [s.endsWith(suffix)] *)
Definition endsWith (s suffix : jsstr) : bool :=
  (length suffix <=? length s)%nat
  && bool_decide (drop (length s - length suffix) s = suffix).

(** White space and line terminators, as [String.prototype.trim] sees
    them. *)
Definition is_white_space (c : N) : bool :=
  ((9 <=? c) && (c <=? 13) || (c =? 32) || (c =? 160) || (c =? 5760)
   || (8192 <=? c) && (c <=? 8202) || (c =? 8232) || (c =? 8233)
   || (c =? 8239) || (c =? 8287) || (c =? 12288) || (c =? 65279))%N.

Fixpoint trim_start (s : jsstr) : jsstr :=
  match s with
  | c :: s' => if is_white_space c then trim_start s' else s
  | [] => []
  end.

(** [s.trim()] *)
Definition trim (s : jsstr) : jsstr :=
  reverse (trim_start (reverse (trim_start s))).

(** [String(n)] for an integral number below 1e21 in magnitude: plain
    decimal digits, with a leading minus sign when negative. *)
Definition number_to_string (n : Z) : jsstr := js (pretty n).

End JsString.
Import JsString.

(** ** The one floating-point operation of the sources: [maxLength * 0.7] *)

Module Float64.
Local Open Scope Z_scope.

(** The binary64 literal [0.7] is [double_0_7 / 2^53]. *)
Definition double_0_7 : Z := 6305039478318694.

(** Round a non-negative integer to 53 significant bits, to nearest,
    ties to even. *)
Definition round53 (m : Z) : Z :=
  let s := Z.log2 m - 52 in
  if s <=? 0 then m else
  let q := Z.shiftr m s in
  let r := m - Z.shiftl q s in
  let half := Z.shiftl 1 (s - 1) in
  let q' := if (half <? r) || ((half =? r) && Z.odd q) then q + 1 else q in
  Z.shiftl q' s.

(** [n * 0.7] as binary64 computes it, for an integral [n], given as the
    numerator of a fraction over [2^53]. *)
Definition times_0_7 (n : Z) : Z :=
  Z.sgn n * round53 (Z.abs n * double_0_7).

(** [i > n * 0.7] *)
Definition gt_times_0_7 (i n : Z) : bool := times_0_7 n <? i * 2 ^ 53.

End Float64.
Import Float64.

(** ** JavaScript values, as far as the service responses need them *)

Module JsValue.

(** Numbers are the integral ones. Objects keep their properties in
    insertion order. *)
#[local] Unset Elimination Schemes.
Inductive jsval : Type :=
| Undefined
| Null
| Bool (b : bool)
| Num (n : Z)
| Str (s : jsstr)
| Arr (items : list jsval)
| Obj (fields : list (jsstr * jsval)).
#[local] Set Elimination Schemes.

Definition truthy (v : jsval) : bool :=
  match v with
  | Undefined | Null => false
  | Bool b => b
  | Num n => negb (n =? 0)%Z
  | Str s => negb (bool_decide (s = []))
  | Arr _ | Obj _ => true
  end.

Definition isArray (v : jsval) : bool :=
  match v with Arr _ => true | _ => false end.

Fixpoint own_property (fields : list (jsstr * jsval)) (name : jsstr) : jsval :=
  match fields with
  | [] => Undefined
  | (k, v) :: rest => if bool_decide (k = name) then v else own_property rest name
  end.

(** [items[name]] where [name] is the decimal form of an index. *)
Fixpoint element {A} (items : list A) (name : jsstr) (i : nat) : option A :=
  match items with
  | [] => None
  | x :: rest =>
      if bool_decide (number_to_string (Z.of_nat i) = name) then Some x
      else element rest name (S i)
  end.

(** [v.name] and [v[name]]; [None] where JavaScript raises a TypeError,
    that is on [undefined] and [null]. *)
Definition member (v : jsval) (name : jsstr) : option jsval :=
  match v with
  | Undefined | Null => None
  | Obj fields => Some (own_property fields name)
  | Arr items =>
      if bool_decide (name = js "length") then Some (Num (Z.of_nat (length items)))
      else Some (default Undefined (element items name 0))
  | Str s =>
      if bool_decide (name = js "length") then Some (Num (Z.of_nat (length s)))
      else Some (from_option (λ c, Str [c]) Undefined (element s name 0))
  | Bool _ | Num _ => Some Undefined
  end.

(** [String(v)], which [Array.prototype.join] applies to the elements
    that are neither [undefined] nor [null]. *)
Fixpoint to_string (v : jsval) : jsstr :=
  match v with
  | Undefined => js "undefined"
  | Null => js "null"
  | Bool true => js "true"
  | Bool false => js "false"
  | Num n => number_to_string n
  | Str s => s
  | Arr items =>
      (fix join_items (l : list jsval) : jsstr :=
         match l with
         | [] => []
         | x :: rest =>
             match x with Undefined | Null => [] | _ => to_string x end
             ++ match rest with [] => [] | _ :: _ => js "," ++ join_items rest end
         end) items
  | Obj _ => js "[object Object]"
  end.

(** [items.join(separator)] *)
Fixpoint join (items : list jsval) (separator : jsstr) : jsstr :=
  match items with
  | [] => []
  | x :: rest =>
      match x with Undefined | Null => [] | _ => to_string x end
      ++ match rest with [] => [] | _ :: _ => separator ++ join rest separator end
  end.

End JsValue.
Import JsValue.

(** ** The world outside the process *)

Module World.

(** What an external service answers: its response, or the message of the
    error it raises. *)
Inductive Reply (A : Type) : Type :=
| Responded (response : A)
| Raised (message : jsstr).
Arguments Responded {A} response.
Arguments Raised {A} message.

Record StartTranscriptionJobParams := {
  TranscriptionJobName : jsstr;
  LanguageCode : jsstr;
  MediaFormat : jsstr;
  MediaFileUri : jsstr;
  OutputBucketName : jsstr;
  DataAccessRoleArn : option jsstr
}.

(** [response.TranscriptionJob]; an absent property is [None]. *)
Record TranscriptLocation := {
  TranscriptFileUri : option jsstr
}.

Record TranscriptionJob := {
  TranscriptionJobStatus : jsstr;
  Transcript : option TranscriptLocation
}.

Inductive ObjectBody : Type :=
| TextBody (text : jsstr)
| BufferBody (bytes : list byte).

Record PutObjectParams := {
  Bucket : jsstr;
  Key : jsstr;
  Body : ObjectBody;
  ContentType : jsstr
}.

Record SynthesizeSpeechParams := {
  OutputFormat : jsstr;
  Text : jsstr;
  VoiceId : jsstr
}.

Record GenerateTextParams := {
  input : jsstr;
  modelId : jsstr;
  projectId : option jsstr;
  max_new_tokens : Z;
  temperature : Qcanon.Qc;
  top_p : Qcanon.Qc
}.

(** One request sent to an external service, with the reply it got. *)
Inductive Call : Type :=
| StartTranscriptionJob (params : StartTranscriptionJobParams) (reply : Reply unit)
| GetTranscriptionJob (jobName : jsstr) (reply : Reply TranscriptionJob)
| HeadObject (bucket key : jsstr) (reply : Reply unit)
| GetObject (bucket key : jsstr) (reply : Reply jsstr)
| PutObject (params : PutObjectParams) (reply : Reply unit)
| SynthesizeSpeech (params : SynthesizeSpeechParams) (reply : Reply (list (list byte)))
| GenerateText (params : GenerateTextParams) (reply : Reply jsval).

(** The TypeErrors of the engine; their texts are the engine's. *)
Inductive TypeErrorKind : Type :=
| CannotReadProperty (target : jsval) (name : jsstr)
| NotAFunction (name : jsstr).

(** The environment: what each service answers to a request made at a given
    instant, what the clock shows then, how the file system answers, and
    what the process was started with. Instants count the interactions
    with the environment. A stream in a reply (audio, object body) is given
    read to its end, a text body decoded. *)
Record Env := {
  Date_now : nat → Z;
  (** the message of the error [fs.readdirSync(audioOutputDir)] throws at an
      instant, if it throws *)
  fs_readdir_error : nat → option jsstr;
  (** the order in which [fs.readdirSync] lists the names: by rank, names of
      equal rank in the order of the directory map *)
  fs_readdir_rank : nat → jsstr → nat;
  (** the message of the error [fs.unlinkSync(path)] throws for an existing
      entry, if it throws (a directory, a permission, a busy file) *)
  fs_unlink_error : nat → jsstr → option jsstr;
  (** the message of the error [fs.writeFileSync(path, data)] throws, if it
      throws *)
  fs_write_error : nat → jsstr → option jsstr;
  transcribe_start : nat → StartTranscriptionJobParams → Reply unit;
  transcribe_get : nat → jsstr → Reply TranscriptionJob;
  s3_head : nat → jsstr → jsstr → Reply unit;
  s3_get : nat → jsstr → jsstr → Reply jsstr;
  s3_put : nat → PutObjectParams → Reply unit;
  polly_synthesize : nat → SynthesizeSpeechParams → Reply (list (list byte));
  watsonx_generateText : nat → GenerateTextParams → Reply jsval;
  (** [false] when constructing the Watsonx client failed at start-up *)
  watsonx_client : bool;
  process_env : jsstr → option jsstr;
  dirname : jsstr;
  JSON_parse : jsstr → Reply jsval;
  TypeError_message : TypeErrorKind → jsstr
}.

(** The state a run changes: the instant, the entries of the directory
    [public/aud_op] by name, and the requests sent so far. *)
Record World := {
  instant : nat;
  aud_op : gmap jsstr (list byte);
  calls : list Call
}.

End World.
Import World.

(** ** Promises *)

Module Promise.

Inductive Outcome (A : Type) : Type :=
| Returned (value : A)        (** fulfilled *)
| Thrown (message : jsstr)    (** rejected with an [Error] of this message *)
| Pending.                    (** not settled within the polls allowed *)
Arguments Returned {A} value.
Arguments Thrown {A} message.
Arguments Pending {A}.

Definition M (A : Type) : Type := Env → World → Outcome A * World.

Definition ret {A} (a : A) : M A := λ _ w, (Returned a, w).

Definition throw {A} (message : jsstr) : M A := λ _ w, (Thrown message, w).

Definition bind {A B} (m : M A) (k : A → M B) : M B :=
  λ env w,
    match m env w with
    | (Returned a, w') => k a env w'
    | (Thrown message, w') => (Thrown message, w')
    | (Pending, w') => (Pending, w')
    end.

(** [try { m } catch (err) { handler(err.message) }] *)
Definition try_catch {A} (m : M A) (handler : jsstr → M A) : M A :=
  λ env w,
    match m env w with
    | (Thrown message, w') => handler message env w'
    | settled => settled
    end.

Definition ask : M Env := λ env w, (Returned env, w).

Definition tick (w : World) : World :=
  {| instant := S (instant w); aud_op := aud_op w; calls := calls w |}.

Definition log (c : Call) (w : World) : World :=
  {| instant := instant w; aud_op := aud_op w; calls := calls w ++ [c] |}.

(** [await client.send(command)] *)
Definition send {A} (answer : Env → nat → Reply A) (record : Reply A → Call) : M A :=
  λ env w,
    let reply := answer env (instant w) in
    let w' := tick (log (record reply) w) in
    match reply with
    | Responded response => (Returned response, w')
    | Raised message => (Thrown message, w')
    end.

(** [Date.now()] *)
Definition now : M Z := λ env w, (Returned (Date_now env (instant w)), tick w).

(** [await new Promise(resolve => setTimeout(resolve, ms))] *)
Definition sleep (ms : Z) : M unit := λ _ w, (Returned tt, tick w).

Fixpoint forEach {A} (l : list A) (f : A → M unit) : M unit :=
  match l with
  | [] => ret tt
  | x :: rest => bind (f x) (λ _, forEach rest f)
  end.

Fixpoint mapM {A B} (f : A → M B) (l : list A) : M (list B) :=
  match l with
  | [] => ret []
  | x :: rest => bind (f x) (λ y, bind (mapM f rest) (λ ys, ret (y :: ys)))
  end.

(** *** [path.join], as on POSIX *)

(** The segments of [s] between slashes. *)
Fixpoint segments (s : jsstr) : list jsstr :=
  match s with
  | [] => [[]]
  | c :: rest =>
      if (c =? 47)%N then [] :: segments rest
      else match segments rest with
           | segment :: more => (c :: segment) :: more
           | [] => [[c]]
           end
  end.

(** One round of the loop of [normalizeString]: [kept] holds the segments
    kept so far, the last one first. An empty segment and [.] are skipped;
    [..] removes the last segment kept, unless there is none or it is [..]
    itself, when it is kept if the path may climb above its start and
    dropped otherwise. *)
Definition normalize_step (allowAboveRoot : bool) (kept : list jsstr)
           (segment : jsstr) : list jsstr :=
  if bool_decide (segment = []) || bool_decide (segment = js ".") then kept
  else if bool_decide (segment = js "..") then
    match kept with
    | top :: below =>
        if bool_decide (top = js "..") then
          if allowAboveRoot then segment :: kept else kept
        else below
    | [] => if allowAboveRoot then [segment] else []
    end
  else segment :: kept.

Fixpoint join_segments (l : list jsstr) : jsstr :=
  match l with
  | [] => []
  | [segment] => segment
  | segment :: rest => segment ++ js "/" ++ join_segments rest
  end.

Definition normalizeString (path : jsstr) (allowAboveRoot : bool) : jsstr :=
  join_segments (reverse (fold_left (normalize_step allowAboveRoot) (segments path) [])).

(** [path.normalize(path)] *)
Definition normalize (path : jsstr) : jsstr :=
  match path with
  | [] => js "."
  | c :: _ =>
      let isAbsolute := (c =? 47)%N in
      let trailingSeparator :=
        match last path with Some c' => (c' =? 47)%N | None => false end in
      match normalizeString path (negb isAbsolute) with
      | [] => if isAbsolute then js "/" else if trailingSeparator then js "./" else js "."
      | body =>
          (if isAbsolute then js "/" else [])
          ++ body ++ (if trailingSeparator then js "/" else [])
      end
  end.

(** [path.join(a, b)]: the arguments that are not empty, joined by a slash
    and normalized. *)
Definition path_join (a b : jsstr) : jsstr :=
  match a, b with
  | [], [] => js "."
  | [], _ :: _ => normalize b
  | _ :: _, [] => normalize a
  | _ :: _, _ :: _ => normalize (a ++ js "/" ++ b)
  end.

(** *** The directory [public/aud_op] *)

(** [path.join(__dirname, 'public/aud_op')] *)
Definition audioOutputDir (env : Env) : jsstr :=
  path_join (dirname env) (js "public/aud_op").

(** The order in which the file system lists two names at an instant. *)
Definition listed_before (env : Env) (t : nat) (a b : jsstr) : Prop :=
  (fs_readdir_rank env t a ≤ fs_readdir_rank env t b)%nat.

#[global] Instance listed_before_dec env t a b : Decision (listed_before env t a b) :=
  decide (fs_readdir_rank env t a ≤ fs_readdir_rank env t b)%nat.

(** [fs.readdirSync(audioOutputDir)]: the names of the entries, in the
    order the file system gives them. *)
Definition readdirSync : M (list jsstr) :=
  λ env w,
    match fs_readdir_error env (instant w) with
    | Some message => (Thrown message, w)
    | None =>
        (Returned (merge_sort (listed_before env (instant w))
                              (map_to_list (aud_op w)).*1),
         w)
    end.

(** [fs.unlinkSync(path.join(audioOutputDir, file))] *)
Definition unlinkSync (file : jsstr) : M unit :=
  λ env w,
    let filePath := path_join (audioOutputDir env) file in
    match aud_op w !! file with
    | Some _ =>
        match fs_unlink_error env (instant w) filePath with
        | Some message => (Thrown message, w)
        | None =>
            (Returned tt,
             {| instant := instant w; aud_op := delete file (aud_op w);
                calls := calls w |})
        end
    | None =>
        (Thrown (js "ENOENT: no such file or directory, unlink '"
                   ++ filePath ++ js "'"), w)
    end.

(** [fs.writeFileSync(path.join(audioOutputDir, file), data)]; the
    directory is kept by the name given. *)
Definition writeFileSync (file : jsstr) (data : list byte) : M unit :=
  λ env w,
    match fs_write_error env (instant w) (path_join (audioOutputDir env) file) with
    | Some message => (Thrown message, w)
    | None =>
        (Returned tt,
         {| instant := instant w; aud_op := <[file := data]> (aud_op w);
            calls := calls w |})
    end.

(** *** Reading values *)

Definition throw_TypeError {A} (kind : TypeErrorKind) : M A :=
  λ env w, (Thrown (TypeError_message env kind), w).

(** [v.name] *)
Definition read (v : jsval) (name : jsstr) : M jsval :=
  match member v name with
  | Some x => ret x
  | None => throw_TypeError (CannotReadProperty v name)
  end.

(** [v.name1.name2...] *)
Fixpoint read_path (v : jsval) (names : list jsstr) : M jsval :=
  match names with
  | [] => ret v
  | name :: rest => bind (read v name) (λ x, read_path x rest)
  end.

(** [a && b] *)
Definition and_also (a b : M jsval) : M jsval :=
  bind a (λ x, if truthy x then b else ret x).

(** [v.trim()] *)
Definition call_trim (v : jsval) : M jsstr :=
  match v with
  | Str s => ret (trim s)
  | Undefined | Null => throw_TypeError (CannotReadProperty v (js "trim"))
  | _ => throw_TypeError (NotAFunction (js "trim"))
  end.

(** [v.map(f)] *)
Definition call_map (v : jsval) (f : jsval → M jsval) : M (list jsval) :=
  match v with
  | Arr items => mapM f items
  | Undefined | Null => throw_TypeError (CannotReadProperty v (js "map"))
  | _ => throw_TypeError (NotAFunction (js "map"))
  end.

(** [a || b || c] on optional strings: the first that is neither
    [undefined] nor empty, else the last. *)
Fixpoint first_truthy (l : list (option jsstr)) : option jsstr :=
  match l with
  | [] => None
  | [x] => x
  | Some (c :: s) :: _ => Some (c :: s)
  | _ :: rest => first_truthy rest
  end.

End Promise.
Import Promise.

(** [x ← m; k] awaits [m] and goes on with [k]. *)
#[global] Instance promise_ret : MRet M := @ret.
#[global] Instance promise_bind : MBind M := λ A B k m, bind m k.

(** ** pol.js *)

Module Pol.
Local Open Scope Z_scope.

Definition defaultMaxLength : Z := 2500.

Definition ellipsis : jsstr := js "...".

(** [truncateTextForPolly(text, maxLength = 2500)], for an integral
    [maxLength] *)
Definition truncateTextForPolly (text : jsstr) (maxLength : Z) : jsstr :=
  if str_length text <=? maxLength then text
  else
    let truncated := substring text 0 maxLength in
    let lastSentenceEnd :=
      Z.max (Z.max (lastIndexOf truncated (js "."))
                   (lastIndexOf truncated (js "!")))
            (lastIndexOf truncated (js "?")) in
    if gt_times_0_7 lastSentenceEnd maxLength then
      substring truncated 0 (lastSentenceEnd + 1)
    else
      let lastSpace := lastIndexOf truncated (js " ") in
      if 0 <? lastSpace then substring truncated 0 lastSpace ++ ellipsis
      else truncated ++ ellipsis.

(** The sentence terminators the truncation looks for. *)
Definition is_sentence_terminator (c : N) : Prop :=
  c = 46%N ∨ c = 33%N ∨ c = 63%N.

(** [clearPreviousAudio()] *)
Definition clearPreviousAudio : M unit :=
  try_catch
    (files ← readdirSync;
     forEach files (λ file,
       if endsWith file (js ".mp3") then unlinkSync file else ret tt))
    (λ _, ret tt).

(** The [options] argument of [synthesizeSpeech]; an absent property is
    [None], and [{ ...defaultOptions, ...options }] then takes the default
    below. *)
Record SpeechOptions := {
  voiceId : option jsstr;
  outputFormat : option jsstr;
  outputFileName : option jsstr;
  bucketName : option jsstr
}.

Definition no_options : SpeechOptions :=
  {| voiceId := None; outputFormat := None; outputFileName := None; bucketName := None |}.

Definition default_voiceId : jsstr := js "Joanna".
Definition default_outputFormat : jsstr := js "mp3".
Definition default_outputFileName : jsstr := js "current_audio.mp3".
Definition default_bucketName : jsstr := js "mint-out".

(** The object [synthesizeSpeech] resolves to. *)
Inductive SpeechResult : Type :=
| SpeechSuccess (localFileName localFilePath relativePath s3FileName
                 bucket s3Url message : jsstr)
| SpeechFailure (error : jsstr).

Definition s3_key (timestamp : Z) : jsstr :=
  js "polly-output-" ++ number_to_string timestamp ++ js ".mp3".

(** [synthesizeSpeech(textInput, options = {})] *)
Definition synthesizeSpeech (textInput : jsstr) (options : SpeechOptions)
  : M SpeechResult :=
  let config_voiceId := default default_voiceId (voiceId options) in
  let config_outputFormat := default default_outputFormat (outputFormat options) in
  let config_outputFileName := default default_outputFileName (outputFileName options) in
  let config_bucketName := default default_bucketName (bucketName options) in
  let processedText := truncateTextForPolly textInput defaultMaxLength in
  let params :=
    {| OutputFormat := config_outputFormat;
       Text := processedText;
       VoiceId := config_voiceId |} in
  try_catch
    (clearPreviousAudio;;
     chunks ← send (λ env t, polly_synthesize env t params) (SynthesizeSpeech params);
     let audioBuffer := concat chunks in
     env ← ask;
     let localFilePath := path_join (audioOutputDir env) config_outputFileName in
     writeFileSync config_outputFileName audioBuffer;;
     timestamp ← now;
     let s3FileName := s3_key timestamp in
     let uploadParams :=
       {| Bucket := config_bucketName;
          Key := s3FileName;
          Body := BufferBody audioBuffer;
          ContentType := js "audio/mpeg" |} in
     send (λ env t, s3_put env t uploadParams) (PutObject uploadParams);;
     mret (SpeechSuccess
             config_outputFileName
             localFilePath
             (js "public/aud_op/" ++ config_outputFileName)
             s3FileName
             config_bucketName
             (js "s3://" ++ config_bucketName ++ js "/" ++ s3FileName)
             (js "Speech synthesized, saved locally to aud_op folder AND uploaded to S3 successfully")))
    (λ message, ret (SpeechFailure message)).

End Pol.
Import Pol.

(** ** graniteLLM.js *)

Module GraniteLLM.

(** The [options] argument; an absent property is [None]. *)
Record GenerateOptions := {
  opt_modelId : option jsstr;
  opt_projectId : option jsstr;
  opt_max_new_tokens : option Z;
  opt_temperature : option Qcanon.Qc;
  opt_top_p : option Qcanon.Qc
}.

Definition no_options : GenerateOptions :=
  {| opt_modelId := None; opt_projectId := None; opt_max_new_tokens := None;
     opt_temperature := None; opt_top_p := None |}.

Definition generate_params (env : Env) (inputText : jsstr) (options : GenerateOptions)
  : GenerateTextParams :=
  {| input := inputText;
     modelId :=
       default [] (first_truthy [opt_modelId options;
                                 process_env env (js "WATSONX_AI_MODEL_ID");
                                 Some (js "ibm/granite-3-3-8b-instruct")]);
     projectId :=
       first_truthy [opt_projectId options;
                     process_env env (js "WATSONX_AI_PROJECT_ID");
                     process_env env (js "WATSONX_AI_PROJECT_ID")];
     max_new_tokens :=
       match opt_max_new_tokens options with
       | Some n => if (n =? 0)%Z then 100%Z else n
       | None => 100%Z
       end;
     temperature := default (Qcanon.Q2Qc (QArith_base.Qmake 7 10)) (opt_temperature options);
     top_p := default (Qcanon.Q2Qc (QArith_base.Qmake 9 10)) (opt_top_p options) |}.

(** What the function makes of the service's response (the part after
    [await watsonxAI.generateText(params)]). *)
Definition read_generated_text (response : jsval) : M jsstr :=
  has_results ←
    and_also (ret response)
      (and_also (read response (js "result"))
         (and_also
            (results ← read_path response [js "result"; js "results"];
             mret (Bool (isArray results)))
            (read_path response [js "result"; js "results"; js "length"])));
  if truthy has_results then
    text ← read_path response
             [js "result"; js "results"; js "0"; js "generated_text"];
    call_trim text
  else
    (* fallback shapes *)
    has_generations ←
      and_also (ret response)
        (and_also (read response (js "result"))
           (and_also
              (read_path response [js "result"; js "generations"])
              (read_path response [js "result"; js "generations"; js "0"])));
    if truthy has_generations then
      text ← read_path response
               [js "result"; js "generations"; js "0"; js "text"];
      call_trim (if truthy text then text else Str [])
    else
      mret (js "No result field in response").

(** [generateTextWithGranite(inputText, options = {})] *)
Definition generateTextWithGranite (inputText : jsstr) (options : GenerateOptions)
  : M jsstr :=
  try_catch
    (if bool_decide (inputText = []) then
       throw (js "Input text is required and must be a string")
     else
       env ← ask;
       let params := generate_params env inputText options in
       if negb (watsonx_client env) then
         throw (js "Watsonx client not initialized. Ensure WATSONX_AI_APIKEY and WATSONX_AI_URL are set.")
       else
         response ← send (λ env t, watsonx_generateText env t params) (GenerateText params);
         read_generated_text response)
    (λ message, throw (js "Watsonx Granite LLM error: " ++ message)).

(** [response.result.name], or [undefined] where there is nothing to
    read. *)
Definition result_field (response : jsval) (name : jsstr) : jsval :=
  default Undefined
    (member (default Undefined (member response (js "result"))) name).

(** The response has a [results] array with at least one element. *)
Definition has_results (response : jsval) : Prop :=
  ∃ first rest, result_field response (js "results") = Arr (first :: rest).

(** The response has a [generations] field. *)
Definition has_generations (response : jsval) : Prop :=
  result_field response (js "generations") ≠ Undefined.

End GraniteLLM.

(** ** transcribe.js: what its two revisions share *)

Module TranscribeShared.
Section WithBucket.
Variable bucketName : jsstr.

Definition start_params (jobName audioFile : jsstr) : StartTranscriptionJobParams :=
  {| TranscriptionJobName := jobName;
     LanguageCode := js "en-US";
     MediaFormat := js "mp3";
     MediaFileUri := js "s3://" ++ bucketName ++ js "/" ++ audioFile;
     OutputBucketName := bucketName;
     DataAccessRoleArn := None |}.

(** [waitForCompletion(jobName)]; the loop is allowed [polls] rounds. *)
Fixpoint waitForCompletion (polls : nat) (jobName : jsstr) : M (option jsstr) :=
  match polls with
  | O => λ _ w, (Pending, w)
  | S polls' =>
      job ← send (λ env t, transcribe_get env t jobName) (GetTranscriptionJob jobName);
      let status := TranscriptionJobStatus job in
      if bool_decide (status = js "COMPLETED") then
        match Transcript job with
        | Some transcript => mret (TranscriptFileUri transcript)
        | None =>
            throw_TypeError (CannotReadProperty Undefined (js "TranscriptFileUri"))
        end
      else if bool_decide (status = js "FAILED") then
        throw (js "Transcription job failed.")
      else
        sleep 100;; waitForCompletion polls' jobName
  end.

(** [getTranscriptText(jobName)] *)
Definition getTranscriptText (jobName : jsstr) : M jsstr :=
  let jsonKey := jobName ++ js ".json" in
  jsonData ← send (λ env t, s3_get env t bucketName jsonKey)
                  (GetObject bucketName jsonKey);
  env ← ask;
  json ← match JSON_parse env jsonData with
         | Responded v => ret v
         | Raised message => throw message
         end;
  transcripts ← read_path json [js "results"; js "transcripts"];
  parts ← call_map transcripts (λ t, read t (js "transcript"));
  let text := join parts [10%N] in
  let putText :=
    {| Bucket := bucketName;
       Key := jobName ++ js ".txt";
       Body := TextBody text;
       ContentType := js "text/plain" |} in
  send (λ env t, s3_put env t putText) (PutObject putText);;
  mret text.

(** [transcribeAudio(mp3FileName)], over the revision's
    [startTranscription] *)
Definition transcribeAudio (startTranscription : jsstr → jsstr → M unit)
           (polls : nat) (mp3FileName : jsstr) : M jsstr :=
  try_catch
    (timestamp ← now;
     let jobName := js "MyTranscriptionJob-" ++ number_to_string timestamp in
     startTranscription jobName mp3FileName;;
     waitForCompletion polls jobName;;
     getTranscriptText jobName)
    (λ message, throw message).

End WithBucket.
End TranscribeShared.

(** ** transcribe.js, the revision that submits at once *)

Module Transcribe.

Definition bucketName : jsstr := js "mint-bucket1".

(** [startTranscription(jobName, audioFile)] *)
Definition startTranscription (jobName audioFile : jsstr) : M unit :=
  let params := TranscribeShared.start_params bucketName jobName audioFile in
  send (λ env t, transcribe_start env t params) (StartTranscriptionJob params).

Definition waitForCompletion := TranscribeShared.waitForCompletion.
Definition getTranscriptText := TranscribeShared.getTranscriptText bucketName.
Definition transcribeAudio :=
  TranscribeShared.transcribeAudio bucketName startTranscription.

End Transcribe.

(** ** transcribe.js, the revision that checks the source first *)

Module TranscribeChecked.

Definition bucketName : jsstr := js "mint-in".

Definition is_line_terminator (c : N) : bool :=
  ((c =? 10) || (c =? 13) || (c =? 8232) || (c =? 8233))%N.

Fixpoint until_slash (s : jsstr) : jsstr * jsstr :=
  match s with
  | c :: rest =>
      if (c =? 47)%N then ([], s)
      else let '(run, tail) := until_slash rest in (c :: run, tail)
  | [] => ([], [])
  end.

(** The regular expression [^s3:\/\/[^\/]+\/.+] applied with [test]:
    the scheme, a non-empty run without a slash, a slash, and at least
    one unit that is not a line terminator. *)
Definition s3_uri_test (s : jsstr) : bool :=
  starts_with (js "s3://") s
  && match until_slash (drop 5 s) with
     | (_ :: _, _ :: c :: _) => negb (is_line_terminator c)
     | _ => false
     end.

(** [startTranscription(jobName, audioFile)] *)
Definition startTranscription (jobName audioFile : jsstr) : M unit :=
  let params := TranscribeShared.start_params bucketName jobName audioFile in
  let s3Uri := MediaFileUri params in
  if bool_decide (s3Uri = []) || negb (s3_uri_test s3Uri) then
    throw (js "Invalid S3 URI constructed for Transcribe: " ++ s3Uri)
  else
    try_catch
      (send (λ env t, s3_head env t bucketName audioFile)
            (HeadObject bucketName audioFile))
      (λ message,
         throw (js "S3 object not found or inaccessible: s3://" ++ bucketName
                  ++ js "/" ++ audioFile ++ js " -- " ++ message));;
    env ← ask;
    let params :=
      match process_env env (js "TRANSCRIBE_DATA_ACCESS_ROLE_ARN") with
      | Some (c :: arn) =>
          {| TranscriptionJobName := TranscriptionJobName params;
             LanguageCode := LanguageCode params;
             MediaFormat := MediaFormat params;
             MediaFileUri := MediaFileUri params;
             OutputBucketName := OutputBucketName params;
             DataAccessRoleArn := Some (c :: arn) |}
      | _ => params
      end in
    send (λ env t, transcribe_start env t params) (StartTranscriptionJob params).

Definition waitForCompletion := TranscribeShared.waitForCompletion.
Definition getTranscriptText := TranscribeShared.getTranscriptText bucketName.
Definition transcribeAudio :=
  TranscribeShared.transcribeAudio bucketName startTranscription.

End TranscribeChecked.

(** ** help.js: the coordinator *)

Module Help.

(** Which revision [require("./transcribe.js")] resolves to. *)
Inductive TranscribeModule : Type :=
| submits_at_once
| checks_first.

Definition transcribeAudio (which : TranscribeModule) : nat → jsstr → M jsstr :=
  match which with
  | submits_at_once => Transcribe.transcribeAudio
  | checks_first => TranscribeChecked.transcribeAudio
  end.

(** The object [processAudioWithAI] resolves to. *)
Inductive PipelineResult : Type :=
| PipelineSuccess (transcribedText aiResponse audioFile message : jsstr)
| PipelineFailure (error step : jsstr).

(** [processAudioWithAI(fileName)]; the transcription may poll [polls]
    times. *)
Definition processAudioWithAI (which : TranscribeModule) (polls : nat)
           (fileName : jsstr) : M PipelineResult :=
  try_catch
    (transcribedText ← transcribeAudio which polls fileName;
     aiResponse ← GraniteLLM.generateTextWithGranite transcribedText GraniteLLM.no_options;
     speechResult ← synthesizeSpeech aiResponse no_options;
     match speechResult with
     | SpeechSuccess _ _ relativePath _ _ _ _ =>
         mret (PipelineSuccess transcribedText aiResponse relativePath
                 (js "AI pipeline completed successfully"))
     | SpeechFailure error =>
         throw (js "Speech synthesis failed: " ++ error)
     end)
    (λ message, ret (PipelineFailure message (js "AI Pipeline"))).

End Help.
Import Help.

(** ** help.js: the routes that run the stages *)

Module HelpRoutes.

(** What a route sends back: [res.status(status).send(text)] or
    [res.status(status).json(object)]; the status is 200 when the route does
    not set it. *)
Inductive ResponseBody : Type :=
| SendText (text : jsstr)
| SendJson (fields : list (jsstr * jsval)).

Record Response := {
  status : Z;
  body : ResponseBody
}.

(** [app.post("/process-text", express.json(), async (req, res) => ...)],
    on [req.body]. *)
Definition process_text (reqBody : jsval) : M Response :=
  try_catch
    (text ← read reqBody (js "text");
     if negb (truthy text) then
       mret {| status := 400;
               body := SendJson [(js "success", Bool false);
                                 (js "message", Str (js "Text input is required"))] |}
     else
       (* [text.substring(0, 100)], for the log *)
       input ← match text with
               | Str s => ret s
               | _ => throw_TypeError (NotAFunction (js "substring"))
               end;
       aiResponse ← GraniteLLM.generateTextWithGranite input GraniteLLM.no_options;
       speechResult ← synthesizeSpeech aiResponse no_options;
       match speechResult with
       | SpeechSuccess _ _ relativePath _ _ _ _ =>
           mret {| status := 200;
                   body := SendJson
                     [(js "success", Bool true);
                      (js "inputText", Str input);
                      (js "aiResponse", Str aiResponse);
                      (js "audioFile", Str relativePath);
                      (js "message",
                       Str (js "Text processed and converted to speech successfully"))] |}
       | SpeechFailure error =>
           mret {| status := 500;
                   body := SendJson
                     [(js "success", Bool false);
                      (js "error", Str error);
                      (js "message",
                       Str (js "AI processing succeeded but speech synthesis failed"))] |}
       end)
    (λ message,
       ret {| status := 500;
              body := SendJson [(js "success", Bool false);
                                (js "error", Str message)] |}).

(** The key [`recording-${timestamp}.mp3`] *)
Definition recording_name (timestamp : Z) : jsstr :=
  js "recording-" ++ number_to_string timestamp ++ js ".mp3".

(** [app.post("/upload-to-s3", upload.single("audio"), async (req, res) => ...)],
    on [req.file]: the buffer of the uploaded file, or [None] when there is
    none. *)
Definition upload_to_s3 (which : TranscribeModule) (polls : nat)
           (file : option (list byte)) : M Response :=
  match file with
  | None => ret {| status := 400; body := SendText (js "No audio file received") |}
  | Some buffer =>
      timestamp ← now;
      let fileName := recording_name timestamp in
      let command :=
        {| Bucket := js "mint-in";
           Key := fileName;
           Body := BufferBody buffer;
           ContentType := js "audio/mp3" |} in
      try_catch
        (send (λ env t, s3_put env t command) (PutObject command);;
         sleep 5000;;
         try_catch
           (pipelineResult ← processAudioWithAI which polls fileName;
            match pipelineResult with
            | PipelineSuccess transcribedText aiResponse audioFile _ =>
                mret {| status := 200;
                        body := SendJson
                          [(js "success", Bool true);
                           (js "message",
                            Str (js "Uploaded as " ++ fileName
                                   ++ js " and processed successfully"));
                           (js "fileName", Str fileName);
                           (js "transcribedText", Str transcribedText);
                           (js "aiResponse", Str aiResponse);
                           (js "audioFile", Str audioFile)] |}
            | PipelineFailure error _ =>
                mret {| status := 500;
                        body := SendJson
                          [(js "success", Bool false);
                           (js "message",
                            Str (js "Upload successful but AI pipeline failed: "
                                   ++ error));
                           (js "fileName", Str fileName)] |}
            end)
           (λ message,
              ret {| status := 500;
                     body := SendJson
                       [(js "success", Bool false);
                        (js "message",
                         Str (js "Upload successful but pipeline error: " ++ message));
                        (js "fileName", Str fileName)] |}))
        (λ message,
           ret {| status := 500; body := SendText (js "Upload failed: " ++ message) |})
  end.

End HelpRoutes.
Import HelpRoutes.

(** ** The vocabulary of the statements *)

(** The value of [lastSentenceEnd] in [truncateTextForPolly], for the
    window [t]. *)
Definition last_sentence_end (t : jsstr) : Z :=
  Z.max (Z.max (lastIndexOf t (js ".")) (lastIndexOf t (js "!")))
        (lastIndexOf t (js "?")).

(** The requests a run added to the log. *)
Definition new_calls (w w' : World) : list Call :=
  drop (length (calls w)) (calls w').

(** [logs P m]: whatever the environment answers, [m] only appends to the
    log, and every request it appends satisfies [P]. *)
Definition logs {A} (P : Call → Prop) (m : M A) : Prop :=
  ∀ env w, ∃ new, calls (m env w).2 = calls w ++ new ∧ Forall P new.

(** The kinds of request the statements tell apart. *)
Definition is_generation (c : Call) : Prop :=
  match c with GenerateText _ _ => True | _ => False end.

Definition is_synthesis (c : Call) : Prop :=
  match c with SynthesizeSpeech _ _ => True | _ => False end.

(** A poll that the service answered with status FAILED. *)
Definition is_failed_poll (c : Call) : Prop :=
  match c with
  | GetTranscriptionJob _ (Responded job) => TranscriptionJobStatus job = js "FAILED"
  | _ => False
  end.

(** Neither the generation service nor the synthesis service. *)
Definition is_neither_generation_nor_synthesis (c : Call) : Prop :=
  ¬ is_generation c ∧ ¬ is_synthesis c.

(** Requests that are none of: generation, synthesis, a poll answered
    FAILED. *)
Definition is_quiet (c : Call) : Prop :=
  is_neither_generation_nor_synthesis c ∧ ¬ is_failed_poll c.

Definition is_not_failed_poll (c : Call) : Prop := ¬ is_failed_poll c.

(** [stops_on_failed_poll m]: [m] sends nothing to the generation and
    synthesis services, and when a poll is answered FAILED it throws
    'Transcription job failed.'. *)
Definition stops_on_failed_poll {A} (m : M A) : Prop :=
  ∀ env w, ∃ new,
    calls (m env w).2 = calls w ++ new
    ∧ Forall is_neither_generation_nor_synthesis new
    ∧ (Exists is_failed_poll new →
       (m env w).1 = Thrown (js "Transcription job failed.")).

(** The directory without its [.mp3] files. *)
Definition mp3_cleared (files : gmap jsstr (list byte)) : gmap jsstr (list byte) :=
  filter (λ entry, endsWith entry.1 (js ".mp3") = false) files.

Definition with_files (w : World) (files : gmap jsstr (list byte)) : World :=
  {| instant := instant w; aud_op := files; calls := calls w |}.

(** The directory as [clearPreviousAudio] leaves it, started in [w]. *)
Definition cleared (env : Env) (w : World) : gmap jsstr (list byte) :=
  aud_op (clearPreviousAudio env w).2.

(** The clearing started in [w] meets no error: the directory can be
    listed, and every [.mp3] entry it holds can be unlinked. *)
Definition clearing_succeeds (env : Env) (w : World) : Prop :=
  fs_readdir_error env (instant w) = None
  ∧ ∀ file,
      is_Some (aud_op w !! file) →
      endsWith file (js ".mp3") = true →
      fs_unlink_error env (instant w) (path_join (audioOutputDir env) file) = None.

(** A plain file name: not empty, no slash, and neither [.] nor [..]; for
    such a name [path.join(dir, name)] is the entry [name] of [dir]. *)
Definition is_plain_name (name : jsstr) : bool :=
  negb (bool_decide (name = []))
  && negb (bool_decide (47%N ∈ name))
  && negb (bool_decide (name = js "."))
  && negb (bool_decide (name = js "..")).

(** The clock reading a call of [synthesizeSpeech] started in [w] builds
    its storage key from (it reads the clock after the synthesis request). *)
Definition key_reading (env : Env) (w : World) : Z :=
  Date_now env (S (instant w)).

(** The request [synthesizeSpeech] sends to the synthesis service. *)
Definition speech_params (textInput : jsstr) (options : SpeechOptions)
  : SynthesizeSpeechParams :=
  {| OutputFormat := default default_outputFormat (outputFormat options);
     Text := truncateTextForPolly textInput defaultMaxLength;
     VoiceId := default default_voiceId (voiceId options) |}.

(** The request [synthesizeSpeech] sends to the object store. *)
Definition upload_params (options : SpeechOptions) (timestamp : Z)
           (audio : list byte) : PutObjectParams :=
  {| Bucket := default default_bucketName (bucketName options);
     Key := s3_key timestamp;
     Body := BufferBody audio;
     ContentType := js "audio/mpeg" |}.

(** The storage key in a result of [synthesizeSpeech]. *)
Definition s3FileName_of (r : SpeechResult) : option jsstr :=
  match r with
  | SpeechSuccess _ _ _ s3FileName _ _ _ => Some s3FileName
  | SpeechFailure _ => None
  end.

Definition succeeded (r : SpeechResult) : Prop :=
  match r with SpeechSuccess _ _ _ _ _ _ _ => True | SpeechFailure _ => False end.

(** A stage of the run [processAudioWithAI which polls fileName] started in
    [w] fails with [message], leaving the world [w']. *)
Inductive stage_fails (which : TranscribeModule) (polls : nat) (fileName : jsstr)
          (env : Env) (w : World) : jsstr → World → Prop :=
| transcription_fails message w1 :
    transcribeAudio which polls fileName env w = (Thrown message, w1) →
    stage_fails which polls fileName env w message w1
| generation_fails text w1 message w2 :
    transcribeAudio which polls fileName env w = (Returned text, w1) →
    GraniteLLM.generateTextWithGranite text GraniteLLM.no_options env w1
      = (Thrown message, w2) →
    stage_fails which polls fileName env w message w2
| synthesis_fails text w1 reply w2 error w3 :
    transcribeAudio which polls fileName env w = (Returned text, w1) →
    GraniteLLM.generateTextWithGranite text GraniteLLM.no_options env w1
      = (Returned reply, w2) →
    synthesizeSpeech reply no_options env w2 = (Returned (SpeechFailure error), w3) →
    stage_fails which polls fileName env w (js "Speech synthesis failed: " ++ error) w3.

(** [leaves_world m]: [m] changes nothing and settles: it computes a value,
    or throws. *)
Definition leaves_world {A} (m : M A) : Prop :=
  ∀ env w, (m env w).2 = w ∧ (m env w).1 ≠ Pending.

(** [keeps_files m]: [m] leaves the local directory as it is. *)
Definition keeps_files {A} (m : M A) : Prop :=
  ∀ env w, aud_op (m env w).2 = aud_op w.

(** A job that is neither COMPLETED nor FAILED. *)
Definition still_running (job : TranscriptionJob) : Prop :=
  TranscriptionJobStatus job ≠ js "COMPLETED"
  ∧ TranscriptionJobStatus job ≠ js "FAILED".

(** A poll about [jobName]. *)
Definition is_poll_of (jobName : jsstr) (c : Call) : Prop :=
  ∃ reply, c = GetTranscriptionJob jobName reply.

(** A poll about [jobName] that found the job still running. *)
Definition is_running_poll_of (jobName : jsstr) (c : Call) : Prop :=
  ∃ job, c = GetTranscriptionJob jobName (Responded job) ∧ still_running job.

(** The requests of [startTranscription]: the existence check and the
    submission. *)
Definition is_check_or_submission (c : Call) : Prop :=
  match c with
  | HeadObject _ _ _ | StartTranscriptionJob _ _ => True
  | _ => False
  end.

(** The bucket a revision of transcribe.js works in. *)
Definition bucket_of (which : TranscribeModule) : jsstr :=
  match which with
  | submits_at_once => Transcribe.bucketName
  | checks_first => TranscribeChecked.bucketName
  end.

(** The segments, each but the last followed by a line feed. *)
Fixpoint lines_of (segments : list jsstr) : jsstr :=
  match segments with
  | [] => []
  | [s] => s
  | s :: rest => s ++ [10%N] ++ lines_of rest
  end.

(** The document of a transcription with the given segments. *)
Definition transcript_document (segments : list jsstr) : jsval :=
  Obj [(js "results",
        Obj [(js "transcripts",
              Arr ((λ s, Obj [(js "transcript", Str s)]) <$> segments))])].

(** The role the process was told to hand to the transcription service:
    the value of TRANSCRIBE_DATA_ACCESS_ROLE_ARN, unless absent or empty. *)
Definition role_arn (env : Env) : option jsstr :=
  match process_env env (js "TRANSCRIBE_DATA_ACCESS_ROLE_ARN") with
  | Some (c :: arn) => Some (c :: arn)
  | _ => None
  end.

(** The submission of the checking revision. *)
Definition checked_params (env : Env) (jobName audioFile : jsstr)
  : StartTranscriptionJobParams :=
  {| TranscriptionJobName := jobName;
     LanguageCode := js "en-US";
     MediaFormat := js "mp3";
     MediaFileUri := js "s3://mint-in/" ++ audioFile;
     OutputBucketName := js "mint-in";
     DataAccessRoleArn := role_arn env |}.

(** [json.results.transcripts.map(t => t.transcript)] *)
Definition transcript_parts (json : jsval) : M (list jsval) :=
  bind (read_path json [js "results"; js "transcripts"])
       (λ transcripts, call_map transcripts (λ t, read t (js "transcript"))).

(** The request that stores the text of a transcript beside its document. *)
Definition transcript_upload (bucket jobName text : jsstr) : PutObjectParams :=
  {| Bucket := bucket;
     Key := jobName ++ js ".txt";
     Body := TextBody text;
     ContentType := js "text/plain" |}.

(** The requests of a [startTranscription] that goes through, for the job
    [jobName] on the file [audioFile]. *)
Definition start_requests (which : TranscribeModule) (env : Env)
           (jobName audioFile : jsstr) : list Call :=
  match which with
  | submits_at_once =>
      [StartTranscriptionJob
         (TranscribeShared.start_params Transcribe.bucketName jobName audioFile)
         (Responded tt)]
  | checks_first =>
      [HeadObject TranscribeChecked.bucketName audioFile (Responded tt);
       StartTranscriptionJob (checked_params env jobName audioFile) (Responded tt)]
  end.

(** The name [transcribeAudio] gives the job it starts at [w]. *)
Definition job_name_at (env : Env) (w : World) : jsstr :=
  js "MyTranscriptionJob-" ++ number_to_string (Date_now env (instant w)).

(** The request of the route /upload-to-s3 that stores the recording. *)
Definition recording_upload (timestamp : Z) (buffer : list byte) : PutObjectParams :=
  {| Bucket := js "mint-in";
     Key := recording_name timestamp;
     Body := BufferBody buffer;
     ContentType := js "audio/mp3" |}.

(** [c] is no submission of a transcription job, or one about the media at
    [uri]. *)
Definition submits_only (uri : jsstr) (c : Call) : Prop :=
  match c with
  | StartTranscriptionJob params _ => MediaFileUri params = uri
  | _ => True
  end.

(** The code unit of the slash. *)
Definition slash : N := 47%N.

(** The prefix of every message [generateTextWithGranite] throws. *)
Definition granite_error_prefix : jsstr := js "Watsonx Granite LLM error: ".

(** ** Sample surroundings for the worked instances *)

(** An environment in which every service succeeds unless told otherwise:
    the clock is given, as are the reply to each poll, to the existence
    check, to each write to the object store, and to the generation
    request. The audio synthesized at instant [t] is the single byte
    numbered [t]. *)
Definition sample_env (clock : nat → Z) (poll : nat → Reply TranscriptionJob)
           (head : Reply unit) (stored : nat → Reply unit)
           (generated : Reply jsval) : Env :=
  {| Date_now := clock;
     fs_readdir_error := λ _, None;
     fs_readdir_rank := λ _ _, 0%nat;
     fs_unlink_error := λ _ _, None;
     fs_write_error := λ _ _, None;
     transcribe_start := λ _ _, Responded tt;
     transcribe_get := λ t _, poll t;
     s3_head := λ _ _ _, head;
     s3_get := λ _ _ _, Responded (js "{}");
     s3_put := λ t _, stored t;
     polly_synthesize := λ t _, Responded [[default x00 (Byte.of_N (N.of_nat t))]];
     watsonx_generateText := λ _ _, generated;
     watsonx_client := true;
     process_env := λ _, None;
     dirname := js "/app";
     JSON_parse := λ _,
       Responded (Obj [(js "results",
                        Obj [(js "transcripts",
                              Arr [Obj [(js "transcript", Str (js "hello"))]])])]);
     TypeError_message := λ _, js "TypeError" |}.

Definition job_with_status (status : string) : Reply TranscriptionJob :=
  Responded {| TranscriptionJobStatus := js status;
               Transcript := Some {| TranscriptFileUri := Some (js "uri") |} |}.

Definition generated_reply (text : string) : Reply jsval :=
  Responded (Obj [(js "result",
                   Obj [(js "results", Arr [Obj [(js "generated_text", Str (js text))]])])]).

(** [env], except that the synthesis service raises [message]. *)
Definition with_failing_synthesis (message : jsstr) (env : Env) : Env :=
  {| Date_now := Date_now env;
     fs_readdir_error := fs_readdir_error env;
     fs_readdir_rank := fs_readdir_rank env;
     fs_unlink_error := fs_unlink_error env;
     fs_write_error := fs_write_error env;
     transcribe_start := transcribe_start env;
     transcribe_get := transcribe_get env;
     s3_head := s3_head env;
     s3_get := s3_get env;
     s3_put := s3_put env;
     polly_synthesize := λ _ _, Raised message;
     watsonx_generateText := watsonx_generateText env;
     watsonx_client := watsonx_client env;
     process_env := process_env env;
     dirname := dirname env;
     JSON_parse := JSON_parse env;
     TypeError_message := TypeError_message env |}.

(** [env], except that unlinking [path] throws [message]. *)
Definition with_failing_unlink (path message : jsstr) (env : Env) : Env :=
  {| Date_now := Date_now env;
     fs_readdir_error := fs_readdir_error env;
     fs_readdir_rank := fs_readdir_rank env;
     fs_unlink_error := λ t p,
       if bool_decide (p = path) then Some message else fs_unlink_error env t p;
     fs_write_error := fs_write_error env;
     transcribe_start := transcribe_start env;
     transcribe_get := transcribe_get env;
     s3_head := s3_head env;
     s3_get := s3_get env;
     s3_put := s3_put env;
     polly_synthesize := polly_synthesize env;
     watsonx_generateText := watsonx_generateText env;
     watsonx_client := watsonx_client env;
     process_env := process_env env;
     dirname := dirname env;
     JSON_parse := JSON_parse env;
     TypeError_message := TypeError_message env |}.

(** The options that name the local file only. *)
Definition saved_as (name : string) : SpeechOptions :=
  {| voiceId := None; outputFormat := None; outputFileName := Some (js name);
     bucketName := None |}.

(** [env], except that the Watsonx client could not be constructed. *)
Definition without_watsonx_client (env : Env) : Env :=
  {| Date_now := Date_now env;
     fs_readdir_error := fs_readdir_error env;
     fs_readdir_rank := fs_readdir_rank env;
     fs_unlink_error := fs_unlink_error env;
     fs_write_error := fs_write_error env;
     transcribe_start := transcribe_start env;
     transcribe_get := transcribe_get env;
     s3_head := s3_head env;
     s3_get := s3_get env;
     s3_put := s3_put env;
     polly_synthesize := polly_synthesize env;
     watsonx_generateText := watsonx_generateText env;
     watsonx_client := false;
     process_env := process_env env;
     dirname := dirname env;
     JSON_parse := JSON_parse env;
     TypeError_message := TypeError_message env |}.

(** A clock that advances by one millisecond per instant. *)
Definition running_clock (t : nat) : Z := (1700000000000 + Z.of_nat t)%Z.

(** A clock that shows the same millisecond throughout. *)
Definition stopped_clock (t : nat) : Z := 1700000000000%Z.

(** A directory holding an audio file of an earlier run and a text file. *)
Definition sample_world : World :=
  {| instant := 0;
     aud_op := {[ js "old.mp3" := [x2a]; js "notes.txt" := [] ]};
     calls := [] |}.

(** An environment in which everything succeeds at once: the job is
    COMPLETED at the first poll and the generation service answers
    [' Breathe slowly. ']. *)
Definition calm_env : Env :=
  sample_env running_clock (λ _, job_with_status "COMPLETED") (Responded tt)
             (λ _, Responded tt) (generated_reply " Breathe slowly. ").

(** * Properties *)

Example truncate_short : truncateTextForPolly (js "Hi there.") 20 = js "Hi there.".
Proof. reflexivity. Qed.

Example truncate_sentence :
  truncateTextForPolly (js "One two. Three four") 9 = js "One two.".
Proof. reflexivity. Qed.

Example truncate_word :
  truncateTextForPolly (js "One. two three four") 10 = js "One. two...".
Proof. reflexivity. Qed.

Example truncate_hard :
  truncateTextForPolly (js "abcdefghijklmnop") 10 = js "abcdefghij...".
Proof. reflexivity. Qed.

(** ** String primitives *)

Section StringFacts.
Local Open Scope Z_scope.
Implicit Types (s text : jsstr) (c : N).

Lemma substring_from_0 s e : substring s 0 e = take (Z.to_nat e) s.
Proof.
  unfold substring, clamp, str_length.
  set (len := Z.of_nat (length s)).
  assert (Hlen : 0 <= len) by (unfold len; lia).
  replace (Z.min (Z.max 0 0) len) with 0 by lia.
  replace (Z.min 0 (Z.min (Z.max e 0) len)) with 0 by lia.
  replace (Z.max 0 (Z.min (Z.max e 0) len) - 0) with (Z.min (Z.max e 0) len) by lia.
  change (Z.to_nat 0) with 0%nat. rewrite drop_0.
  destruct (Z_le_gt_dec len e) as [Hge | Hlt].
  - replace (Z.min (Z.max e 0) len) with len by lia.
    rewrite !take_ge; [done | unfold len in *; lia ..].
  - f_equal. lia.
Qed.

Lemma starts_with_unit c s :
  starts_with [c] s = match s with x :: _ => (c =? x)%N | [] => false end.
Proof. destruct s; simpl; [done | by rewrite andb_true_r]. Qed.

(** What the left-to-right scan returns for a one-unit pattern. *)
Lemma lastIndexOf_from_unit c s i found :
  (lastIndexOf_from [c] s i found = found ∧ c ∉ s)
  ∨ (∃ k : nat,
        lastIndexOf_from [c] s i found = i + Z.of_nat k
        ∧ s !! k = Some c
        ∧ ∀ j : nat, (k < j)%nat → s !! j ≠ Some c).
Proof.
  revert i found. induction s as [| x s IH]; intros i found.
  - left. split; [done | apply not_elem_of_nil].
  - cbn [lastIndexOf_from]. rewrite starts_with_unit.
    destruct (N.eqb_spec c x) as [-> | Hne].
    + destruct (IH (i + 1) i) as [[Heq Hnot] | (k & Heq & Hk & Hlast)].
      * right. exists 0%nat. rewrite Heq. split; [lia |]. split; [done |].
        intros [| j] Hj; [lia |]. simpl. intros Hs.
        apply Hnot. by eapply list_elem_of_lookup_2.
      * right. exists (S k). rewrite Heq. split; [lia |]. split; [done |].
        intros [| j] Hj; [lia |]. simpl. apply Hlast. lia.
    + destruct (IH (i + 1) found) as [[Heq Hnot] | (k & Heq & Hk & Hlast)].
      * left. split; [done |]. rewrite not_elem_of_cons. done.
      * right. exists (S k). rewrite Heq. split; [lia |]. split; [done |].
        intros [| j] Hj; [lia |]. simpl. apply Hlast. lia.
Qed.

Lemma lastIndexOf_unit c s :
  (lastIndexOf s [c] = -1 ∧ c ∉ s)
  ∨ (∃ k : nat,
        lastIndexOf s [c] = Z.of_nat k
        ∧ s !! k = Some c
        ∧ ∀ j : nat, (k < j)%nat → s !! j ≠ Some c).
Proof.
  unfold lastIndexOf.
  destruct (lastIndexOf_from_unit c s 0 (-1)) as [H | (k & H1 & H2)]; [by left |].
  right. exists k. by rewrite H1.
Qed.

Lemma lastIndexOf_unit_bounds c s :
  -1 <= lastIndexOf s [c] < str_length s.
Proof.
  unfold str_length.
  destruct (lastIndexOf_unit c s) as [[-> _] | (k & -> & Hk & _)]; [lia |].
  apply lookup_lt_Some in Hk. lia.
Qed.

Lemma lastIndexOf_unit_absent c s : c ∉ s → lastIndexOf s [c] = -1.
Proof.
  intros Hnot.
  destruct (lastIndexOf_unit c s) as [[-> _] | (k & _ & Hk & _)]; [done |].
  exfalso. apply Hnot. by eapply list_elem_of_lookup_2.
Qed.

Lemma lastIndexOf_unit_ge c s (i : nat) :
  s !! i = Some c → Z.of_nat i <= lastIndexOf s [c].
Proof.
  intros Hi.
  destruct (lastIndexOf_unit c s) as [[_ Hnot] | (k & -> & _ & Hlast)].
  - exfalso. apply Hnot. by eapply list_elem_of_lookup_2.
  - destruct (decide (k < i)%nat) as [Hlt | Hge]; [| lia].
    by destruct (Hlast i Hlt).
Qed.

End StringFacts.

(** ** The binary64 threshold *)

Section ThresholdFacts.
Local Open Scope Z_scope.

Lemma round53_nonneg m : 0 <= m → 0 <= round53 m.
Proof.
  intros Hm. unfold round53.
  destruct (Z.log2 m - 52 <=? 0); [done |].
  apply Z.shiftl_nonneg.
  assert (0 <= Z.shiftr m (Z.log2 m - 52)) by by apply Z.shiftr_nonneg.
  destruct (_ || _); lia.
Qed.

Lemma times_0_7_nonneg n : 0 <= n → 0 <= times_0_7 n.
Proof.
  intros Hn. unfold times_0_7.
  assert (0 <= round53 (Z.abs n * double_0_7))
    by (apply round53_nonneg; unfold double_0_7; lia).
  assert (0 <= Z.sgn n) by lia. lia.
Qed.

Lemma gt_times_0_7_mono i j n :
  i <= j → gt_times_0_7 i n = true → gt_times_0_7 j n = true.
Proof. unfold gt_times_0_7. rewrite !Z.ltb_lt. lia. Qed.

Lemma gt_times_0_7_minus_1 n : 0 <= n → gt_times_0_7 (-1) n = false.
Proof.
  intros Hn. unfold gt_times_0_7. apply Z.ltb_ge.
  pose proof (times_0_7_nonneg n Hn). lia.
Qed.

(** Rounding to nearest adds at most half a unit in the last place. *)
Lemma round53_upper m : 0 < m → round53 m * 2 ^ 53 <= m * (2 ^ 53 + 1).
Proof.
  intros Hm. unfold round53.
  destruct (Z.leb_spec (Z.log2 m - 52) 0) as [Hs | Hs]; [nia |].
  set (s := Z.log2 m - 52) in *.
  rewrite !Z.shiftl_mul_pow2, Z.shiftr_div_pow2 by lia.
  rewrite Z.mul_1_l.
  assert (Hpow : 2 ^ s = 2 * 2 ^ (s - 1)).
  { rewrite <- Z.pow_succ_r by lia. f_equal. lia. }
  assert (Hhalf : 0 < 2 ^ (s - 1)) by (apply Z.pow_pos_nonneg; lia).
  pose proof (Z.div_mod m (2 ^ s) ltac:(lia)) as Hdiv.
  pose proof (Z.mod_pos_bound m (2 ^ s) ltac:(lia)) as Hmod.
  set (q := m / 2 ^ s) in *. set (r := m mod 2 ^ s) in *.
  replace (m - q * 2 ^ s) with r by lia.
  assert (Hlog : 2 ^ (s - 1) * 2 ^ 53 <= m).
  { rewrite <- Z.pow_add_r by lia. replace (s - 1 + 53) with (Z.log2 m) by lia.
    apply Z.log2_spec. lia. }
  destruct (_ || _) eqn:Hup.
  - assert (2 ^ (s - 1) <= r).
    { apply orb_true_iff in Hup as [H | H].
      - apply Z.ltb_lt in H. lia.
      - apply andb_true_iff in H as [H _]. apply Z.eqb_eq in H. lia. }
    nia.
  - nia.
Qed.

(** An index above 70% of the limit in exact arithmetic passes the
    binary64 test, for every limit a string length can exceed. *)
Lemma gt_times_0_7_exact i n :
  0 <= n < 2 ^ 50 → 7 * n < 10 * i → gt_times_0_7 i n = true.
Proof.
  intros Hn Hpast. unfold gt_times_0_7, times_0_7. apply Z.ltb_lt.
  destruct (Z.eq_dec n 0) as [-> | Hnz]; [simpl; lia |].
  rewrite Z.sgn_pos, Z.abs_eq, Z.mul_1_l by lia.
  pose proof (round53_upper (n * double_0_7) ltac:(unfold double_0_7; lia)) as Hup.
  unfold double_0_7 in *.
  change (2 ^ 53) with 9007199254740992 in *.
  change (2 ^ 50) with 1125899906842624 in *.
  nia.
Qed.

(** At the reference limit the product is exact: the test is [i > 1750]. *)
Lemma gt_times_0_7_reference i :
  gt_times_0_7 i defaultMaxLength = (1750 <? i).
Proof.
  unfold gt_times_0_7.
  change (times_0_7 defaultMaxLength) with (1750 * 2 ^ 53).
  destruct (Z.ltb_spec 1750 i); [apply Z.ltb_lt | apply Z.ltb_ge]; lia.
Qed.

(** Where the rounding shows: 63 is not above 70% of 90, yet the test
    accepts it, since [90 * 0.7] is 62.99999999999999 in binary64. *)
Example gt_times_0_7_at_90 : gt_times_0_7 63 90 = true ∧ 10 * 63 = 7 * 90.
Proof. split; reflexivity. Qed.

End ThresholdFacts.

(** ** Truncation *)

Section Truncation.
Local Open Scope Z_scope.
Implicit Types (text t : jsstr) (limit : Z).

Lemma last_sentence_end_bounds t : -1 <= last_sentence_end t < str_length t.
Proof.
  unfold last_sentence_end.
  pose proof (lastIndexOf_unit_bounds 46 t).
  pose proof (lastIndexOf_unit_bounds 33 t).
  pose proof (lastIndexOf_unit_bounds 63 t).
  change (js ".") with [46%N]. change (js "!") with [33%N].
  change (js "?") with [63%N]. lia.
Qed.

Lemma last_sentence_end_ge t (i : nat) c :
  t !! i = Some c → is_sentence_terminator c →
  Z.of_nat i <= last_sentence_end t.
Proof.
  intros Hi Hc. unfold last_sentence_end.
  change (js ".") with [46%N]. change (js "!") with [33%N].
  change (js "?") with [63%N].
  destruct Hc as [-> | [-> | ->]];
    pose proof (lastIndexOf_unit_ge _ _ _ Hi); lia.
Qed.

Lemma last_sentence_end_hit t :
  last_sentence_end t = -1
  ∨ ∃ (k : nat) c, last_sentence_end t = Z.of_nat k
                   ∧ t !! k = Some c ∧ is_sentence_terminator c.
Proof.
  unfold last_sentence_end.
  change (js ".") with [46%N]. change (js "!") with [33%N].
  change (js "?") with [63%N].
  destruct (lastIndexOf_unit 46 t) as [[E1 _] | (k1 & E1 & H1 & _)];
  destruct (lastIndexOf_unit 33 t) as [[E2 _] | (k2 & E2 & H2 & _)];
  destruct (lastIndexOf_unit 63 t) as [[E3 _] | (k3 & E3 & H3 & _)];
  rewrite E1, E2, E3.
  1: by left.
  all: right.
  all: repeat match goal with
       | |- context [Z.max ?a ?b] =>
           destruct (Z.max_spec a b) as [[? ->] | [? ->]]
       end.
  all: first
    [ exists k1, 46%N; split; [lia | split; [done | by left]]
    | exists k2, 33%N; split; [lia | split; [done | by right; left]]
    | exists k3, 63%N; split; [lia | split; [done | by right; right]]
    | exfalso; lia ].
Qed.

Lemma truncate_unfold text limit :
  truncateTextForPolly text limit =
    if str_length text <=? limit then text
    else
      let truncated := take (Z.to_nat limit) text in
      if gt_times_0_7 (last_sentence_end truncated) limit then
        take (Z.to_nat (last_sentence_end truncated + 1)) truncated
      else if 0 <? lastIndexOf truncated [32%N] then
        take (Z.to_nat (lastIndexOf truncated [32%N])) truncated ++ ellipsis
      else truncated ++ ellipsis.
Proof.
  unfold truncateTextForPolly. by rewrite !substring_from_0.
Qed.

End Truncation.

Section TruncationClaims.
Local Open Scope Z_scope.
Implicit Types (text : jsstr) (limit : Z).

(** C8. For every string shorter than the limit, truncateTextForPolly is
    the identity: it returns its input unchanged. *)
Theorem truncate_identity_below_limit text limit :
  str_length text < limit → truncateTextForPolly text limit = text.
Proof.
  intros Hlt. unfold truncateTextForPolly.
  destruct (Z.leb_spec (str_length text) limit); [done | lia].
Qed.

Lemma truncate_identity_below_limit_witness :
  truncateTextForPolly (js "Hi there.") 20 = js "Hi there.".
Proof. apply (truncate_identity_below_limit (js "Hi there.") 20). reflexivity. Defined.

(** C1, as stated, fails: at the reference limit a text of 2501 letters
    comes back 2503 units long. *)
Lemma truncate_exceeds_limit :
  ¬ (str_length (truncateTextForPolly (replicate 2501 97%N) defaultMaxLength)
     <= defaultMaxLength).
Proof. vm_compute. intros H. by apply H. Qed.

(** C1, amended. For every input string and every max length that is not
    negative, the result of truncateTextForPolly is at most three units
    (the ellipsis marker) longer than the max length. *)
Theorem truncate_length_bound text limit :
  0 <= limit → str_length (truncateTextForPolly text limit) <= limit + 3.
Proof.
  intros Hlimit. rewrite truncate_unfold.
  destruct (Z.leb_spec (str_length text) limit) as [Hle | Hgt]; [lia |].
  cbv zeta. unfold str_length in *.
  repeat match goal with |- context [if ?b then _ else _] => destruct b end;
    rewrite ?length_app, ?length_take; change (length ellipsis) with 3%nat; lia.
Qed.

Lemma truncate_length_bound_witness :
  str_length (truncateTextForPolly (js "abcdefghijklmnop") 10) <= 10 + 3.
Proof. apply (truncate_length_bound (js "abcdefghijklmnop") 10). lia. Defined.

(** C6. For every string longer than the limit that has a sentence
    terminator past the 70% mark of the limit window (index > limit * 0.7,
    as the code computes it), truncateTextForPolly returns the prefix of the
    input that ends exactly at the last terminator of the window, terminator
    included, and the result is no longer than the limit. *)
Theorem truncate_at_sentence_end text limit (i : nat) c :
  limit < str_length text →
  Z.of_nat i < limit →
  text !! i = Some c →
  is_sentence_terminator c →
  gt_times_0_7 (Z.of_nat i) limit = true →
  ∃ k : nat,
    (i ≤ k)%nat ∧ Z.of_nat k < limit
    ∧ (∃ c', text !! k = Some c' ∧ is_sentence_terminator c')
    ∧ (∀ (j : nat) c', (k < j)%nat → Z.of_nat j < limit →
                       text !! j = Some c' → ¬ is_sentence_terminator c')
    ∧ truncateTextForPolly text limit = take (S k) text
    ∧ str_length (truncateTextForPolly text limit) <= limit.
Proof.
  intros Hlong Hi Hc Hterm Hpast.
  rewrite truncate_unfold.
  destruct (Z.leb_spec (str_length text) limit) as [Hle | _]; [lia |].
  cbv zeta. set (truncated := take (Z.to_nat limit) text).
  assert (Hwin : ∀ j : nat, Z.of_nat j < limit → truncated !! j = text !! j).
  { intros j Hj. unfold truncated. apply lookup_take_lt. lia. }
  assert (Hi' : truncated !! i = Some c) by by rewrite Hwin.
  pose proof (last_sentence_end_ge _ _ _ Hi' Hterm) as Hge.
  rewrite (gt_times_0_7_mono _ _ _ Hge Hpast).
  pose proof (last_sentence_end_bounds truncated) as Hb.
  assert (Hlen : str_length truncated = limit).
  { unfold truncated, str_length in *. rewrite length_take. lia. }
  destruct (last_sentence_end_hit truncated) as [E | (k & c' & E & Hk & Hc')];
    [lia |].
  rewrite E in *. exists k.
  assert (Htake : take (Z.to_nat (Z.of_nat k + 1)) truncated = take (S k) text).
  { unfold truncated. rewrite take_take. f_equal. lia. }
  rewrite Htake. split; [lia |]. split; [lia |]. split.
  { exists c'. by rewrite <- Hwin by lia. }
  split.
  { intros j c'' Hkj Hj Hjc Hterm'. rewrite <- Hwin in Hjc by done.
    pose proof (last_sentence_end_ge _ _ _ Hjc Hterm'). lia. }
  split; [done |].
  unfold str_length in *. rewrite length_take. lia.
Qed.

Lemma truncate_at_sentence_end_witness :
  ∃ k : nat,
    (7 ≤ k)%nat ∧ Z.of_nat k < 9
    ∧ (∃ c', js "One two. Three four" !! k = Some c' ∧ is_sentence_terminator c')
    ∧ (∀ (j : nat) c', (k < j)%nat → Z.of_nat j < 9 →
                       js "One two. Three four" !! j = Some c' →
                       ¬ is_sentence_terminator c')
    ∧ truncateTextForPolly (js "One two. Three four") 9
      = take (S k) (js "One two. Three four")
    ∧ str_length (truncateTextForPolly (js "One two. Three four") 9) <= 9.
Proof.
  apply (truncate_at_sentence_end (js "One two. Three four") 9 7 46%N).
  - reflexivity.
  - reflexivity.
  - reflexivity.
  - left. reflexivity.
  - reflexivity.
Defined.

(** C7, as stated, fails: at limit 90 a text without white space whose only
    sentence terminator is at index 63, exactly at the 70% mark and not past
    it, is not cut hard: the test 63 > 90 * 0.7 holds in binary64, where the
    product is 62.99999999999999, so the text is cut after the terminator
    and the result has 64 units and no ellipsis marker. *)
Lemma terminator_at_the_mark_is_taken :
  let text := replicate 63 97%N ++ js "." ++ replicate 40 98%N in
  90 < str_length text
  ∧ (∀ c, c ∈ text → is_white_space c = false)
  ∧ (∀ (i : nat) c, text !! i = Some c → is_sentence_terminator c →
                    ¬ 7 * 90 < 10 * Z.of_nat i)
  ∧ truncateTextForPolly text 90 = replicate 63 97%N ++ js "."
  ∧ truncateTextForPolly text 90 ≠ take 90 text ++ js "...".
Proof.
  intros text. split; [reflexivity |].
  assert (Hunits : ∀ (i : nat) c, text !! i = Some c →
            (i < 63)%nat ∧ c = 97%N ∨ i = 63%nat ∧ c = 46%N ∨ c = 98%N).
  { intros i c. unfold text. rewrite lookup_app_Some, lookup_replicate.
    intros [[-> Hi] | [Hle Hc]]; [by left |].
    rewrite length_replicate in Hle, Hc. right.
    change (js ".") with [46%N] in Hc.
    destruct (i - 63)%nat as [| k] eqn:Hk.
    - left. injection Hc as <-. split; [lia | done].
    - right. change ([46%N] ++ replicate 40 98%N) with (46%N :: replicate 40 98%N) in Hc.
      rewrite lookup_cons in Hc. by apply lookup_replicate in Hc as [-> _]. }
  split.
  { intros c [i Hi]%list_elem_of_lookup.
    by destruct (Hunits i c Hi) as [[_ ->] | [[_ ->] | ->]]. }
  split.
  { intros i c Hi Hc.
    destruct (Hunits i c Hi) as [[_ ->] | [[-> _] | ->]]; [| lia |];
      by destruct Hc as [? | [? | ?]]. }
  split; [reflexivity |].
  intros H. apply (f_equal length) in H. vm_compute in H. discriminate H.
Qed.

(** C7, amended. For every string longer than the limit (a limit that is
    not negative) that has no white space at all and no sentence terminator
    at an index that passes the test of the code, index > maxLength * 0.7
    evaluated in binary64, truncateTextForPolly returns exactly the first
    [limit] units of the input followed by the ellipsis marker.  Every index
    past the 70% mark passes that test (for limits below 2^50); the index at
    the mark itself passes it for some limits, such as 63 for 90, and not
    for others, such as 1750 for 2500. *)
Theorem truncate_hard_cut text limit :
  0 <= limit →
  limit < str_length text →
  (∀ c, c ∈ text → is_white_space c = false) →
  (∀ (i : nat) c, Z.of_nat i < limit → text !! i = Some c →
                  is_sentence_terminator c →
                  gt_times_0_7 (Z.of_nat i) limit = false) →
  truncateTextForPolly text limit = take (Z.to_nat limit) text ++ js "..."
  ∧ str_length (take (Z.to_nat limit) text) = limit.
Proof.
  intros Hlimit Hlong Hnows Hnoterm.
  rewrite truncate_unfold.
  destruct (Z.leb_spec (str_length text) limit) as [Hle | _]; [lia |].
  cbv zeta. set (truncated := take (Z.to_nat limit) text).
  assert (Hlen : str_length truncated = limit).
  { unfold truncated, str_length in *. rewrite length_take. lia. }
  assert (Hsentence : gt_times_0_7 (last_sentence_end truncated) limit = false).
  { destruct (last_sentence_end_hit truncated) as [-> | (k & c & -> & Hk & Hc)].
    - by apply gt_times_0_7_minus_1.
    - assert (Hklt : Z.of_nat k < limit).
      { apply lookup_lt_Some in Hk. unfold str_length in Hlen. lia. }
      apply (Hnoterm k c); [done | | done].
      unfold truncated in Hk. by rewrite lookup_take_lt in Hk by lia. }
  rewrite Hsentence.
  assert (Hspace : lastIndexOf truncated [32%N] = -1).
  { apply lastIndexOf_unit_absent. intros Hin.
    assert (Hin' : 32%N ∈ text).
    { unfold truncated in Hin. apply list_elem_of_lookup in Hin as [j Hj].
      apply lookup_take_Some in Hj as [Hj _]. by eapply list_elem_of_lookup_2. }
    by specialize (Hnows _ Hin'). }
  rewrite Hspace. done.
Qed.

Lemma truncate_hard_cut_witness :
  truncateTextForPolly (js "abcdefghijklmnop") 10
  = take (Z.to_nat 10) (js "abcdefghijklmnop") ++ js "..."
  ∧ str_length (take (Z.to_nat 10) (js "abcdefghijklmnop")) = 10.
Proof.
  apply (truncate_hard_cut (js "abcdefghijklmnop") 10).
  - lia.
  - reflexivity.
  - intros c Hc. vm_compute in Hc.
    repeat (apply elem_of_cons in Hc as [-> | Hc]; [reflexivity |]).
    by apply elem_of_nil in Hc.
  - intros i c Hi Hic [-> | [-> | ->]]; exfalso;
      (do 10 (destruct i as [| i]; [discriminate Hic |])); lia.
Defined.

End TruncationClaims.

(** ** Runs and the requests they send *)

Lemma new_calls_app (w w' : World) new :
  calls w' = calls w ++ new → new_calls w w' = new.
Proof. intros E. unfold new_calls. by rewrite E, drop_app_length. Qed.

Lemma new_calls_same (w : World) : new_calls w w = [].
Proof. apply new_calls_app. by rewrite app_nil_r. Qed.

(** Unfold the plumbing of a run in a hypothesis. *)
Ltac run_in H :=
  cbv beta iota zeta delta
    [throw throw_TypeError ret bind try_catch mbind promise_bind mret promise_ret
     ask send now sleep tick log negb] in H;
  cbn [instant aud_op calls] in H.

Ltac run :=
  cbv beta iota zeta delta
    [throw throw_TypeError ret bind try_catch mbind promise_bind mret promise_ret
     ask send now sleep tick log negb];
  cbn [instant aud_op calls].

Create HintDb logs discriminated.

Section Logs.
Context {A B : Type} (P : Call → Prop).

Lemma logs_ret (a : A) : logs P (ret a).
Proof. intros env w. exists []. by rewrite app_nil_r. Qed.

Lemma logs_throw message : logs P (@throw A message).
Proof. intros env w. exists []. by rewrite app_nil_r. Qed.

Lemma logs_throw_TypeError kind : logs P (@throw_TypeError A kind).
Proof. intros env w. exists []. by rewrite app_nil_r. Qed.

Lemma logs_bind (m : M A) (k : A → M B) :
  logs P m → (∀ a, logs P (k a)) → logs P (bind m k).
Proof.
  intros Hm Hk env w. unfold bind.
  destruct (Hm env w) as (new1 & E1 & F1).
  destruct (m env w) as [[a | message |] w1]; simpl in *; [| by eauto ..].
  destruct (Hk a env w1) as (new2 & E2 & F2).
  exists (new1 ++ new2). rewrite E2, E1, app_assoc.
  split; [done | by apply Forall_app].
Qed.

Lemma logs_try_catch (m : M A) (handler : jsstr → M A) :
  logs P m → (∀ message, logs P (handler message)) → logs P (try_catch m handler).
Proof.
  intros Hm Hh env w. unfold try_catch.
  destruct (Hm env w) as (new1 & E1 & F1).
  destruct (m env w) as [[a | message |] w1]; simpl in *; [by eauto | | by eauto].
  destruct (Hh message env w1) as (new2 & E2 & F2).
  exists (new1 ++ new2). rewrite E2, E1, app_assoc.
  split; [done | by apply Forall_app].
Qed.

Lemma logs_send (answer : Env → nat → Reply A) (record : Reply A → Call) :
  (∀ reply, P (record reply)) → logs P (send answer record).
Proof.
  intros HP env w. exists [record (answer env (instant w))].
  unfold send. split; [by destruct (answer env (instant w)) | by constructor].
Qed.

End Logs.

Section LogsMore.
Context (P : Call → Prop).

Lemma logs_forEach {A} (l : list A) (f : A → M unit) :
  (∀ x, logs P (f x)) → logs P (forEach l f).
Proof.
  intros Hf. induction l as [| x l IH]; simpl.
  - apply logs_ret.
  - apply logs_bind; [apply Hf | done].
Qed.

Lemma logs_mapM {A B} (f : A → M B) (l : list A) :
  (∀ x, logs P (f x)) → logs P (mapM f l).
Proof.
  intros Hf. induction l as [| x l IH]; simpl.
  - apply logs_ret.
  - apply logs_bind; [apply Hf |]. intros y.
    apply logs_bind; [done |]. intros ys. apply logs_ret.
Qed.

Lemma logs_ask : logs P ask.
Proof. intros env w. exists []. by rewrite app_nil_r. Qed.

Lemma logs_now : logs P now.
Proof. intros env w. exists []. by rewrite app_nil_r. Qed.

Lemma logs_sleep ms : logs P (sleep ms).
Proof. intros env w. exists []. by rewrite app_nil_r. Qed.

Lemma logs_readdirSync : logs P readdirSync.
Proof.
  intros env w. exists []. unfold readdirSync.
  destruct (fs_readdir_error env _); by rewrite app_nil_r.
Qed.

Lemma logs_unlinkSync file : logs P (unlinkSync file).
Proof.
  intros env w. exists []. unfold unlinkSync.
  destruct (aud_op w !! file); [| by rewrite app_nil_r].
  destruct (fs_unlink_error env _ _); by rewrite app_nil_r.
Qed.

Lemma logs_writeFileSync file data : logs P (writeFileSync file data).
Proof.
  intros env w. exists []. unfold writeFileSync.
  destruct (fs_write_error env _ _); by rewrite app_nil_r.
Qed.

Lemma logs_read v name : logs P (read v name).
Proof.
  unfold read. destruct (member v name);
    [apply logs_ret | apply logs_throw_TypeError].
Qed.

Lemma logs_read_path v names : logs P (read_path v names).
Proof.
  revert v. induction names as [| name names IH]; intros v; simpl.
  - apply logs_ret.
  - apply logs_bind; [apply logs_read | done].
Qed.

Lemma logs_and_also a b : logs P a → logs P b → logs P (and_also a b).
Proof.
  intros Ha Hb. apply logs_bind; [done |].
  intros x. destruct (truthy x); [done | apply logs_ret].
Qed.

Lemma logs_call_trim v : logs P (call_trim v).
Proof.
  destruct v; simpl;
    first [apply logs_ret | apply logs_throw_TypeError].
Qed.

Lemma logs_call_map v f : (∀ x, logs P (f x)) → logs P (call_map v f).
Proof.
  intros Hf. destruct v; simpl;
    first [by apply logs_mapM | apply logs_throw_TypeError].
Qed.

Lemma logs_pending {A} : logs P (λ (_ : Env) (w : World), (@Pending A, w)).
Proof. intros env w. exists []. by rewrite app_nil_r. Qed.

End LogsMore.

Lemma logs_weaken {A} (P Q : Call → Prop) (m : M A) :
  (∀ c, P c → Q c) → logs P m → logs Q m.
Proof.
  intros HPQ Hm env w. destruct (Hm env w) as (new & E & F).
  exists new. split; [done |]. eapply Forall_impl; eauto.
Qed.

#[local] Hint Resolve logs_ret logs_throw logs_throw_TypeError logs_ask logs_now
  logs_sleep logs_readdirSync logs_unlinkSync logs_writeFileSync logs_read
  logs_read_path logs_call_trim logs_pending : logs.
#[local] Hint Extern 1 (logs _ (bind _ _)) => apply logs_bind; [| intros ?] : logs.
#[local] Hint Extern 1 (logs _ (mbind _ _)) => apply logs_bind; [| intros ?] : logs.
#[local] Hint Extern 1 (logs _ (mret _)) => apply logs_ret : logs.
#[local] Hint Extern 1 (logs _ (try_catch _ _)) =>
  apply logs_try_catch; [| intros ?] : logs.
#[local] Hint Extern 1 (logs _ (and_also _ _)) => apply logs_and_also : logs.
#[local] Hint Extern 1 (logs _ (forEach _ _)) => apply logs_forEach; intros ? : logs.
#[local] Hint Extern 1 (logs _ (call_map _ _)) => apply logs_call_map; intros ? : logs.
#[local] Hint Extern 1 (logs _ (send _ _)) => apply logs_send; intros ? : logs.
#[local] Hint Extern 2 (logs _ (if ?b then _ else _)) => destruct b : logs.
#[local] Hint Extern 2 (logs _ (match ?x with _ => _ end)) => destruct x : logs.
#[local] Hint Extern 1 (is_quiet _) => by repeat split; intros [] : logs.
#[local] Hint Extern 1 (is_not_failed_poll _) => by intros [] : logs.

(** ** pol.js: the local directory and the storage copy *)

Section PolFacts.
Implicit Types (w : World) (env : Env) (files : gmap jsstr (list byte)).

Lemma mp3_cleared_lookup files file :
  mp3_cleared files !! file =
    if endsWith file (js ".mp3") then None else files !! file.
Proof.
  unfold mp3_cleared. destruct (files !! file) as [data |] eqn:E.
  - destruct (endsWith file (js ".mp3")) eqn:Hmp3.
    + apply map_lookup_filter_None. right. intros x Hx. simpl. congruence.
    + apply map_lookup_filter_Some. by split.
  - assert (filter (λ entry : jsstr * list byte,
                      endsWith entry.1 (js ".mp3") = false) files !! file = None)
      as -> by (apply map_lookup_filter_None; by left).
    by destruct (endsWith _ _).
Qed.

(** Unlinking the [.mp3] names of a list of present, distinct names: the
    loop stops at the first unlink that throws; it changes nothing but the
    [.mp3] names of the list, which it can only remove; and when no unlink
    throws it removes them all. *)
Lemma forEach_unlink (l : list jsstr) env w :
  NoDup l →
  (∀ file, file ∈ l → is_Some (aud_op w !! file)) →
  ∃ o files,
    forEach l (λ file, if endsWith file (js ".mp3") then unlinkSync file else ret tt)
            env w
    = (o, with_files w files)
    ∧ o ≠ Pending
    ∧ (∀ file, files !! file = aud_op w !! file
               ∨ files !! file = None ∧ file ∈ l ∧ endsWith file (js ".mp3") = true)
    ∧ ((∀ file, file ∈ l → endsWith file (js ".mp3") = true →
                fs_unlink_error env (instant w) (path_join (audioOutputDir env) file)
                = None) →
       ∀ file, files !! file =
                 if bool_decide (file ∈ l) && endsWith file (js ".mp3") then None
                 else aud_op w !! file).
Proof.
  revert w. induction l as [| x l IH]; intros w Hnodup Hpresent.
  - exists (Returned tt), (aud_op w). split; [by destruct w |].
    split; [done |]. split; [by left | done].
  - apply NoDup_cons in Hnodup as [Hx Hnodup].
    cbn [forEach]. unfold bind at 1.
    destruct (endsWith x (js ".mp3")) eqn:Hmp3.
    + unfold unlinkSync at 1.
      destruct (Hpresent x) as [data Hdata]; [by left |]. rewrite Hdata.
      destruct (fs_unlink_error env (instant w) _) as [message |] eqn:Hunlink.
      { exists (Thrown message), (aud_op w). split; [by destruct w |].
        split; [done |]. split; [by left |].
        intros Hall. rewrite Hall in Hunlink; [done | by left | done]. }
      set (w1 := {| instant := instant w; aud_op := delete x (aud_op w);
                    calls := calls w |}).
      destruct (IH w1 Hnodup) as (o & files & Hrun & Ho & Honly & Hall).
      { intros file Hfile. simpl. rewrite lookup_delete_ne by set_solver.
        apply Hpresent. by right. }
      exists o, files. split; [by rewrite Hrun |]. split; [done |]. split.
      * intros file. destruct (Honly file) as [Hsame | (Hnone & Hin & Hfile)].
        -- cbn [aud_op w1] in Hsame. destruct (decide (file = x)) as [-> | Hne].
           ++ right. rewrite Hsame, lookup_delete_eq. split; [done |].
              split; [by left | done].
           ++ left. by rewrite Hsame, lookup_delete_ne.
        -- right. split; [done |]. split; [by right | done].
      * intros Hsucceed file. rewrite Hall.
        2: { intros f Hf. apply Hsucceed. by right. }
        simpl. destruct (decide (file = x)) as [-> | Hne].
        -- rewrite lookup_delete_eq, Hmp3.
           rewrite (bool_decide_eq_true_2 (x ∈ x :: l)) by by left.
           by destruct (bool_decide _).
        -- rewrite lookup_delete_ne by done.
           assert (file ∈ l ↔ file ∈ x :: l) as Hiff
             by (rewrite elem_of_cons; split; [by right | by intros [? | ?]]).
           by rewrite (bool_decide_ext _ _ Hiff).
    + unfold ret at 1.
      destruct (IH w Hnodup) as (o & files & Hrun & Ho & Honly & Hall).
      { intros file Hfile. apply Hpresent. by right. }
      exists o, files. split; [done |]. split; [done |]. split.
      * intros file. destruct (Honly file) as [Hsame | (Hnone & Hin & Hfile)];
          [by left | right]. split; [done |]. split; [by right | done].
      * intros Hsucceed file. rewrite Hall.
        2: { intros f Hf. apply Hsucceed. by right. }
        destruct (decide (file = x)) as [-> | Hne].
        -- rewrite Hmp3, !andb_false_r. done.
        -- assert (file ∈ l ↔ file ∈ x :: l) as Hiff
             by (rewrite elem_of_cons; split; [by right | by intros [? | ?]]).
           by rewrite (bool_decide_ext _ _ Hiff).
Qed.

(** [clearPreviousAudio] always completes, whatever the file system
    answers; it removes [.mp3] entries only and changes no entry; when the
    clearing meets no error it removes every [.mp3] entry. *)
Lemma clearPreviousAudio_run env w :
  clearPreviousAudio env w = (Returned tt, with_files w (cleared env w))
  ∧ (∀ file, cleared env w !! file = aud_op w !! file
             ∨ cleared env w !! file = None ∧ endsWith file (js ".mp3") = true)
  ∧ (clearing_succeeds env w → cleared env w = mp3_cleared (aud_op w)).
Proof.
  unfold cleared, clearPreviousAudio, try_catch, mbind, promise_bind, bind.
  unfold readdirSync.
  destruct (fs_readdir_error env (instant w)) as [message |] eqn:Hreaddir.
  { unfold ret. cbn. split; [by destruct w |]. split; [by left |].
    intros [? _]. congruence. }
  set (l := merge_sort (listed_before env (instant w)) (map_to_list (aud_op w)).*1).
  assert (Hl : l ≡ₚ (map_to_list (aud_op w)).*1) by apply merge_sort_Permutation.
  assert (Hin : ∀ file, file ∈ l ↔ is_Some (aud_op w !! file)).
  { intros file. rewrite Hl, list_elem_of_fmap. split.
    - intros ([k v] & -> & Hkv). apply elem_of_map_to_list in Hkv. by exists v.
    - intros [v Hv]. exists (file, v). split; [done |]. by apply elem_of_map_to_list. }
  destruct (forEach_unlink l env w) as (o & files & Hrun & Ho & Honly & Hall).
  { rewrite Hl. apply NoDup_fst_map_to_list. }
  { intros file. apply Hin. }
  rewrite Hrun.
  split; [| split].
  - destruct o as [[] | |]; done.
  - intros file.
    destruct o as [[] | |]; cbn; (destruct (Honly file) as [? | (? & _ & ?)]; auto).
  - intros [_ Hunlinks].
    assert (files = mp3_cleared (aud_op w)) as <-; [| by destruct o as [[] | |]].
    apply map_eq. intros file. rewrite Hall, mp3_cleared_lookup.
    2: { intros f Hf Hmp3. apply Hunlinks; [by apply Hin | done]. }
    destruct (endsWith file (js ".mp3")); [| by rewrite andb_false_r].
    rewrite andb_true_r. case_bool_decide as Hfile; [done |].
    destruct (aud_op w !! file) as [data |] eqn:E; [| done].
    exfalso. apply Hfile, Hin. by exists data.
Qed.

Lemma cleared_lookup env w file :
  cleared env w !! file = aud_op w !! file
  ∨ cleared env w !! file = None ∧ endsWith file (js ".mp3") = true.
Proof. apply clearPreviousAudio_run. Qed.

Lemma cleared_keeps env w file :
  endsWith file (js ".mp3") = false → cleared env w !! file = aud_op w !! file.
Proof. intros Hmp3. destruct (cleared_lookup env w file) as [? | [_ ?]]; congruence. Qed.

Lemma cleared_all env w file :
  clearing_succeeds env w →
  cleared env w !! file = if endsWith file (js ".mp3") then None else aud_op w !! file.
Proof.
  intros Hok. destruct (clearPreviousAudio_run env w) as (_ & _ & Hall).
  rewrite (Hall Hok). apply mp3_cleared_lookup.
Qed.

(** What a call of [synthesizeSpeech] does, answer by answer. *)
Lemma synthesizeSpeech_run textInput options env w :
  let file := default default_outputFileName (outputFileName options) in
  let bucket := default default_bucketName (bucketName options) in
  let params := speech_params textInput options in
  let reply := polly_synthesize env (instant w) params in
  let w1 := tick (log (SynthesizeSpeech params reply) (with_files w (cleared env w))) in
  synthesizeSpeech textInput options env w =
    match reply with
    | Raised message => (Returned (SpeechFailure message), w1)
    | Responded chunks =>
        let audio := concat chunks in
        match fs_write_error env (instant w1) (path_join (audioOutputDir env) file) with
        | Some message => (Returned (SpeechFailure message), w1)
        | None =>
            let w2 := with_files w1 (<[file := audio]> (aud_op w1)) in
            let timestamp := Date_now env (instant w2) in
            let upload := upload_params options timestamp audio in
            let stored := s3_put env (S (instant w2)) upload in
            let w3 := tick (log (PutObject upload stored) (tick w2)) in
            match stored with
            | Raised message => (Returned (SpeechFailure message), w3)
            | Responded _ =>
                (Returned
                   (SpeechSuccess file
                      (path_join (audioOutputDir env) file)
                      (js "public/aud_op/" ++ file)
                      (s3_key timestamp)
                      bucket
                      (js "s3://" ++ bucket ++ js "/" ++ s3_key timestamp)
                      (js "Speech synthesized, saved locally to aud_op folder AND uploaded to S3 successfully")),
                 w3)
            end
        end
    end.
Proof.
  intros file bucket params reply w1.
  subst file bucket params reply w1.
  unfold synthesizeSpeech, speech_params, upload_params.
  unfold try_catch, mbind, promise_bind, bind.
  destruct (clearPreviousAudio_run env w) as [-> _].
  cbv beta iota zeta delta
    [send ask writeFileSync now mret promise_ret ret tick log with_files
     instant aud_op calls].
  destruct (polly_synthesize env _ _) as [chunks | message]; [| done].
  destruct (fs_write_error env _ _) as [message |]; [done |].
  by destruct (s3_put env _ _) as [[] | message].
Qed.

End PolFacts.

Section PolClaims.
Implicit Types (w : World) (env : Env).

Lemma js_inj : Inj (=) (=) js.
Proof.
  intros s1 s2 H. unfold js in H.
  assert (Inj (=) (=) N_of_ascii) as Hinj.
  { intros a b Hab. by rewrite <- (ascii_N_embedding a), <- (ascii_N_embedding b), Hab. }
  apply (inj (fmap N_of_ascii)) in H.
  by rewrite <- (string_of_list_ascii_of_string s1),
             <- (string_of_list_ascii_of_string s2), H.
Qed.

Lemma s3_key_inj : Inj (=) (=) s3_key.
Proof.
  intros t1 t2 H. unfold s3_key, number_to_string in H.
  apply app_inv_head, app_inv_tail in H.
  by apply js_inj, (inj pretty) in H.
Qed.

(** After a call that writes under the fixed name and whose clearing met no
    error, whatever the outcome of the call, the only [.mp3] file the
    directory can hold is [current_audio.mp3]. *)
Lemma only_current_audio textInput options env w file :
  outputFileName options = None →
  clearing_succeeds env w →
  endsWith file (js ".mp3") = true →
  is_Some (aud_op (synthesizeSpeech textInput options env w).2 !! file) →
  file = js "current_audio.mp3".
Proof.
  intros Hname Hclear Hmp3. rewrite synthesizeSpeech_run. cbv zeta. rewrite Hname.
  assert (cleared env w !! file = None) as Hgone by by rewrite cleared_all, Hmp3.
  destruct (polly_synthesize env _ _) as [chunks | message].
  - destruct (fs_write_error env _ _) as [message |].
    { cbn. rewrite Hgone. by intros [? ?]. }
    destruct (s3_put env _ _) as [[] | message]; cbn.
    all: destruct (decide (file = js "current_audio.mp3")) as [| Hne]; [done |].
    all: rewrite lookup_insert_ne by done.
    all: rewrite Hgone; by intros [? ?].
  - cbn. rewrite Hgone. by intros [? ?].
Qed.

(** C5, as stated, fails, in two ways.  An older audio file that cannot be
    unlinked stops the clearing (the error is logged and dropped), so it is
    still there after two successful calls, beside current_audio.mp3.  And
    the name is an option of the call: two successful calls told to save as
    a.wav and as b.wav leave both files and no current_audio.mp3. *)
Lemma single_slot_is_not_kept :
  (let env :=
     with_failing_unlink
       (js "/app/public/aud_op/old.mp3")
       (js "EPERM: operation not permitted, unlink '/app/public/aud_op/old.mp3'")
       calm_env in
   let run1 := synthesizeSpeech (js "one") no_options env sample_world in
   let run2 := synthesizeSpeech (js "two") no_options env run1.2 in
   (∃ r1, run1.1 = Returned r1 ∧ succeeded r1)
   ∧ (∃ r2, run2.1 = Returned r2 ∧ succeeded r2)
   ∧ aud_op run2.2 !! js "old.mp3" = Some [x2a]
   ∧ is_Some (aud_op run2.2 !! js "current_audio.mp3"))
  ∧ (let run1 := synthesizeSpeech (js "one") (saved_as "a.wav") calm_env sample_world in
     let run2 := synthesizeSpeech (js "two") (saved_as "b.wav") calm_env run1.2 in
     (∃ r1, run1.1 = Returned r1 ∧ succeeded r1)
     ∧ (∃ r2, run2.1 = Returned r2 ∧ succeeded r2)
     ∧ aud_op run2.2 !! js "current_audio.mp3" = None
     ∧ is_Some (aud_op run2.2 !! js "a.wav")
     ∧ is_Some (aud_op run2.2 !! js "b.wav")).
Proof.
  split; vm_compute; repeat split; try reflexivity; eexists; try split;
    try reflexivity; exact I.
Qed.

(** C5, amended. For two sequential successful calls of synthesizeSpeech
    that write under the fixed name current_audio.mp3, the second of which
    meets no error when it clears the directory: the second call deletes
    every .mp3 file the first left and writes its audio as
    current_audio.mp3, so that afterwards that file holds the bytes of the
    second call only and no other .mp3 file exists; the same holds after the
    first call when its clearing meets no error. *)
Theorem single_slot_after_two_calls text1 text2 options1 options2 env w r1 w1 r2 w2 :
  outputFileName options1 = None →
  outputFileName options2 = None →
  synthesizeSpeech text1 options1 env w = (Returned r1, w1) →
  succeeded r1 →
  synthesizeSpeech text2 options2 env w1 = (Returned r2, w2) →
  succeeded r2 →
  clearing_succeeds env w1 →
  ∃ chunks2,
    polly_synthesize env (instant w1) (speech_params text2 options2)
      = Responded chunks2
    ∧ aud_op w2 = <[js "current_audio.mp3" := concat chunks2]> (mp3_cleared (aud_op w1))
    ∧ aud_op w2 !! js "current_audio.mp3" = Some (concat chunks2)
    ∧ (∀ file, endsWith file (js ".mp3") = true →
               is_Some (aud_op w2 !! file) → file = js "current_audio.mp3")
    ∧ (clearing_succeeds env w →
       ∀ file, endsWith file (js ".mp3") = true →
               is_Some (aud_op w1 !! file) → file = js "current_audio.mp3").
Proof.
  intros Hname1 Hname2 Hrun1 Hok1 Hrun2 Hok2 Hclear2.
  pose proof (only_current_audio text1 options1 env w) as Hone1.
  pose proof (only_current_audio text2 options2 env w1) as Hone2.
  rewrite Hrun1 in Hone1. rewrite Hrun2 in Hone2.
  rewrite synthesizeSpeech_run in Hrun2. cbv zeta in Hrun2. rewrite Hname2 in Hrun2.
  destruct (polly_synthesize env (instant w1) _) as [chunks2 | message] eqn:Hpolly;
    [| by simplify_eq].
  exists chunks2. split; [done |].
  assert (Hfiles : aud_op w2
            = <[js "current_audio.mp3" := concat chunks2]> (mp3_cleared (aud_op w1))).
  { destruct (clearPreviousAudio_run env w1) as (_ & _ & Hall).
    destruct (fs_write_error env _ _) as [message |];
      [simplify_eq; by destruct Hok2 |].
    destruct (s3_put env _ _) as [[] | message]; simplify_eq;
      [| by destruct Hok2].
    cbn. by rewrite (Hall Hclear2). }
  split; [done |]. split; [by rewrite Hfiles, lookup_insert_eq |].
  split; [intros file Hmp3 Hfile; by apply Hone2 |].
  intros Hclear1 file Hmp3 Hfile. by apply Hone1.
Qed.

Lemma single_slot_after_two_calls_witness :
  let env := sample_env running_clock (λ _, job_with_status "COMPLETED")
               (Responded tt) (λ _, Responded tt) (generated_reply "ok") in
  let w1 := (synthesizeSpeech (js "one") no_options env sample_world).2 in
  let w2 := (synthesizeSpeech (js "two") no_options env w1).2 in
  aud_op w2 !! js "current_audio.mp3" = Some [x03]
  ∧ ¬ is_Some (aud_op w2 !! js "old.mp3").
Proof.
  intros env w1 w2.
  destruct (single_slot_after_two_calls (js "one") (js "two") no_options no_options
              env sample_world
              (SpeechSuccess (js "current_audio.mp3")
                 (js "/app/public/aud_op/current_audio.mp3")
                 (js "public/aud_op/current_audio.mp3")
                 (js "polly-output-1700000000001.mp3")
                 (js "mint-out")
                 (js "s3://mint-out/polly-output-1700000000001.mp3")
                 (js "Speech synthesized, saved locally to aud_op folder AND uploaded to S3 successfully"))
              w1
              (SpeechSuccess (js "current_audio.mp3")
                 (js "/app/public/aud_op/current_audio.mp3")
                 (js "public/aud_op/current_audio.mp3")
                 (js "polly-output-1700000000004.mp3")
                 (js "mint-out")
                 (js "s3://mint-out/polly-output-1700000000004.mp3")
                 (js "Speech synthesized, saved locally to aud_op folder AND uploaded to S3 successfully"))
              w2)
    as (chunks2 & Hpolly & _ & Hcurrent & Honly & _).
  - reflexivity.
  - reflexivity.
  - vm_compute. reflexivity.
  - exact I.
  - vm_compute. reflexivity.
  - exact I.
  - split; [reflexivity | intros; reflexivity].
  - assert (chunks2 = [[x03]]) as -> by (vm_compute in Hpolly; congruence).
    split; [exact Hcurrent |].
    intros Hold. apply Honly in Hold; [discriminate Hold | reflexivity].
Defined.

(** C9. When the write to the object store fails, which can only happen
    after the local write, synthesizeSpeech reports that failure and leaves
    the local file in place, holding the bytes just synthesized. *)
Theorem storage_failure_keeps_local_file textInput options env w o w' upload message :
  synthesizeSpeech textInput options env w = (o, w') →
  PutObject upload (Raised message) ∈ new_calls w w' →
  ∃ chunks,
    SynthesizeSpeech (speech_params textInput options) (Responded chunks)
      ∈ new_calls w w'
    ∧ Body upload = BufferBody (concat chunks)
    ∧ o = Returned (SpeechFailure message)
    ∧ aud_op w' !! default default_outputFileName (outputFileName options)
      = Some (concat chunks).
Proof.
  intros Hrun Hput.
  rewrite synthesizeSpeech_run in Hrun. cbv zeta in Hrun.
  destruct (polly_synthesize env _ _) as [chunks | failure] eqn:Hpolly.
  - exists chunks.
    destruct (fs_write_error env _ _) as [failure |].
    { simplify_eq. rewrite (new_calls_app w _ [_]) in Hput by done.
      apply list_elem_of_singleton in Hput. discriminate Hput. }
    destruct (s3_put env _ _) as [[] | failure] eqn:Hstored; simplify_eq.
    all: rewrite (new_calls_app w _ [_; _]) in Hput |- *
      by (cbn; by rewrite <- app_assoc).
    all: apply elem_of_cons in Hput as [Hput | Hput]; [discriminate Hput |].
    all: apply list_elem_of_singleton in Hput; simplify_eq.
    split; [by left |]. split; [done |]. split; [done |].
    cbn. by rewrite lookup_insert_eq.
  - simplify_eq.
    rewrite (new_calls_app w _ [_]) in Hput by done.
    apply list_elem_of_singleton in Hput. discriminate Hput.
Qed.

Lemma storage_failure_keeps_local_file_witness :
  let env := sample_env running_clock (λ _, job_with_status "COMPLETED")
               (Responded tt) (λ _, Raised (js "Access Denied")) (generated_reply "ok") in
  let run := synthesizeSpeech (js "Take a slow breath.") no_options env sample_world in
  run.1 = Returned (SpeechFailure (js "Access Denied"))
  ∧ aud_op run.2 !! js "current_audio.mp3" = Some [x00].
Proof.
  intros env run.
  destruct (storage_failure_keeps_local_file (js "Take a slow breath.") no_options
              env sample_world run.1 run.2
              (upload_params no_options 1700000000001 [x00])
              (js "Access Denied"))
    as (chunks & Hsent & Hbody & Ho & Hfile).
  - vm_compute. reflexivity.
  - vm_compute. apply list_elem_of_In. right. left. reflexivity.
  - split; [exact Ho |].
    simpl in Hbody. injection Hbody as Hbody. rewrite Hbody. exact Hfile.
Defined.

(** C4. The storage key of a call is built from the reading of the clock
    alone: for two sequential successful calls of synthesizeSpeech the keys
    are polly-output-<reading>.mp3 for the readings of the two calls, and
    they are the same key exactly when the clock shows the same millisecond
    at both calls; the second upload then goes to the key of the first. *)
Theorem storage_keys_follow_the_clock text1 text2 options1 options2 env w r1 w1 r2 w2
        key1 key2 :
  synthesizeSpeech text1 options1 env w = (Returned r1, w1) →
  synthesizeSpeech text2 options2 env w1 = (Returned r2, w2) →
  s3FileName_of r1 = Some key1 →
  s3FileName_of r2 = Some key2 →
  key1 = s3_key (key_reading env w)
  ∧ key2 = s3_key (key_reading env w1)
  ∧ (key1 = key2 ↔ key_reading env w = key_reading env w1).
Proof.
  intros Hrun1 Hrun2 Hkey1 Hkey2.
  rewrite synthesizeSpeech_run in Hrun1, Hrun2. cbv zeta in Hrun1, Hrun2.
  destruct (polly_synthesize env (instant w) _) as [chunks1 | ?]; [| by simplify_eq].
  destruct (fs_write_error env _ _) as [? |] in Hrun1; [by simplify_eq |].
  destruct (s3_put env (S _) _) as [[] | ?] in Hrun1; [| by simplify_eq].
  destruct (polly_synthesize env (instant w1) _) as [chunks2 | ?]; [| by simplify_eq].
  destruct (fs_write_error env _ _) as [? |] in Hrun2; [by simplify_eq |].
  destruct (s3_put env (S _) _) as [[] | ?] in Hrun2; [| by simplify_eq].
  injection Hrun1 as <- <-. injection Hrun2 as <- <-.
  cbn in Hkey1, Hkey2. injection Hkey1 as <-. injection Hkey2 as <-.
  unfold key_reading. cbn [instant tick log with_files].
  split; [done |]. split; [done |]. split; [apply s3_key_inj | by intros ->].
Qed.

Lemma storage_keys_follow_the_clock_witness :
  let env := sample_env stopped_clock (λ _, job_with_status "COMPLETED")
               (Responded tt) (λ _, Responded tt) (generated_reply "ok") in
  let run1 := synthesizeSpeech (js "one") no_options env sample_world in
  let run2 := synthesizeSpeech (js "two") no_options env run1.2 in
  ∃ r1 r2 key,
    run1.1 = Returned r1 ∧ run2.1 = Returned r2
    ∧ s3FileName_of r1 = Some key ∧ s3FileName_of r2 = Some key
    ∧ key = js "polly-output-1700000000000.mp3".
Proof.
  intros env run1 run2.
  set (result :=
         SpeechSuccess (js "current_audio.mp3")
           (js "/app/public/aud_op/current_audio.mp3")
           (js "public/aud_op/current_audio.mp3")
           (js "polly-output-1700000000000.mp3")
           (js "mint-out")
           (js "s3://mint-out/polly-output-1700000000000.mp3")
           (js "Speech synthesized, saved locally to aud_op folder AND uploaded to S3 successfully")).
  destruct (storage_keys_follow_the_clock (js "one") (js "two") no_options no_options
              env sample_world result run1.2 result run2.2
              (js "polly-output-1700000000000.mp3")
              (js "polly-output-1700000000000.mp3"))
    as (_ & _ & Hsame).
  - vm_compute. reflexivity.
  - vm_compute. reflexivity.
  - reflexivity.
  - reflexivity.
  - exists result, result, (js "polly-output-1700000000000.mp3").
    split; [vm_compute; reflexivity |]. split; [vm_compute; reflexivity |].
    split; [reflexivity |]. split; [reflexivity |]. by apply Hsame.
Defined.

End PolClaims.

(** ** graniteLLM.js *)

Section GraniteClaims.
Import GraniteLLM.
Implicit Types (w : World) (env : Env) (response : jsval).

Lemma read_generated_text_silent response : logs (λ _, False) (read_generated_text response).
Proof.
  unfold read_generated_text, mbind, promise_bind. auto 20 with logs.
Qed.

Lemma read_generated_text_fallback response env w :
  ¬ has_results response → ¬ has_generations response →
  read_generated_text response env w
  = (Returned (js "No result field in response"), w).
Proof.
  unfold has_results, has_generations, result_field.
  intros Hres Hgen.
  unfold read_generated_text, and_also, mbind, promise_bind, mret, promise_ret.
  cbn [read_path]. unfold read, bind, ret.
  destruct (truthy response) eqn:Htruthy; [| by rewrite Htruthy].
  destruct (member response (js "result")) as [result |] eqn:Hresult.
  2: { by destruct response. }
  cbn [from_option id] in Hres, Hgen.
  destruct (truthy result) eqn:Hresult_truthy;
    [| by rewrite Hresult_truthy].
  destruct (member result (js "results")) as [results |] eqn:Hresults;
    [| by destruct result].
  destruct (member result (js "generations")) as [generations |] eqn:Hgenerations;
    [| by destruct result].
  rewrite ?Hresults, ?Hgenerations in Hres, Hgen.
  cbn [from_option id] in Hres, Hgen.
  assert (generations = Undefined) as ->
    by (destruct generations; first [done | by destruct Hgen]).
  destruct results as [| | | | | items |]; cbn; rewrite ?Hresult_truthy; try done.
  destruct items as [| first rest]; [done |].
  destruct Hres. by eexists _, _.
Qed.

(** C10. When the generation service responds without raising and the
    response has neither a results array with at least one element nor a
    generations field, generateTextWithGranite does not throw: it returns
    the literal 'No result field in response' as the generated text. *)
Theorem no_result_field_is_returned_as_text inputText options env w o w' params response :
  generateTextWithGranite inputText options env w = (o, w') →
  GenerateText params (Responded response) ∈ new_calls w w' →
  ¬ has_results response →
  ¬ has_generations response →
  o = Returned (js "No result field in response").
Proof.
  intros Hrun Hcall Hres Hgen.
  unfold generateTextWithGranite, try_catch, mbind, promise_bind, bind in Hrun.
  destruct (bool_decide (inputText = [])).
  { run_in Hrun. simplify_eq. rewrite new_calls_same in Hcall.
    by apply elem_of_nil in Hcall. }
  run_in Hrun.
  destruct (watsonx_client env).
  2: { simplify_eq. rewrite new_calls_same in Hcall.
       by apply elem_of_nil in Hcall. }
  set (sent := generate_params env inputText options) in *.
  destruct (watsonx_generateText env (instant w) sent) as [answer | failure] eqn:Hreply.
  - set (w1 := {| instant := S (instant w); aud_op := aud_op w;
                  calls := calls w ++ [GenerateText sent (Responded answer)] |}) in *.
    destruct (read_generated_text_silent answer env w1) as (new & Hnew & Hnone).
    assert (new = []) as -> by (destruct new; [done | by inversion Hnone]).
    rewrite app_nil_r in Hnew.
    destruct (read_generated_text answer env w1) as [o1 w2] eqn:Hread.
    assert (Hw' : calls w' = calls w ++ [GenerateText sent (Responded answer)]).
    { simpl in Hnew. rewrite <- Hnew. by destruct o1; simplify_eq. }
    rewrite (new_calls_app _ _ _ Hw') in Hcall.
    apply list_elem_of_singleton in Hcall. simplify_eq.
    rewrite read_generated_text_fallback in Hread by done.
    by simplify_eq.
  - simplify_eq.
    rewrite (new_calls_app w _ [_]) in Hcall by done.
    apply list_elem_of_singleton in Hcall. discriminate Hcall.
Qed.

Lemma no_result_field_is_returned_as_text_witness :
  let env := sample_env running_clock (λ _, job_with_status "COMPLETED")
               (Responded tt) (λ _, Responded tt)
               (Responded (Obj [(js "result", Obj [(js "model_id", Str (js "granite"))])])) in
  (generateTextWithGranite (js "I feel anxious.") no_options env sample_world).1
  = Returned (js "No result field in response").
Proof.
  intros env.
  set (run := generateTextWithGranite (js "I feel anxious.") no_options env sample_world).
  apply (no_result_field_is_returned_as_text (js "I feel anxious.") no_options env
           sample_world run.1 run.2
           (generate_params env (js "I feel anxious.") no_options)
           (Obj [(js "result", Obj [(js "model_id", Str (js "granite"))])])).
  - apply surjective_pairing.
  - vm_compute. apply list_elem_of_In. left. reflexivity.
  - intros (first & rest & H). vm_compute in H. discriminate H.
  - intros H. apply H. reflexivity.
Defined.

End GraniteClaims.

(** ** transcribe.js: submitting the job *)

Section TranscribeClaims.
Implicit Types (w : World) (env : Env) (jobName audioFile : jsstr).

(** The revision that submits at once sends exactly one request, the
    submission, whatever the file name and whatever the store holds. *)
Lemma submits_at_once_run jobName audioFile env w :
  let params := TranscribeShared.start_params Transcribe.bucketName jobName audioFile in
  let reply := transcribe_start env (instant w) params in
  Transcribe.startTranscription jobName audioFile env w
  = (match reply with Responded _ => Returned tt | Raised message => Thrown message end,
     tick (log (StartTranscriptionJob params reply) w)).
Proof.
  intros params reply. unfold Transcribe.startTranscription, send.
  fold params. fold reply. by destruct reply as [[] | message].
Qed.

(** What the checking revision accepts as the locator of [audioFile]: the
    name is not empty and does not begin with a line terminator. *)
Lemma checked_locator_test audioFile :
  TranscribeChecked.s3_uri_test (js "s3://mint-in/" ++ audioFile)
  = match audioFile with
    | [] => false
    | c :: _ => negb (TranscribeChecked.is_line_terminator c)
    end.
Proof. by destruct audioFile. Qed.

(** The revision that checks first does what the specification asks: a
    malformed locator is refused before anything is sent, and a failed
    existence check is reported without submitting the job. *)
Lemma checks_first_guards jobName audioFile env w :
  let uri := js "s3://mint-in/" ++ audioFile in
  let run := TranscribeChecked.startTranscription jobName audioFile env w in
  (TranscribeChecked.s3_uri_test uri = false →
     run = (Thrown (js "Invalid S3 URI constructed for Transcribe: " ++ uri), w))
  ∧ (TranscribeChecked.s3_uri_test uri = true →
     ∀ message,
       s3_head env (instant w) (js "mint-in") audioFile = Raised message →
       run.1 = Thrown (js "S3 object not found or inaccessible: s3://mint-in/"
                         ++ audioFile ++ js " -- " ++ message)
       ∧ new_calls w run.2 = [HeadObject (js "mint-in") audioFile (Raised message)]).
Proof.
  intros uri run. subst run.
  unfold TranscribeChecked.startTranscription.
  change (MediaFileUri (TranscribeShared.start_params TranscribeChecked.bucketName
                          jobName audioFile)) with uri.
  assert (bool_decide (uri = []) = false) as -> by by apply bool_decide_eq_false_2.
  cbn [orb]. split.
  - by intros ->.
  - intros -> message Hhead. run.
    change TranscribeChecked.bucketName with (js "mint-in").
    rewrite Hhead. cbn [fst snd]. split; [done |].
    by apply new_calls_app.
Qed.

(** C3. Before it submits the job, startTranscription (the revision that
    works in bucket mint-in) tests the locator s3://mint-in/<file> and asks
    the store for the object.  When the locator fails the test, as it does
    for an empty key, it throws 'Invalid S3 URI constructed for Transcribe:
    <locator>' and nothing is sent.  When the store answers the existence
    check with an error, it throws 'S3 object not found or inaccessible:
    <locator> -- <message>', the check being the only request sent.  So a
    job is submitted only for a locator that passed the test and an object
    the store has just confirmed, and it is the job for that object. *)
Theorem source_is_checked_before_submission jobName audioFile env w :
  let uri := js "s3://mint-in/" ++ audioFile in
  let run := TranscribeChecked.startTranscription jobName audioFile env w in
  (audioFile = [] → TranscribeChecked.s3_uri_test uri = false)
  ∧ (TranscribeChecked.s3_uri_test uri = false →
     run = (Thrown (js "Invalid S3 URI constructed for Transcribe: " ++ uri), w))
  ∧ (∀ message,
       TranscribeChecked.s3_uri_test uri = true →
       s3_head env (instant w) (js "mint-in") audioFile = Raised message →
       run.1 = Thrown (js "S3 object not found or inaccessible: s3://mint-in/"
                         ++ audioFile ++ js " -- " ++ message)
       ∧ new_calls w run.2 = [HeadObject (js "mint-in") audioFile (Raised message)])
  ∧ (∀ params reply,
       StartTranscriptionJob params reply ∈ new_calls w run.2 →
       TranscribeChecked.s3_uri_test uri = true
       ∧ s3_head env (instant w) (js "mint-in") audioFile = Responded tt
       ∧ new_calls w run.2
         = [HeadObject (js "mint-in") audioFile (Responded tt);
            StartTranscriptionJob params reply]
       ∧ TranscriptionJobName params = jobName
       ∧ MediaFileUri params = uri).
Proof.
  intros uri run.
  destruct (checks_first_guards jobName audioFile env w) as [Hbad Hhead].
  cbv zeta in Hbad, Hhead. fold uri in Hbad, Hhead. fold run in Hbad, Hhead.
  split; [by intros -> |]. split; [done |].
  split; [intros message Htest Hraised; by apply Hhead |].
  intros params reply Hin.
  destruct (TranscribeChecked.s3_uri_test uri) eqn:Htest.
  2: { rewrite Hbad in Hin by done. cbn [snd] in Hin.
       rewrite new_calls_same in Hin. by apply elem_of_nil in Hin. }
  destruct (s3_head env (instant w) (js "mint-in") audioFile) as [[] | message] eqn:Hfound.
  2: { destruct (Hhead eq_refl message eq_refl) as [_ Hcalls].
       rewrite Hcalls in Hin. apply list_elem_of_singleton in Hin. discriminate Hin. }
  split; [done |]. split; [done |].
  subst run. unfold TranscribeChecked.startTranscription in Hin |- *.
  change (MediaFileUri (TranscribeShared.start_params TranscribeChecked.bucketName
                          jobName audioFile)) with uri in Hin |- *.
  assert (bool_decide (uri = []) = false) as Hnonempty
    by by apply bool_decide_eq_false_2.
  rewrite Hnonempty, Htest in Hin |- *. cbn [orb negb] in Hin |- *.
  run_in Hin. run.
  change TranscribeChecked.bucketName with (js "mint-in") in Hin |- *.
  rewrite Hfound in Hin |- *.
  destruct (process_env env _) as [[| c arn] |];
    destruct (transcribe_start env _ _) as [[] | failure]; cbn [snd] in Hin |- *.
  all: rewrite (new_calls_app w _ [_; _]) in Hin |- * by (cbn; by rewrite <- app_assoc).
  all: apply elem_of_cons in Hin as [Hin | Hin%list_elem_of_singleton];
    [discriminate Hin |].
  all: by injection Hin as -> ->.
Qed.

Lemma source_is_checked_before_submission_witness :
  let env := sample_env running_clock (λ _, job_with_status "COMPLETED")
               (Raised (js "NotFound")) (λ _, Responded tt) (generated_reply "ok") in
  let missing :=
    TranscribeChecked.startTranscription (js "MyTranscriptionJob-1700000000000")
      (js "missing.mp3") env sample_world in
  let unnamed :=
    TranscribeChecked.startTranscription (js "MyTranscriptionJob-1700000000000")
      [] env sample_world in
  missing.1 = Thrown (js "S3 object not found or inaccessible: s3://mint-in/missing.mp3 -- NotFound")
  ∧ new_calls sample_world missing.2
    = [HeadObject (js "mint-in") (js "missing.mp3") (Raised (js "NotFound"))]
  ∧ unnamed = (Thrown (js "Invalid S3 URI constructed for Transcribe: s3://mint-in/"),
               sample_world).
Proof.
  intros env missing unnamed.
  destruct (source_is_checked_before_submission (js "MyTranscriptionJob-1700000000000")
              (js "missing.mp3") env sample_world) as (_ & _ & Hhead & _).
  destruct (source_is_checked_before_submission (js "MyTranscriptionJob-1700000000000")
              [] env sample_world) as (Hempty & Hbad & _).
  destruct (Hhead (js "NotFound")) as [Hthrown Hcalls]; [reflexivity | reflexivity |].
  split; [exact Hthrown |]. split; [exact Hcalls |].
  apply Hbad, Hempty. reflexivity.
Defined.

(** The other revision, kept as transcribe.js (bucket mint-bucket1), verifies
    nothing before it submits. With a store that would answer the existence
    check with an error, it still submits the job, both for a file name
    that is missing from the bucket and for the empty file name, whose
    locator s3://mint-bucket1/ has no key; and it sends no other request. *)
Lemma transcribe_js_submits_unchecked :
  let env := sample_env running_clock (λ _, job_with_status "COMPLETED")
               (Raised (js "NotFound")) (λ _, Responded tt) (generated_reply "ok") in
  let job := js "MyTranscriptionJob-1700000000000" in
  let submission (uri : string) :=
    StartTranscriptionJob
      {| TranscriptionJobName := job;
         LanguageCode := js "en-US";
         MediaFormat := js "mp3";
         MediaFileUri := js uri;
         OutputBucketName := js "mint-bucket1";
         DataAccessRoleArn := None |}
      (Responded tt) in
  let missing := Transcribe.startTranscription job (js "missing.mp3") env sample_world in
  let unnamed := Transcribe.startTranscription job [] env sample_world in
  s3_head env 0 (js "mint-bucket1") (js "missing.mp3") = Raised (js "NotFound")
  ∧ missing.1 = Returned tt
  ∧ new_calls sample_world missing.2 = [submission "s3://mint-bucket1/missing.mp3"]
  ∧ unnamed.1 = Returned tt
  ∧ new_calls sample_world unnamed.2 = [submission "s3://mint-bucket1/"].
Proof. repeat split; reflexivity. Qed.

(** On the same input the checking revision refuses before sending
    anything. *)
Example checks_first_refuses_empty_name :
  let env := sample_env running_clock (λ _, job_with_status "COMPLETED")
               (Raised (js "NotFound")) (λ _, Responded tt) (generated_reply "ok") in
  TranscribeChecked.startTranscription (js "MyTranscriptionJob-1700000000000") []
    env sample_world
  = (Thrown (js "Invalid S3 URI constructed for Transcribe: s3://mint-in/"),
     sample_world).
Proof. reflexivity. Qed.

End TranscribeClaims.

(** ** help.js: failures of the pipeline *)

Section PipelineFacts.
Implicit Types (w : World) (env : Env).

Lemma quiet_never_failed new : Forall is_quiet new → ¬ Exists is_failed_poll new.
Proof.
  intros Hall Hex. apply Exists_exists in Hex as (c & Hc & Hfailed).
  rewrite Forall_forall in Hall. by destruct (Hall c Hc).
Qed.

Lemma quiet_neither new :
  Forall is_quiet new → Forall is_neither_generation_nor_synthesis new.
Proof. intros H. eapply Forall_impl; [done |]. by intros c [? ?]. Qed.

Lemma stops_bind_quiet_l {A B} (m : M A) (k : A → M B) :
  logs is_quiet m → (∀ a, stops_on_failed_poll (k a)) →
  stops_on_failed_poll (bind m k).
Proof.
  intros Hm Hk env w. unfold bind.
  destruct (Hm env w) as (new1 & E1 & F1).
  pose proof (quiet_never_failed _ F1) as Hnever.
  destruct (m env w) as [[a | message |] w1]; simpl in *.
  - destruct (Hk a env w1) as (new2 & E2 & F2 & Hfailed).
    exists (new1 ++ new2). rewrite E2, E1, app_assoc. split; [done |].
    split; [apply Forall_app; split; [by apply quiet_neither | done] |].
    rewrite Exists_app. intros [? | ?]; [done | by apply Hfailed].
  - exists new1. split; [done |]. split; [by apply quiet_neither | done].
  - exists new1. split; [done |]. split; [by apply quiet_neither | done].
Qed.

Lemma stops_bind_quiet_r {A B} (m : M A) (k : A → M B) :
  stops_on_failed_poll m → (∀ a, logs is_quiet (k a)) →
  stops_on_failed_poll (bind m k).
Proof.
  intros Hm Hk env w. unfold bind.
  destruct (Hm env w) as (new1 & E1 & F1 & Hfailed).
  destruct (m env w) as [[a | message |] w1]; simpl in *;
    [| exists new1; split; [done |]; split; [done |];
       intros Hex; specialize (Hfailed Hex); by simplify_eq ..].
  destruct (Hk a env w1) as (new2 & E2 & F2).
  pose proof (quiet_never_failed _ F2) as Hnever.
  exists (new1 ++ new2). rewrite E2, E1, app_assoc. split; [done |].
  split; [apply Forall_app; split; [done | by apply quiet_neither] |].
  rewrite Exists_app. intros [Hex | ?]; [| done].
  by specialize (Hfailed Hex).
Qed.

Lemma stops_rethrow {A} (m : M A) :
  stops_on_failed_poll m → stops_on_failed_poll (try_catch m (λ message, throw message)).
Proof.
  intros Hm env w. unfold try_catch, throw.
  destruct (Hm env w) as (new & E & F & Hfailed).
  exists new. by destruct (m env w) as [[a | message |] w1].
Qed.

Lemma waitForCompletion_stops polls jobName :
  stops_on_failed_poll (TranscribeShared.waitForCompletion polls jobName).
Proof.
  induction polls as [| polls IH]; intros env w.
  - exists []. rewrite app_nil_r. split; [done |]. split; [done |].
    by intros ?%Exists_nil.
  - cbn [TranscribeShared.waitForCompletion]. run.
    destruct (transcribe_get env (instant w) jobName) as [job | message] eqn:Hreply.
    2: { exists [GetTranscriptionJob jobName (Raised message)].
         split; [done |]. split; [by repeat constructor; intros [] |].
         intros Hex. apply Exists_cons in Hex as [[] | ?%Exists_nil]. done. }
    case_bool_decide as Hcompleted.
    { exists [GetTranscriptionJob jobName (Responded job)].
      split; [by destruct (Transcript job) |].
      split; [by repeat constructor; intros [] |].
      intros Hex. apply Exists_cons in Hex as [Hfailed | ?%Exists_nil]; [| done].
      simpl in Hfailed. rewrite Hcompleted in Hfailed.
      by apply js_inj in Hfailed. }
    case_bool_decide as Hfailed.
    { exists [GetTranscriptionJob jobName (Responded job)].
      split; [done |]. split; [by repeat constructor; intros [] |]. done. }
    match goal with
    | |- context [TranscribeShared.waitForCompletion polls jobName env ?w2] =>
        destruct (IH env w2) as (new & E & F & Hstops)
    end.
    exists (GetTranscriptionJob jobName (Responded job) :: new).
    split; [by rewrite E; cbn; rewrite <- app_assoc |].
    split; [constructor; [by split; intros [] | done] |].
    intros Hex. apply Exists_cons in Hex as [Hnow | Hlater]; [done |].
    by apply Hstops.
Qed.

Lemma submits_at_once_quiet jobName audioFile :
  logs is_quiet (Transcribe.startTranscription jobName audioFile).
Proof. unfold Transcribe.startTranscription. auto with logs. Qed.

Lemma checks_first_quiet jobName audioFile :
  logs is_quiet (TranscribeChecked.startTranscription jobName audioFile).
Proof.
  unfold TranscribeChecked.startTranscription, mbind, promise_bind.
  auto 10 with logs.
Qed.

Lemma getTranscriptText_quiet bucket jobName :
  logs is_quiet (TranscribeShared.getTranscriptText bucket jobName).
Proof.
  unfold TranscribeShared.getTranscriptText, mbind, promise_bind.
  auto 20 with logs.
Qed.

Lemma transcribeAudio_stops which polls fileName :
  stops_on_failed_poll (transcribeAudio which polls fileName).
Proof.
  assert (∀ bucket start,
            (∀ jobName audioFile, logs is_quiet (start jobName audioFile)) →
            stops_on_failed_poll
              (TranscribeShared.transcribeAudio bucket start polls fileName)) as Hshared.
  { intros bucket start Hstart.
    unfold TranscribeShared.transcribeAudio, mbind, promise_bind.
    apply stops_rethrow.
    apply stops_bind_quiet_l; [apply logs_now |]. intros timestamp.
    apply stops_bind_quiet_l; [apply Hstart |]. intros _.
    apply stops_bind_quiet_r; [apply waitForCompletion_stops |]. intros _.
    apply getTranscriptText_quiet. }
  destruct which; apply Hshared.
  - apply submits_at_once_quiet.
  - apply checks_first_quiet.
Qed.

Lemma generateTextWithGranite_never_polls text options :
  logs is_not_failed_poll (GraniteLLM.generateTextWithGranite text options).
Proof.
  assert (∀ response, logs is_not_failed_poll (GraniteLLM.read_generated_text response)).
  { intros response. eapply logs_weaken; [| apply read_generated_text_silent].
    by intros c []. }
  unfold GraniteLLM.generateTextWithGranite, mbind, promise_bind.
  auto 10 with logs.
Qed.

Lemma synthesizeSpeech_never_polls text options :
  logs is_not_failed_poll (synthesizeSpeech text options).
Proof.
  intros env w. rewrite synthesizeSpeech_run. cbv zeta.
  destruct (polly_synthesize env _ _) as [chunks | message].
  - destruct (fs_write_error env _ _) as [message |].
    { eexists [_]. split; [done |]. by repeat constructor; intros []. }
    destruct (s3_put env _ _) as [[] | message].
    all: eexists [_; _]; split; [by cbn; rewrite <- app_assoc |].
    all: by repeat constructor; intros [].
  - eexists [_]. split; [done |]. by repeat constructor; intros [].
Qed.

(** C2, as stated, fails: when the job status is FAILED the result does
    not name the transcription stage; its tag is the fixed 'AI Pipeline'. *)
Lemma failed_job_is_not_tagged_transcription :
  let env := sample_env running_clock (λ _, job_with_status "FAILED")
               (Responded tt) (λ _, Responded tt) (generated_reply "ok") in
  let run := processAudioWithAI submits_at_once 5 (js "recording-1.mp3") env sample_world in
  run.1 = Returned (PipelineFailure (js "Transcription job failed.") (js "AI Pipeline"))
  ∧ ¬ ∃ message, run.1 = Returned (PipelineFailure message (js "transcription")).
Proof.
  split; [reflexivity |].
  intros [message H]. vm_compute in H. discriminate H.
Qed.

(** C2, amended. For every pipeline run in which some stage fails,
    processAudioWithAI returns a failure result that carries the underlying
    message under the fixed tag 'AI Pipeline', the same for every stage; in
    particular, when a poll finds the transcription job FAILED, the result
    carries 'Transcription job failed.' and neither the generation service
    nor the synthesis service is invoked. *)
Theorem pipeline_reports_failure which polls fileName env w o w' :
  processAudioWithAI which polls fileName env w = (o, w') →
  (∀ message w1,
      stage_fails which polls fileName env w message w1 →
      o = Returned (PipelineFailure message (js "AI Pipeline")) ∧ w' = w1)
  ∧ (Exists is_failed_poll (new_calls w w') →
     o = Returned (PipelineFailure (js "Transcription job failed.") (js "AI Pipeline"))
     ∧ Forall is_neither_generation_nor_synthesis (new_calls w w')).
Proof.
  intros Hrun. unfold processAudioWithAI in Hrun. run_in Hrun. split.
  - intros message w1 [m w2 Ht | text w2 m w3 Ht Hg | text w2 reply w3 error w4 Ht Hg Hs].
    + rewrite Ht in Hrun. by simplify_eq.
    + rewrite Ht, Hg in Hrun. by simplify_eq.
    + rewrite Ht, Hg, Hs in Hrun. by simplify_eq.
  - intros Hfailed.
    destruct (transcribeAudio_stops which polls fileName env w) as (new1 & E1 & F1 & Hstop).
    destruct (transcribeAudio which polls fileName env w) as [[text | message |] w1];
      cbn [fst snd] in *.
    + exfalso.
      destruct (generateTextWithGranite_never_polls text GraniteLLM.no_options env w1)
        as (new2 & E2 & F2).
      destruct (GraniteLLM.generateTextWithGranite text GraniteLLM.no_options env w1)
        as [[reply | message |] w2]; cbn [fst snd] in *.
      * destruct (synthesizeSpeech_never_polls reply no_options env w2)
          as (new3 & E3 & F3).
        destruct (synthesizeSpeech reply no_options env w2) as [[result | message |] w3];
          cbn [fst snd] in *.
        all: assert (w' = w3) as -> by (repeat case_match; by simplify_eq).
        all: rewrite (new_calls_app w w3 (new1 ++ new2 ++ new3)) in Hfailed
          by (by rewrite E3, E2, E1, <- !app_assoc).
        all: rewrite !Exists_app in Hfailed.
        all: destruct Hfailed as [Hex | [Hex | Hex]];
          [ by specialize (Hstop Hex)
          | by apply Exists_exists in Hex as (c & Hc & Hp);
               rewrite Forall_forall in F2; destruct (F2 c Hc)
          | by apply Exists_exists in Hex as (c & Hc & Hp);
               rewrite Forall_forall in F3; destruct (F3 c Hc) ].
      * simplify_eq.
        rewrite (new_calls_app w w' (new1 ++ new2)) in Hfailed
          by (by rewrite E2, E1, <- !app_assoc).
        rewrite Exists_app in Hfailed. destruct Hfailed as [Hex | Hex].
        -- by specialize (Hstop Hex).
        -- apply Exists_exists in Hex as (c & Hc & Hp).
           rewrite Forall_forall in F2. by destruct (F2 c Hc).
      * simplify_eq.
        rewrite (new_calls_app w w' (new1 ++ new2)) in Hfailed
          by (by rewrite E2, E1, <- !app_assoc).
        rewrite Exists_app in Hfailed. destruct Hfailed as [Hex | Hex].
        -- by specialize (Hstop Hex).
        -- apply Exists_exists in Hex as (c & Hc & Hp).
           rewrite Forall_forall in F2. by destruct (F2 c Hc).
    + simplify_eq. rewrite (new_calls_app _ _ _ E1) in Hfailed |- *.
      specialize (Hstop Hfailed). by simplify_eq.
    + simplify_eq. rewrite (new_calls_app _ _ _ E1) in Hfailed.
      by specialize (Hstop Hfailed).
Qed.

Lemma pipeline_reports_failure_witness :
  let env := sample_env running_clock
               (λ t, if (t <? 6)%nat then job_with_status "IN_PROGRESS"
                     else job_with_status "FAILED")
               (Responded tt) (λ _, Responded tt) (generated_reply "ok") in
  let run := processAudioWithAI checks_first 5 (js "recording-1.mp3") env sample_world in
  run.1 = Returned (PipelineFailure (js "Transcription job failed.") (js "AI Pipeline"))
  ∧ Forall is_neither_generation_nor_synthesis (new_calls sample_world run.2).
Proof.
  intros env run.
  destruct (pipeline_reports_failure checks_first 5 (js "recording-1.mp3") env
              sample_world run.1 run.2) as [Hstage Hpoll].
  - apply surjective_pairing.
  - pose proof (Hstage (js "Transcription job failed.") run.2) as [Ho _].
    + apply transcription_fails. vm_compute. reflexivity.
    + apply Hpoll.
      vm_compute. do 4 apply Exists_cons_tl. apply Exists_cons_hd. reflexivity.
Defined.

End PipelineFacts.

(** * Further properties of the sources *)

(** ** pol.js: more on truncation *)

Section TruncationMore.
Local Open Scope Z_scope.
Implicit Types (text : jsstr) (limit : Z).

(** Rounding to nearest takes away at most half a unit in the last place. *)
Lemma round53_lower m : 0 < m → m * (2 ^ 53 - 1) <= round53 m * 2 ^ 53.
Proof.
  intros Hm. unfold round53.
  destruct (Z.leb_spec (Z.log2 m - 52) 0) as [Hs | Hs]; [nia |].
  set (s := Z.log2 m - 52) in *.
  rewrite !Z.shiftl_mul_pow2, Z.shiftr_div_pow2 by lia.
  rewrite Z.mul_1_l.
  assert (Hpow : 2 ^ s = 2 * 2 ^ (s - 1)).
  { rewrite <- Z.pow_succ_r by lia. f_equal. lia. }
  assert (Hhalf : 0 < 2 ^ (s - 1)) by (apply Z.pow_pos_nonneg; lia).
  pose proof (Z.div_mod m (2 ^ s) ltac:(lia)) as Hdiv.
  pose proof (Z.mod_pos_bound m (2 ^ s) ltac:(lia)) as Hmod.
  set (q := m / 2 ^ s) in *. set (r := m mod 2 ^ s) in *.
  replace (m - q * 2 ^ s) with r by lia.
  assert (Hlog : 2 ^ (s - 1) * 2 ^ 53 <= m).
  { rewrite <- Z.pow_add_r by lia. replace (s - 1 + 53) with (Z.log2 m) by lia.
    apply Z.log2_spec. lia. }
  destruct (_ || _) eqn:Hup.
  - nia.
  - assert (r <= 2 ^ (s - 1)).
    { apply orb_false_iff in Hup as [H _]. apply Z.ltb_ge in H. lia. }
    nia.
Qed.

(** An index that passes the binary64 test lies less than one position
    below 70% of the limit. *)
Lemma gt_times_0_7_lower i n :
  0 <= n < 2 ^ 50 → gt_times_0_7 i n = true → 7 * n < 10 * (i + 1).
Proof.
  intros Hn Hpast. unfold gt_times_0_7, times_0_7 in Hpast.
  apply Z.ltb_lt in Hpast.
  destruct (Z.eq_dec n 0) as [-> | Hnz]; [simpl in Hpast; lia |].
  rewrite Z.sgn_pos, Z.abs_eq, Z.mul_1_l in Hpast by lia.
  pose proof (round53_lower (n * double_0_7) ltac:(unfold double_0_7; lia)) as Hlow.
  unfold double_0_7 in *.
  change (2 ^ 53) with 9007199254740992 in *.
  change (2 ^ 50) with 1125899906842624 in *.
  nia.
Qed.

(** No terminator of the window passes the test: the sentence branch is
    not taken. *)
Lemma sentence_branch_not_taken text limit :
  0 <= limit →
  (∀ (i : nat) c, Z.of_nat i < limit → text !! i = Some c →
                  is_sentence_terminator c →
                  gt_times_0_7 (Z.of_nat i) limit = false) →
  gt_times_0_7 (last_sentence_end (take (Z.to_nat limit) text)) limit = false.
Proof.
  intros Hlimit Hnoterm.
  destruct (last_sentence_end_hit (take (Z.to_nat limit) text))
    as [-> | (k & c & -> & Hk & Hc)].
  - by apply gt_times_0_7_minus_1.
  - apply lookup_take_Some in Hk as [Hk Hlt].
    apply (Hnoterm k c); [lia | done | done].
Qed.

(** X1. A text longer than the limit, with no sentence terminator past the
    70% mark of the window but with a space after the first position of the
    window, is cut just before the last space of the window, and the
    ellipsis marker is appended. *)
Theorem truncate_at_word_boundary text limit (s : nat) :
  limit < str_length text →
  (0 < s)%nat → Z.of_nat s < limit →
  text !! s = Some 32%N →
  (∀ (i : nat) c, Z.of_nat i < limit → text !! i = Some c →
                  is_sentence_terminator c →
                  gt_times_0_7 (Z.of_nat i) limit = false) →
  ∃ k : nat,
    (s ≤ k)%nat ∧ Z.of_nat k < limit
    ∧ text !! k = Some 32%N
    ∧ (∀ j : nat, (k < j)%nat → Z.of_nat j < limit → text !! j ≠ Some 32%N)
    ∧ truncateTextForPolly text limit = take k text ++ js "...".
Proof.
  intros Hlong Hs Hslt Hspace Hnoterm.
  rewrite truncate_unfold.
  destruct (Z.leb_spec (str_length text) limit) as [Hle | _]; [lia |].
  cbv zeta. rewrite sentence_branch_not_taken by (done || lia).
  set (truncated := take (Z.to_nat limit) text).
  assert (Hwin : ∀ j : nat, Z.of_nat j < limit → truncated !! j = text !! j).
  { intros j Hj. unfold truncated. apply lookup_take_lt. lia. }
  assert (Hs' : truncated !! s = Some 32%N) by by rewrite Hwin.
  pose proof (lastIndexOf_unit_ge _ _ _ Hs') as Hge.
  destruct (lastIndexOf_unit 32 truncated) as [[_ Hnot] | (k & Hk & Hat & Hlast)].
  { exfalso. apply Hnot. by eapply list_elem_of_lookup_2. }
  rewrite Hk in *.
  assert (Hklt : Z.of_nat k < limit).
  { apply lookup_lt_Some in Hat. unfold truncated in Hat.
    rewrite length_take in Hat. lia. }
  destruct (Z.ltb_spec 0 (Z.of_nat k)) as [_ | ?]; [| lia].
  exists k. split; [lia |]. split; [done |].
  split; [by rewrite <- Hwin |].
  split.
  { intros j Hkj Hj. rewrite <- Hwin by done. by apply Hlast. }
  unfold truncated. rewrite Nat2Z.id, take_take. do 2 f_equal. lia.
Qed.

Lemma truncate_at_word_boundary_witness :
  ∃ k : nat,
    (4 ≤ k)%nat ∧ Z.of_nat k < 10
    ∧ js "One. two three four" !! k = Some 32%N
    ∧ (∀ j : nat, (k < j)%nat → Z.of_nat j < 10 →
                  js "One. two three four" !! j ≠ Some 32%N)
    ∧ truncateTextForPolly (js "One. two three four") 10
      = take k (js "One. two three four") ++ js "...".
Proof.
  apply (truncate_at_word_boundary (js "One. two three four") 10 4).
  - reflexivity.
  - lia.
  - reflexivity.
  - reflexivity.
  - intros i c Hi Hic Hc.
    do 10 (destruct i as [| i]; [vm_compute in Hic; injection Hic as <-;
                                 first [reflexivity
                                       | by destruct Hc as [? | [? | ?]]] |]).
    lia.
Defined.

(** X2. Whatever the text and the limit, the result is a prefix of the
    text, alone or followed by the ellipsis marker; when the text is longer
    than the limit the prefix has at most [limit] units. *)
Theorem truncate_keeps_a_prefix text limit :
  ∃ k : nat,
    (truncateTextForPolly text limit = take k text
     ∨ truncateTextForPolly text limit = take k text ++ js "...")
    ∧ (limit < str_length text → Z.of_nat k <= Z.max 0 limit).
Proof.
  rewrite truncate_unfold.
  destruct (Z.leb_spec (str_length text) limit) as [Hle | Hgt].
  { exists (length text). split; [left; by rewrite firstn_all | lia]. }
  cbv zeta. set (n := Z.to_nat limit).
  destruct (gt_times_0_7 _ _).
  { eexists. rewrite take_take. split; [by left | lia]. }
  destruct (0 <? _).
  { eexists. rewrite take_take. split; [by right | lia]. }
  exists n. split; [by right | lia].
Qed.

(** The sentence branch, as the code takes it. *)
Lemma truncate_sentence_cut text limit (i : nat) c :
  limit < str_length text →
  Z.of_nat i < limit →
  text !! i = Some c →
  is_sentence_terminator c →
  gt_times_0_7 (Z.of_nat i) limit = true →
  ∃ (k : nat) c',
    gt_times_0_7 (Z.of_nat k) limit = true
    ∧ Z.of_nat k < limit
    ∧ text !! k = Some c' ∧ is_sentence_terminator c'
    ∧ truncateTextForPolly text limit = take (S k) text.
Proof.
  intros Hlong Hi Hc Hterm Hpast.
  rewrite truncate_unfold.
  destruct (Z.leb_spec (str_length text) limit) as [Hle | _]; [lia |].
  cbv zeta. set (truncated := take (Z.to_nat limit) text).
  assert (Hi' : truncated !! i = Some c)
    by (unfold truncated; rewrite lookup_take_lt by lia; done).
  pose proof (last_sentence_end_ge _ _ _ Hi' Hterm) as Hge.
  pose proof (gt_times_0_7_mono _ _ _ Hge Hpast) as Hpast'.
  rewrite Hpast'.
  destruct (last_sentence_end_hit truncated) as [E | (k & c' & E & Hk & Hc')];
    [lia |].
  rewrite E in *. exists k, c'.
  unfold truncated in Hk. apply lookup_take_Some in Hk as [Hk Hklt].
  split; [done |]. split; [lia |]. split; [done |]. split; [done |].
  unfold truncated. rewrite take_take. f_equal. lia.
Qed.

(** X3. When the cut is made at a sentence terminator, the result ends
    with a terminator and is longer than 70% of the limit: the sentence cut
    gives up less than 30% of the window. *)
Theorem sentence_cut_keeps_most text limit (i : nat) c :
  limit < str_length text →
  limit < 2 ^ 50 →
  Z.of_nat i < limit →
  text !! i = Some c →
  is_sentence_terminator c →
  gt_times_0_7 (Z.of_nat i) limit = true →
  7 * limit < 10 * str_length (truncateTextForPolly text limit)
  ∧ ∃ c', last (truncateTextForPolly text limit) = Some c'
          ∧ is_sentence_terminator c'.
Proof.
  intros Hlong Hbound Hi Hc Hterm Hpast.
  destruct (truncate_sentence_cut text limit i c) as (k & c' & Hk & Hklt & Hat & Hc' & ->);
    try done.
  assert (Hlen : length (take (S k) text) = S k).
  { rewrite length_take. unfold str_length in Hlong. lia. }
  split.
  - unfold str_length. rewrite Hlen.
    pose proof (gt_times_0_7_lower (Z.of_nat k) limit ltac:(lia) Hk). lia.
  - exists c'. split; [| done].
    rewrite last_lookup, Hlen. cbn [pred].
    by rewrite lookup_take_lt by lia.
Qed.

Lemma sentence_cut_keeps_most_witness :
  7 * 9 < 10 * str_length (truncateTextForPolly (js "One two. Three four") 9)
  ∧ ∃ c', last (truncateTextForPolly (js "One two. Three four") 9) = Some c'
          ∧ is_sentence_terminator c'.
Proof.
  apply (sentence_cut_keeps_most (js "One two. Three four") 9 7 46%N).
  - reflexivity.
  - reflexivity.
  - reflexivity.
  - reflexivity.
  - left. reflexivity.
  - reflexivity.
Defined.

End TruncationMore.

(** ** Runs that change nothing, runs that keep the local directory *)

Create HintDb world discriminated.

Section LeavesWorld.

Lemma leaves_ret {A} (a : A) : leaves_world (ret a).
Proof. done. Qed.

Lemma leaves_throw {A} message : leaves_world (@throw A message).
Proof. done. Qed.

Lemma leaves_throw_TypeError {A} kind : leaves_world (@throw_TypeError A kind).
Proof. done. Qed.

Lemma leaves_ask : leaves_world ask.
Proof. done. Qed.

Lemma leaves_bind {A B} (m : M A) (k : A → M B) :
  leaves_world m → (∀ a, leaves_world (k a)) → leaves_world (bind m k).
Proof.
  intros Hm Hk env w. unfold bind. destruct (Hm env w) as [Hw Ho].
  destruct (m env w) as [[a | message |] w1]; simpl in *; subst;
    [apply Hk | done ..].
Qed.

Lemma leaves_read v name : leaves_world (read v name).
Proof. unfold read. by destruct (member v name). Qed.

Lemma leaves_read_path v names : leaves_world (read_path v names).
Proof.
  revert v. induction names as [| name names IH]; intros v; simpl; [done |].
  apply leaves_bind; [apply leaves_read | done].
Qed.

Lemma leaves_and_also a b :
  leaves_world a → leaves_world b → leaves_world (and_also a b).
Proof.
  intros Ha Hb. apply leaves_bind; [done |]. intros x. by destruct (truthy x).
Qed.

Lemma leaves_call_trim v : leaves_world (call_trim v).
Proof. by destruct v. Qed.

Lemma leaves_mapM {A B} (f : A → M B) (l : list A) :
  (∀ x, leaves_world (f x)) → leaves_world (mapM f l).
Proof.
  intros Hf. induction l as [| x l IH]; simpl; [done |].
  apply leaves_bind; [done |]. intros y. apply leaves_bind; [done |]. done.
Qed.

Lemma leaves_call_map v f : (∀ x, leaves_world (f x)) → leaves_world (call_map v f).
Proof. intros Hf. destruct v; simpl; first [by apply leaves_mapM | done]. Qed.

(** A run that changes nothing is determined by its outcome. *)
Lemma leaves_world_run {A} (m : M A) env w :
  leaves_world m → m env w = ((m env w).1, w).
Proof.
  intros Hm. destruct (Hm env w) as [Hw _].
  rewrite <- Hw at 3. apply surjective_pairing.
Qed.

End LeavesWorld.

#[local] Hint Resolve leaves_ret leaves_throw leaves_throw_TypeError leaves_ask
  leaves_read leaves_read_path leaves_call_trim : world.
#[local] Hint Extern 1 (leaves_world (bind _ _)) =>
  apply leaves_bind; [| intros ?] : world.
#[local] Hint Extern 1 (leaves_world (mret _)) => apply leaves_ret : world.
#[local] Hint Extern 1 (leaves_world (and_also _ _)) => apply leaves_and_also : world.
#[local] Hint Extern 1 (leaves_world (call_map _ _)) =>
  apply leaves_call_map; intros ? : world.
#[local] Hint Extern 2 (leaves_world (if ?b then _ else _)) => destruct b : world.
#[local] Hint Extern 2 (leaves_world (match ?x with _ => _ end)) => destruct x : world.

Section KeepsFiles.

Lemma keeps_of_leaves {A} (m : M A) : leaves_world m → keeps_files m.
Proof. intros Hm env w. by destruct (Hm env w) as [-> _]. Qed.

Lemma keeps_bind {A B} (m : M A) (k : A → M B) :
  keeps_files m → (∀ a, keeps_files (k a)) → keeps_files (bind m k).
Proof.
  intros Hm Hk env w. unfold bind. specialize (Hm env w).
  destruct (m env w) as [[a | message |] w1]; simpl in *; [| done ..].
  by rewrite Hk.
Qed.

Lemma keeps_try_catch {A} (m : M A) (handler : jsstr → M A) :
  keeps_files m → (∀ message, keeps_files (handler message)) →
  keeps_files (try_catch m handler).
Proof.
  intros Hm Hh env w. unfold try_catch. specialize (Hm env w).
  destruct (m env w) as [[a | message |] w1]; simpl in *; [done | | done].
  by rewrite Hh.
Qed.

Lemma keeps_send {A} (answer : Env → nat → Reply A) (record : Reply A → Call) :
  keeps_files (send answer record).
Proof. intros env w. unfold send. by destruct (answer env (instant w)). Qed.

Lemma keeps_now : keeps_files now.
Proof. done. Qed.

Lemma keeps_sleep ms : keeps_files (sleep ms).
Proof. done. Qed.

Lemma keeps_pending {A} : keeps_files (λ (_ : Env) (w : World), (@Pending A, w)).
Proof. done. Qed.

End KeepsFiles.

#[local] Hint Resolve keeps_send keeps_now keeps_sleep keeps_pending : world.
#[local] Hint Extern 1 (keeps_files (bind _ _)) =>
  apply keeps_bind; [| intros ?] : world.
#[local] Hint Extern 1 (keeps_files (try_catch _ _)) =>
  apply keeps_try_catch; [| intros ?] : world.
#[local] Hint Extern 2 (keeps_files (if ?b then _ else _)) => destruct b : world.
#[local] Hint Extern 2 (keeps_files (match ?x with _ => _ end)) => destruct x : world.
#[local] Hint Extern 5 (keeps_files _) => apply keeps_of_leaves : world.

(** ** pol.js: more on the local directory and the storage copy *)

Section PolMore.
Implicit Types (w : World) (env : Env).

(** X4. clearPreviousAudio never throws and sends nothing, whatever the
    file system answers.  It leaves every file whose name does not end in
    .mp3 as it was, and any other file it leaves as it was or removes; when
    it meets no error (the directory can be listed and every unlink
    succeeds) no .mp3 file is left. *)
Theorem clearPreviousAudio_removes_only_mp3 env w :
  (clearPreviousAudio env w).1 = Returned tt
  ∧ instant (clearPreviousAudio env w).2 = instant w
  ∧ calls (clearPreviousAudio env w).2 = calls w
  ∧ (∀ file, endsWith file (js ".mp3") = false →
             aud_op (clearPreviousAudio env w).2 !! file = aud_op w !! file)
  ∧ (∀ file, aud_op (clearPreviousAudio env w).2 !! file = aud_op w !! file
             ∨ aud_op (clearPreviousAudio env w).2 !! file = None)
  ∧ (clearing_succeeds env w →
     ∀ file, endsWith file (js ".mp3") = true →
             aud_op (clearPreviousAudio env w).2 !! file = None).
Proof.
  destruct (clearPreviousAudio_run env w) as (Hrun & _ & _).
  rewrite Hrun. cbn [fst snd instant calls aud_op with_files].
  split; [done |]. split; [done |]. split; [done |].
  split; [intros file Hmp3; by apply cleared_keeps |].
  split.
  - intros file. destruct (cleared_lookup env w file) as [? | [? _]]; auto.
  - intros Hclear file Hmp3. by rewrite cleared_all, Hmp3.
Qed.

Lemma clearPreviousAudio_removes_only_mp3_witness :
  aud_op (clearPreviousAudio calm_env sample_world).2 !! js "old.mp3" = None
  ∧ aud_op (clearPreviousAudio calm_env sample_world).2 !! js "notes.txt" = Some [].
Proof.
  destruct (clearPreviousAudio_removes_only_mp3 calm_env sample_world)
    as (_ & _ & _ & Hkept & _ & Hgone).
  split.
  - apply Hgone; [| reflexivity]. split; [reflexivity | intros; reflexivity].
  - rewrite Hkept by reflexivity. reflexivity.
Defined.

(** X5. synthesizeSpeech never rejects: whatever the services and the file
    system answer, it resolves to a result object. *)
Theorem synthesizeSpeech_always_resolves textInput options env w :
  ∃ result, (synthesizeSpeech textInput options env w).1 = Returned result.
Proof.
  rewrite synthesizeSpeech_run. cbv zeta.
  destruct (polly_synthesize env _ _) as [chunks | message]; [| by eexists].
  destruct (fs_write_error env _ _) as [message |]; [by eexists |].
  destruct (s3_put env _ _) as [[] | message]; by eexists.
Qed.

(** X6. When the synthesis service raises, synthesizeSpeech reports its
    message, sends nothing to the object store and writes no file: the
    directory is as clearPreviousAudio left it.  So the audio files of
    earlier runs that the clearing removed are gone all the same; when the
    clearing met no error, no .mp3 file is left. *)
Theorem failed_synthesis_loses_previous_audio textInput options env w message :
  polly_synthesize env (instant w) (speech_params textInput options) = Raised message →
  (synthesizeSpeech textInput options env w).1 = Returned (SpeechFailure message)
  ∧ new_calls w (synthesizeSpeech textInput options env w).2
    = [SynthesizeSpeech (speech_params textInput options) (Raised message)]
  ∧ aud_op (synthesizeSpeech textInput options env w).2
    = aud_op (clearPreviousAudio env w).2
  ∧ (clearing_succeeds env w →
     ∀ file, endsWith file (js ".mp3") = true →
             aud_op (synthesizeSpeech textInput options env w).2 !! file = None).
Proof.
  intros Hpolly. rewrite synthesizeSpeech_run. cbv zeta. rewrite Hpolly. cbn [fst snd].
  split; [done |]. split; [by apply new_calls_app |]. split; [done |].
  intros Hclear file Hmp3. cbn. by rewrite cleared_all, Hmp3.
Qed.

Lemma failed_synthesis_loses_previous_audio_witness :
  let env := with_failing_synthesis (js "Throttled") calm_env in
  let run := synthesizeSpeech (js "Hello.") no_options env sample_world in
  is_Some (aud_op sample_world !! js "old.mp3")
  ∧ run.1 = Returned (SpeechFailure (js "Throttled"))
  ∧ aud_op run.2 !! js "old.mp3" = None.
Proof.
  intros env run.
  destruct (failed_synthesis_loses_previous_audio (js "Hello.") no_options env
              sample_world (js "Throttled")) as (Ho & _ & _ & Hgone).
  - reflexivity.
  - split; [by eexists |]. split; [exact Ho |].
    apply Hgone; [| reflexivity]. split; [reflexivity | intros; reflexivity].
Defined.

(** X7. A success result tells what was done: the bytes stored under the
    reported key in the reported bucket are the audio the synthesis service
    returned; for a plain local file name, the file of that name in the
    directory holds the same bytes; the storage URL is built from the bucket
    and the key, the relative path from the local name, and the local path
    is path.join of the directory and the local name; and these two
    requests are all that was sent. *)
Theorem success_result_is_consistent textInput options env w w'
        localFileName localFilePath relativePath s3FileName bucket s3Url message :
  synthesizeSpeech textInput options env w
  = (Returned (SpeechSuccess localFileName localFilePath relativePath s3FileName
                 bucket s3Url message), w') →
  ∃ chunks,
    new_calls w w'
    = [SynthesizeSpeech (speech_params textInput options) (Responded chunks);
       PutObject {| Bucket := bucket; Key := s3FileName;
                    Body := BufferBody (concat chunks);
                    ContentType := js "audio/mpeg" |} (Responded tt)]
    ∧ (is_plain_name localFileName = true →
       aud_op w' !! localFileName = Some (concat chunks))
    ∧ s3Url = js "s3://" ++ bucket ++ js "/" ++ s3FileName
    ∧ relativePath = js "public/aud_op/" ++ localFileName
    ∧ localFilePath = path_join (audioOutputDir env) localFileName.
Proof.
  intros Hrun. rewrite synthesizeSpeech_run in Hrun. cbv zeta in Hrun.
  destruct (polly_synthesize env _ _) as [chunks | failure]; [| by simplify_eq].
  destruct (fs_write_error env _ _) as [failure |]; [by simplify_eq |].
  destruct (s3_put env _ _) as [[] | failure] eqn:Hput; [| by simplify_eq].
  injection Hrun as <- <- <- <- <- <- <- <-. exists chunks.
  split.
  { apply new_calls_app. cbn. by rewrite <- app_assoc. }
  split; [intros _; cbn; by rewrite lookup_insert_eq |]. done.
Qed.

Lemma success_result_is_consistent_witness :
  let run := synthesizeSpeech (js "Hello.") no_options calm_env sample_world in
  ∃ chunks,
    new_calls sample_world run.2
    = [SynthesizeSpeech (speech_params (js "Hello.") no_options) (Responded chunks);
       PutObject {| Bucket := js "mint-out";
                    Key := js "polly-output-1700000000001.mp3";
                    Body := BufferBody (concat chunks);
                    ContentType := js "audio/mpeg" |} (Responded tt)]
    ∧ aud_op run.2 !! js "current_audio.mp3" = Some (concat chunks).
Proof.
  intros run.
  destruct (success_result_is_consistent (js "Hello.") no_options calm_env
              sample_world run.2
              (js "current_audio.mp3")
              (js "/app/public/aud_op/current_audio.mp3")
              (js "public/aud_op/current_audio.mp3")
              (js "polly-output-1700000000001.mp3")
              (js "mint-out")
              (js "s3://mint-out/polly-output-1700000000001.mp3")
              (js "Speech synthesized, saved locally to aud_op folder AND uploaded to S3 successfully"))
    as (chunks & Hcalls & Hfile & _).
  - vm_compute. reflexivity.
  - exists chunks. split; [exact Hcalls | apply Hfile; reflexivity].
Defined.

(** The text of the reference limit: 2500 units and the marker at most. *)
Lemma polly_text_bound textInput :
  (str_length (truncateTextForPolly textInput defaultMaxLength) <= 2503)%Z.
Proof.
  rewrite truncate_unfold. unfold defaultMaxLength.
  destruct (Z.leb_spec (str_length textInput) 2500) as [Hle | Hgt]; [lia |].
  cbv zeta. unfold str_length in *.
  repeat match goal with |- context [if ?b then _ else _] => destruct b end;
    rewrite ?length_app, ?length_take; change (length ellipsis) with 3%nat; lia.
Qed.

(** X8. The text synthesizeSpeech sends to the synthesis service is never
    longer than 2503 units, and it is the caller's text itself when that has
    at most 2500 units. *)
Theorem synthesized_text_is_bounded textInput options env w params reply :
  SynthesizeSpeech params reply
    ∈ new_calls w (synthesizeSpeech textInput options env w).2 →
  (str_length (Text params) <= 2503)%Z
  ∧ ((str_length textInput <= 2500)%Z → Text params = textInput).
Proof.
  rewrite synthesizeSpeech_run. cbv zeta.
  assert (Hsent : params = speech_params textInput options →
                  (str_length (Text params) <= 2503)%Z
                  ∧ ((str_length textInput <= 2500)%Z → Text params = textInput)).
  { intros ->. cbn [Text speech_params]. split; [apply polly_text_bound |].
    intros Hshort. unfold truncateTextForPolly, defaultMaxLength.
    by destruct (Z.leb_spec (str_length textInput) 2500); [| lia]. }
  destruct (polly_synthesize env _ _) as [chunks | message].
  - destruct (fs_write_error env _ _) as [message |].
    { cbn [snd]. rewrite (new_calls_app w _ [_]) by done.
      intros Hin%list_elem_of_singleton. apply Hsent. by simplify_eq. }
    destruct (s3_put env _ _) as [[] | message]; cbn [snd].
    all: rewrite (new_calls_app w _ [_; _]) by (cbn; by rewrite <- app_assoc).
    all: intros [Hin | Hin%list_elem_of_singleton]%elem_of_cons;
      [apply Hsent; by simplify_eq | discriminate Hin].
  - cbn [snd]. rewrite (new_calls_app w _ [_]) by done.
    intros Hin%list_elem_of_singleton. apply Hsent. by simplify_eq.
Qed.

Lemma synthesized_text_is_bounded_witness :
  (str_length (Text (speech_params (js "Hello.") no_options)) <= 2503)%Z
  ∧ ((str_length (js "Hello.") <= 2500)%Z
     → Text (speech_params (js "Hello.") no_options) = js "Hello.").
Proof.
  apply (synthesized_text_is_bounded (js "Hello.") no_options calm_env sample_world
           (speech_params (js "Hello.") no_options) (Responded [[x00]])).
  vm_compute. apply list_elem_of_In. left. reflexivity.
Defined.

(** X9. With a plain output file name, synthesizeSpeech touches no file
    other than the .mp3 files and the output file: any other file of the
    directory is as it was, whatever the services and the file system
    answer. *)
Theorem synthesizeSpeech_keeps_other_files textInput options env w file :
  is_plain_name (default default_outputFileName (outputFileName options)) = true →
  endsWith file (js ".mp3") = false →
  file ≠ default default_outputFileName (outputFileName options) →
  aud_op (synthesizeSpeech textInput options env w).2 !! file = aud_op w !! file.
Proof.
  intros _ Hmp3 Hne. rewrite synthesizeSpeech_run. cbv zeta.
  destruct (polly_synthesize env _ _) as [chunks | message].
  - destruct (fs_write_error env _ _) as [message |].
    { cbn. by apply cleared_keeps. }
    destruct (s3_put env _ _) as [[] | message]; cbn.
    all: rewrite lookup_insert_ne by done; by apply cleared_keeps.
  - cbn. by apply cleared_keeps.
Qed.

Lemma synthesizeSpeech_keeps_other_files_witness :
  aud_op (synthesizeSpeech (js "Hello.") no_options calm_env sample_world).2
    !! js "notes.txt"
  = aud_op sample_world !! js "notes.txt".
Proof.
  apply (synthesizeSpeech_keeps_other_files (js "Hello.") no_options calm_env
           sample_world (js "notes.txt")).
  - reflexivity.
  - reflexivity.
  - vm_compute. discriminate.
Defined.

End PolMore.

(** ** graniteLLM.js: more on generateTextWithGranite *)

Section GraniteMore.
Import GraniteLLM.
Implicit Types (w : World) (env : Env) (response : jsval) (s t : jsstr).

Lemma trim_start_head s c :
  head (trim_start s) = Some c → is_white_space c = false.
Proof.
  induction s as [| x s IH]; simpl; [done |].
  destruct (is_white_space x) eqn:Hx; [done |]. simpl. by intros [= <-].
Qed.

Lemma trim_start_suffix s : trim_start s `suffix_of` s.
Proof.
  induction s as [| x s IH]; simpl; [done |].
  destruct (is_white_space x); [by apply suffix_cons_r | done].
Qed.

(** What [trim] returns neither begins nor ends with white space. *)
Lemma trim_ends s c :
  head (trim s) = Some c ∨ last (trim s) = Some c → is_white_space c = false.
Proof.
  unfold trim. rewrite head_reverse, last_reverse. intros [Hlast | Hhead].
  - destruct (trim_start_suffix (reverse (trim_start s))) as [k Hk].
    set (X := trim_start (reverse (trim_start s))) in *.
    assert (last (reverse (trim_start s)) = Some c) as Hc.
    { rewrite Hk, last_app, Hlast. done. }
    rewrite last_reverse in Hc. by eapply trim_start_head.
  - by eapply trim_start_head.
Qed.

Lemma read_generated_text_leaves response : leaves_world (read_generated_text response).
Proof. unfold read_generated_text, mbind, promise_bind. auto 20 with world. Qed.

(** What a call of [generateTextWithGranite] does, case by case. *)
Lemma generateTextWithGranite_run inputText options env w :
  generateTextWithGranite inputText options env w =
    if bool_decide (inputText = []) then
      (Thrown (granite_error_prefix
                 ++ js "Input text is required and must be a string"), w)
    else if watsonx_client env then
      let params := generate_params env inputText options in
      let reply := watsonx_generateText env (instant w) params in
      let w1 := tick (log (GenerateText params reply) w) in
      match reply with
      | Responded response =>
          (match (read_generated_text response env w1).1 with
           | Returned text => Returned text
           | Thrown message => Thrown (granite_error_prefix ++ message)
           | Pending => Pending
           end, w1)
      | Raised message => (Thrown (granite_error_prefix ++ message), w1)
      end
    else
      (Thrown (granite_error_prefix
                 ++ js "Watsonx client not initialized. Ensure WATSONX_AI_APIKEY and WATSONX_AI_URL are set."),
       w).
Proof.
  unfold generateTextWithGranite. run.
  destruct (bool_decide (inputText = [])); [done |].
  destruct (watsonx_client env); [| done].
  destruct (watsonx_generateText env _ _) as [response | message]; [| done].
  rewrite (leaves_world_run _ _ _ (read_generated_text_leaves response)).
  by destruct (read_generated_text response env _).1.
Qed.

(** X10. generateTextWithGranite refuses an empty text, and any text when
    the Watsonx client could not be constructed, before asking the service:
    it throws the wrapped message and nothing is sent. *)
Theorem generation_refused_before_sending inputText options env w :
  (inputText = [] →
   generateTextWithGranite inputText options env w
   = (Thrown (js "Watsonx Granite LLM error: Input text is required and must be a string"),
      w))
  ∧ (inputText ≠ [] → watsonx_client env = false →
     generateTextWithGranite inputText options env w
     = (Thrown (js "Watsonx Granite LLM error: Watsonx client not initialized. Ensure WATSONX_AI_APIKEY and WATSONX_AI_URL are set."),
        w)).
Proof.
  rewrite generateTextWithGranite_run. split.
  - intros ->. done.
  - intros Hne Hclient. rewrite bool_decide_eq_false_2 by done.
    by rewrite Hclient.
Qed.

Lemma generation_refused_before_sending_witness :
  generateTextWithGranite [] no_options calm_env sample_world
  = (Thrown (js "Watsonx Granite LLM error: Input text is required and must be a string"),
     sample_world)
  ∧ generateTextWithGranite (js "Hello") no_options (without_watsonx_client calm_env)
      sample_world
    = (Thrown (js "Watsonx Granite LLM error: Watsonx client not initialized. Ensure WATSONX_AI_APIKEY and WATSONX_AI_URL are set."),
       sample_world).
Proof.
  split.
  - apply (generation_refused_before_sending [] no_options calm_env sample_world).
    reflexivity.
  - apply (generation_refused_before_sending (js "Hello") no_options
             (without_watsonx_client calm_env) sample_world).
    + discriminate.
    + reflexivity.
Defined.

(** X11. generateTextWithGranite settles in one of two ways: it returns a
    text, or it throws a message that begins with 'Watsonx Granite LLM
    error: ', whatever went wrong (input, configuration, the service, the
    shape of the response). *)
Theorem generation_errors_are_wrapped inputText options env w :
  (∃ text, (generateTextWithGranite inputText options env w).1 = Returned text)
  ∨ (∃ cause, (generateTextWithGranite inputText options env w).1
              = Thrown (js "Watsonx Granite LLM error: " ++ cause)).
Proof.
  rewrite generateTextWithGranite_run.
  destruct (bool_decide (inputText = [])); [right; by eexists |].
  destruct (watsonx_client env); [| right; by eexists].
  cbv zeta.
  destruct (watsonx_generateText env _ _) as [response | message];
    [| right; by eexists].
  cbn [fst].
  destruct (read_generated_text_leaves response env
              (tick (log (GenerateText (generate_params env inputText options)
                            (Responded response)) w))) as [_ Hsettles].
  destruct (read_generated_text response env _).1 as [text | message |];
    [left | right | done]; by eexists.
Qed.

(** X12. generateTextWithGranite sends at most one request; the request
    carries the caller's text unchanged as its input, asks for a number of
    new tokens that is never 0, and its reply is the one the function acts
    on. *)
Theorem generation_sends_one_request inputText options env w :
  let sent := new_calls w (generateTextWithGranite inputText options env w).2 in
  sent = []
  ∨ ∃ params,
      sent = [GenerateText params (watsonx_generateText env (instant w) params)]
      ∧ input params = inputText
      ∧ max_new_tokens params ≠ 0%Z.
Proof.
  intros sent. subst sent. rewrite generateTextWithGranite_run.
  destruct (bool_decide (inputText = [])); [left; apply new_calls_same |].
  destruct (watsonx_client env); [| left; apply new_calls_same].
  right. exists (generate_params env inputText options). cbv zeta.
  split.
  { by destruct (watsonx_generateText env _ _); apply new_calls_app. }
  split; [done |]. cbn.
  destruct (opt_max_new_tokens options) as [n |]; [| done].
  by destruct (Z.eqb_spec n 0).
Qed.

Lemma member_length items :
  member (Arr items) (js "length") = Some (Num (Z.of_nat (length items))).
Proof. reflexivity. Qed.

Lemma member_first (x : jsval) rest : member (Arr (x :: rest)) (js "0") = Some x.
Proof. reflexivity. Qed.

(** Only objects and arrays have members that are objects or arrays. *)
Lemma member_of_object v name x :
  member v name = Some x →
  match x with Arr _ | Obj _ => True | _ => False end →
  match v with Arr _ | Obj _ => True | _ => False end.
Proof.
  destruct v as [| | b | n | s | items | fields]; simpl; try done.
  - intros [= <-]. done.
  - intros [= <-]. done.
  - case_bool_decide; [by intros [= <-] |].
    destruct (element s name 0); by intros [= <-].
Qed.

(** The members that lead to [response.result.name], when that is an
    object or an array. *)
Lemma result_field_object response name x :
  result_field response name = x →
  match x with Arr _ | Obj _ => True | _ => False end →
  ∃ result,
    member response (js "result") = Some result
    ∧ member result name = Some x
    ∧ truthy response = true ∧ truthy result = true.
Proof.
  unfold result_field. intros Hx Hobj.
  destruct (member response (js "result")) as [result |] eqn:Hresult;
    cbn [from_option id] in Hx; [| subst x; by destruct Hobj].
  destruct (member result name) as [y |] eqn:Hy; cbn [from_option id] in Hx;
    [| subst x; by destruct Hobj].
  subst y. exists result.
  pose proof (member_of_object _ _ _ Hy Hobj) as Hresult_obj.
  pose proof (member_of_object _ _ _ Hresult Hresult_obj) as Hresponse_obj.
  split; [done |]. split; [done |].
  split; [by destruct response | by destruct result].
Qed.

(** The results shape: the first generated text, trimmed. *)
Lemma read_generated_text_results response env w first rest t :
  result_field response (js "results") = Arr (first :: rest) →
  member first (js "generated_text") = Some (Str t) →
  read_generated_text response env w = (Returned (trim t), w).
Proof.
  intros Hres Hfirst.
  destruct (result_field_object _ _ _ Hres I)
    as (result & Hresult & Hresults & Htruthy & Hresult_truthy).
  unfold read_generated_text, and_also, mbind, promise_bind, mret, promise_ret.
  cbn [read_path]. unfold read, bind, ret.
  rewrite Htruthy, Hresult, Hresult_truthy, Hresults.
  cbn [isArray truthy]. rewrite member_length, member_first, Hfirst.
  done.
Qed.

(** X13. When the service responds with a results array whose first
    element carries a string generated_text, generateTextWithGranite returns
    that string with the white space at both ends removed: the returned
    text neither begins nor ends with white space. *)
Theorem generated_text_is_trimmed inputText options env w o w' params response
        first rest t :
  generateTextWithGranite inputText options env w = (o, w') →
  GenerateText params (Responded response) ∈ new_calls w w' →
  result_field response (js "results") = Arr (first :: rest) →
  member first (js "generated_text") = Some (Str t) →
  o = Returned (trim t)
  ∧ ∀ c, head (trim t) = Some c ∨ last (trim t) = Some c → is_white_space c = false.
Proof.
  intros Hrun Hcall Hres Hfirst. split; [| apply trim_ends].
  rewrite generateTextWithGranite_run in Hrun.
  destruct (bool_decide (inputText = [])).
  { simplify_eq. rewrite new_calls_same in Hcall. by apply elem_of_nil in Hcall. }
  destruct (watsonx_client env).
  2: { simplify_eq. rewrite new_calls_same in Hcall. by apply elem_of_nil in Hcall. }
  cbv zeta in Hrun.
  destruct (watsonx_generateText env _ _) as [answer | failure]; simplify_eq.
  all: rewrite (new_calls_app w _ [_]) in Hcall by done.
  all: apply list_elem_of_singleton in Hcall; simplify_eq.
  by rewrite (read_generated_text_results _ _ _ first rest t).
Qed.

Lemma generated_text_is_trimmed_witness :
  (generateTextWithGranite (js "I feel anxious.") no_options calm_env sample_world).1
  = Returned (js "Breathe slowly.").
Proof.
  set (run := generateTextWithGranite (js "I feel anxious.") no_options calm_env
                sample_world).
  destruct (generated_text_is_trimmed (js "I feel anxious.") no_options calm_env
              sample_world run.1 run.2
              (generate_params calm_env (js "I feel anxious.") no_options)
              (Obj [(js "result",
                     Obj [(js "results",
                           Arr [Obj [(js "generated_text",
                                      Str (js " Breathe slowly. "))]])])])
              (Obj [(js "generated_text", Str (js " Breathe slowly. "))]) []
              (js " Breathe slowly. ")) as [Ho _].
  - apply surjective_pairing.
  - vm_compute. apply list_elem_of_In. left. reflexivity.
  - reflexivity.
  - reflexivity.
  - exact Ho.
Defined.

(** The generations shape: the text of the first generation, trimmed. *)
Lemma read_generated_text_generations response env w g rest t :
  ¬ has_results response →
  result_field response (js "generations") = Arr (g :: rest) →
  truthy g = true →
  member g (js "text") = Some (Str t) →
  read_generated_text response env w = (Returned (trim t), w).
Proof.
  intros Hnone Hgen Hg Htext.
  destruct (result_field_object _ _ _ Hgen I)
    as (result & Hresult & Hgenerations & Htruthy & Hresult_truthy).
  assert (Hresults : ∃ results, member result (js "results") = Some results
                                ∧ ∀ x l, results ≠ Arr (x :: l)).
  { destruct (member result (js "results")) as [results |] eqn:E;
      [| by destruct result].
    exists results. split; [done |]. intros x l ->.
    apply Hnone. exists x, l. unfold result_field. by rewrite Hresult; cbn; rewrite E. }
  destruct Hresults as (results & Hresults & Hshape).
  unfold read_generated_text, and_also, mbind, promise_bind, mret, promise_ret.
  cbn [read_path]. unfold read, bind, ret.
  rewrite Htruthy, Hresult, Hresult_truthy, Hresults, Hgenerations.
  destruct results as [| | | | | [| x l] |]; cbn [isArray truthy];
    rewrite ?member_length, ?member_first, ?Hg, ?Htext; cbn; rewrite ?Hresult_truthy;
    cbn; rewrite ?Hgenerations, ?member_first, ?Hg, ?Htext; try done.
  all: try by destruct (Hshape x l).
  all: try (change (Z.of_nat 0 =? 0)%Z with true; cbn [negb]).
  all: by case_bool_decide; subst.
Qed.

(** X14. When the response has no results array with an element but has a
    generations array whose first element carries a string text,
    generateTextWithGranite returns that string with the white space at both
    ends removed. *)
Theorem generations_text_is_the_fallback inputText options env w o w' params response
        g rest t :
  generateTextWithGranite inputText options env w = (o, w') →
  GenerateText params (Responded response) ∈ new_calls w w' →
  ¬ has_results response →
  result_field response (js "generations") = Arr (g :: rest) →
  truthy g = true →
  member g (js "text") = Some (Str t) →
  o = Returned (trim t).
Proof.
  intros Hrun Hcall Hnone Hgen Hg Htext.
  rewrite generateTextWithGranite_run in Hrun.
  destruct (bool_decide (inputText = [])).
  { simplify_eq. rewrite new_calls_same in Hcall. by apply elem_of_nil in Hcall. }
  destruct (watsonx_client env).
  2: { simplify_eq. rewrite new_calls_same in Hcall. by apply elem_of_nil in Hcall. }
  cbv zeta in Hrun.
  destruct (watsonx_generateText env _ _) as [answer | failure]; simplify_eq.
  all: rewrite (new_calls_app w _ [_]) in Hcall by done.
  all: apply list_elem_of_singleton in Hcall; simplify_eq.
  by rewrite (read_generated_text_generations _ _ _ g rest t).
Qed.

Lemma generations_text_is_the_fallback_witness :
  let response :=
    Obj [(js "result",
          Obj [(js "generations", Arr [Obj [(js "text", Str (js " You are safe. "))]])])] in
  let env := sample_env running_clock (λ _, job_with_status "COMPLETED")
               (Responded tt) (λ _, Responded tt) (Responded response) in
  (generateTextWithGranite (js "I feel anxious.") no_options env sample_world).1
  = Returned (js "You are safe.").
Proof.
  intros response env.
  set (run := generateTextWithGranite (js "I feel anxious.") no_options env sample_world).
  apply (generations_text_is_the_fallback (js "I feel anxious.") no_options env
           sample_world run.1 run.2
           (generate_params env (js "I feel anxious.") no_options) response
           (Obj [(js "text", Str (js " You are safe. "))]) []
           (js " You are safe. ")).
  - apply surjective_pairing.
  - vm_compute. apply list_elem_of_In. left. reflexivity.
  - intros (first & others & H). vm_compute in H. discriminate H.
  - reflexivity.
  - reflexivity.
  - reflexivity.
Defined.

End GraniteMore.

(** ** transcribe.js: more on the revision that checks first *)

Section TranscribeCheckedMore.
Import TranscribeChecked.
Implicit Types (w : World) (env : Env) (jobName audioFile s : jsstr).

Lemma starts_with_spec pat s :
  starts_with pat s = true ↔ ∃ rest, s = pat ++ rest.
Proof.
  revert s. induction pat as [| p pat IH]; intros s; simpl.
  - split; [by exists s | done].
  - destruct s as [| x s]; [split; [done | by intros [? ?]] |].
    rewrite andb_true_iff, N.eqb_eq, IH. split.
    + intros [-> [rest ->]]. by exists rest.
    + intros [rest [= -> ->]]. split; [done | by exists rest].
Qed.

Lemma until_slash_spec s :
  s = (until_slash s).1 ++ (until_slash s).2
  ∧ (slash ∉ (until_slash s).1)
  ∧ ((until_slash s).2 = [] ∨ ∃ tail, (until_slash s).2 = slash :: tail).
Proof.
  unfold slash.
  induction s as [| c s (IH1 & IH2 & IH3)]; simpl.
  - split; [done |]. split; [apply not_elem_of_nil | by left].
  - destruct (N.eqb_spec c 47) as [-> | Hne]; simpl.
    + split; [done |]. split; [apply not_elem_of_nil | right; by eexists].
    + destruct (until_slash s) as [run tail]; simpl in *.
      split; [by f_equal |]. split; [| done].
      rewrite not_elem_of_cons. by split.
Qed.

Lemma until_slash_app run tail :
  slash ∉ run → until_slash (run ++ slash :: tail) = (run, slash :: tail).
Proof.
  unfold slash.
  induction run as [| c run IH]; intros Hnot; simpl; [done |].
  apply not_elem_of_cons in Hnot as [Hne Hnot].
  destruct (N.eqb_spec c 47) as [-> | _]; [done |]. by rewrite IH.
Qed.

(** X15. The locator test of startTranscription accepts exactly the
    strings made of 's3://', a non-empty bucket name without a slash, a
    slash, and a key whose first unit is not a line terminator. *)
Theorem s3_uri_test_accepts s :
  s3_uri_test s = true
  ↔ ∃ bucket c rest,
      s = js "s3://" ++ bucket ++ slash :: c :: rest
      ∧ bucket ≠ [] ∧ (slash ∉ bucket) ∧ is_line_terminator c = false.
Proof.
  unfold s3_uri_test. rewrite andb_true_iff, starts_with_spec. split.
  - intros [[after ->] Hrest].
    change (drop 5 (js "s3://" ++ after)) with after in Hrest.
    destruct (until_slash_spec after) as (Hsplit & Hnot & Htail).
    destruct (until_slash after) as [bucket tail]; simpl in *.
    destruct bucket as [| b bucket]; [done |].
    destruct tail as [| first [| c rest]]; [done | done |].
    destruct Htail as [? | [tail' [= -> _]]]; [done |].
    exists (b :: bucket), c, rest. rewrite Hsplit.
    split; [done |]. split; [done |]. split; [done |].
    by apply negb_true_iff.
  - intros (bucket & c & rest & -> & Hne & Hnot & Hc). split; [by eexists |].
    change (drop 5 (js "s3://" ++ bucket ++ slash :: c :: rest))
      with (bucket ++ slash :: c :: rest).
    rewrite until_slash_app by done.
    destruct bucket; [done |]. by rewrite Hc.
Qed.

Lemma s3_uri_test_accepts_witness :
  s3_uri_test (js "s3://mint-in/recording-1.mp3") = true.
Proof.
  apply (s3_uri_test_accepts (js "s3://mint-in/recording-1.mp3")).
  exists (js "mint-in"), 114%N, (js "ecording-1.mp3").
  split; [reflexivity |]. split; [discriminate |]. split; [| reflexivity].
  vm_compute. intros H. apply list_elem_of_In in H. simpl in H.
  repeat (destruct H as [H | H]; [discriminate H |]). exact H.
Defined.

(** What a call of the checking [startTranscription] does, case by case. *)
Lemma checks_first_run jobName audioFile env w :
  startTranscription jobName audioFile env w =
    if s3_uri_test (js "s3://mint-in/" ++ audioFile) then
      let found := s3_head env (instant w) (js "mint-in") audioFile in
      let w1 := tick (log (HeadObject (js "mint-in") audioFile found) w) in
      match found with
      | Raised message =>
          (Thrown (js "S3 object not found or inaccessible: s3://mint-in/"
                     ++ audioFile ++ js " -- " ++ message), w1)
      | Responded _ =>
          let params := checked_params env jobName audioFile in
          let reply := transcribe_start env (instant w1) params in
          (match reply with
           | Responded _ => Returned tt
           | Raised message => Thrown message
           end,
           tick (log (StartTranscriptionJob params reply) w1))
      end
    else
      (Thrown (js "Invalid S3 URI constructed for Transcribe: s3://mint-in/"
                 ++ audioFile), w).
Proof.
  unfold startTranscription.
  change (MediaFileUri (TranscribeShared.start_params bucketName jobName audioFile))
    with (js "s3://mint-in/" ++ audioFile).
  assert (bool_decide (js "s3://mint-in/" ++ audioFile = []) = false) as ->
    by by apply bool_decide_eq_false_2.
  cbn [orb]. destruct (s3_uri_test _); [| done]. cbn [negb]. run.
  change bucketName with (js "mint-in").
  destruct (s3_head env _ _ _) as [[] | message]; [| done].
  cbv zeta. unfold checked_params, role_arn.
  destruct (process_env env _) as [[| c arn] |];
    by destruct (transcribe_start env _ _) as [[] | ?].
Qed.

(** X16. The checking startTranscription never submits a job it has not
    verified: whenever a submission is sent, the file name is not empty, the
    store has confirmed the object just before, nothing else was sent, and
    the submission names the job, that object in bucket mint-in, the output
    bucket, and the access role of the environment if there is one. *)
Theorem submission_is_verified jobName audioFile env w params reply :
  StartTranscriptionJob params reply
    ∈ new_calls w (startTranscription jobName audioFile env w).2 →
  audioFile ≠ []
  ∧ new_calls w (startTranscription jobName audioFile env w).2
    = [HeadObject (js "mint-in") audioFile (Responded tt);
       StartTranscriptionJob params reply]
  ∧ TranscriptionJobName params = jobName
  ∧ MediaFileUri params = js "s3://mint-in/" ++ audioFile
  ∧ OutputBucketName params = js "mint-in"
  ∧ DataAccessRoleArn params = role_arn env.
Proof.
  rewrite checks_first_run, checked_locator_test.
  destruct audioFile as [| c rest].
  { rewrite new_calls_same. by intros ?%elem_of_nil. }
  destruct (negb (is_line_terminator c)).
  2: { rewrite new_calls_same. by intros ?%elem_of_nil. }
  cbv zeta.
  destruct (s3_head env _ _ _) as [[] | message]; cbn [snd].
  - rewrite (new_calls_app w _ [_; _]) by (cbn; by rewrite <- app_assoc).
    intros [Hin | Hin%list_elem_of_singleton]%elem_of_cons; [discriminate Hin |].
    injection Hin as -> ->. done.
  - rewrite (new_calls_app w _ [_]) by done.
    intros Hin%list_elem_of_singleton. discriminate Hin.
Qed.

Lemma submission_is_verified_witness :
  let run := startTranscription (js "MyTranscriptionJob-1") (js "recording-1.mp3")
               calm_env sample_world in
  new_calls sample_world run.2
  = [HeadObject (js "mint-in") (js "recording-1.mp3") (Responded tt);
     StartTranscriptionJob
       (checked_params calm_env (js "MyTranscriptionJob-1") (js "recording-1.mp3"))
       (Responded tt)].
Proof.
  intros run.
  destruct (submission_is_verified (js "MyTranscriptionJob-1") (js "recording-1.mp3")
              calm_env sample_world
              (checked_params calm_env (js "MyTranscriptionJob-1") (js "recording-1.mp3"))
              (Responded tt)) as (_ & Hcalls & _).
  - vm_compute. apply list_elem_of_In. right. left. reflexivity.
  - exact Hcalls.
Defined.

(** X17. The checking startTranscription reports what it could not
    verify, and submits nothing then: for a file name that is empty or
    begins with a line terminator it throws 'Invalid S3 URI constructed for
    Transcribe: ' with the locator, before anything is sent; when the store
    answers the existence check with an error it throws 'S3 object not found
    or inaccessible: ' with the locator and the store's message, the check
    being the only request sent. *)
Theorem unverified_source_is_reported jobName audioFile env w :
  (audioFile = [] ∨ (∃ c rest, audioFile = c :: rest ∧ is_line_terminator c = true) →
   startTranscription jobName audioFile env w
   = (Thrown (js "Invalid S3 URI constructed for Transcribe: s3://mint-in/"
                ++ audioFile), w))
  ∧ (∀ c rest message,
       audioFile = c :: rest → is_line_terminator c = false →
       s3_head env (instant w) (js "mint-in") audioFile = Raised message →
       (startTranscription jobName audioFile env w).1
       = Thrown (js "S3 object not found or inaccessible: s3://mint-in/"
                   ++ audioFile ++ js " -- " ++ message)
       ∧ new_calls w (startTranscription jobName audioFile env w).2
         = [HeadObject (js "mint-in") audioFile (Raised message)]).
Proof.
  rewrite checks_first_run, checked_locator_test. split.
  - intros [-> | (c & rest & -> & Hc)]; [done | by rewrite Hc].
  - intros c rest message -> Hc Hhead. rewrite Hc. cbv zeta.
    rewrite Hhead. cbn [fst snd negb]. split; [done | by apply new_calls_app].
Qed.

Lemma unverified_source_is_reported_witness :
  let env := sample_env running_clock (λ _, job_with_status "COMPLETED")
               (Raised (js "NotFound")) (λ _, Responded tt) (generated_reply "ok") in
  startTranscription (js "MyTranscriptionJob-1") [] env sample_world
  = (Thrown (js "Invalid S3 URI constructed for Transcribe: s3://mint-in/"), sample_world)
  ∧ (startTranscription (js "MyTranscriptionJob-1") (js "missing.mp3") env sample_world).1
    = Thrown (js "S3 object not found or inaccessible: s3://mint-in/missing.mp3 -- NotFound").
Proof.
  intros env. split.
  - apply (unverified_source_is_reported (js "MyTranscriptionJob-1") [] env sample_world).
    left. reflexivity.
  - apply (unverified_source_is_reported (js "MyTranscriptionJob-1") (js "missing.mp3")
             env sample_world) with (c := 109%N) (rest := js "issing.mp3");
      reflexivity.
Defined.

End TranscribeCheckedMore.

(** ** transcribe.js: more on polling and on the transcript *)

Section TranscribeSharedMore.
Import TranscribeShared.
Implicit Types (w : World) (env : Env) (jobName : jsstr).

(** While the polls find the job running, the loop goes on: [k] such
    polls use up [k] rounds, [2 * k] instants, and leave the rest of the
    loop to run. *)
Lemma wait_skips_running_polls k n jobName env w :
  (∀ j, j < k →
        ∃ running, transcribe_get env (instant w + 2 * j) jobName = Responded running
                   ∧ still_running running) →
  ∃ wk new,
    waitForCompletion (k + n) jobName env w = waitForCompletion n jobName env wk
    ∧ calls wk = calls w ++ new
    ∧ length new = k
    ∧ Forall (is_running_poll_of jobName) new
    ∧ instant wk = instant w + 2 * k
    ∧ aud_op wk = aud_op w.
Proof.
  revert w. induction k as [| k IH]; intros w Hrunning.
  - exists w, []. rewrite app_nil_r. repeat split; [done | lia].
  - destruct (Hrunning 0) as (running & Hget & Hnot_completed & Hnot_failed); [lia |].
    rewrite Nat.add_0_r in Hget.
    set (w1 := tick (tick (log (GetTranscriptionJob jobName (Responded running)) w))).
    destruct (IH w1) as (wk & new & Hrun & Hcalls & Hlen & Hall & Hinstant & Hfiles).
    { intros j Hj. destruct (Hrunning (S j)) as (r & Hr & ?); [lia |].
      exists r. split; [| done]. rewrite <- Hr. f_equal. cbn. lia. }
    exists wk, (GetTranscriptionJob jobName (Responded running) :: new).
    split.
    { rewrite <- Hrun. cbn [Nat.add waitForCompletion]. run. rewrite Hget.
      rewrite !bool_decide_eq_false_2 by done. done. }
    split; [rewrite Hcalls; cbn; by rewrite <- app_assoc |].
    split; [cbn; by rewrite Hlen |].
    split; [constructor; [by eexists | done] |].
    split; [rewrite Hinstant; cbn; lia | by rewrite Hfiles].
Qed.

(** X18. waitForCompletion returns as soon as a poll finds the job
    COMPLETED: after [k] polls that found it in any other status than
    COMPLETED and FAILED, the next poll ends the loop with the transcript
    locator of its reply, [k + 1] polls having been sent, all about this
    job. *)
Theorem polling_ends_when_completed polls jobName env w k info location :
  k < polls →
  (∀ j, j < k →
        ∃ running, transcribe_get env (instant w + 2 * j) jobName = Responded running
                   ∧ still_running running) →
  transcribe_get env (instant w + 2 * k) jobName = Responded info →
  TranscriptionJobStatus info = js "COMPLETED" →
  Transcript info = Some location →
  (waitForCompletion polls jobName env w).1 = Returned (TranscriptFileUri location)
  ∧ length (new_calls w (waitForCompletion polls jobName env w).2) = S k
  ∧ Forall (is_poll_of jobName) (new_calls w (waitForCompletion polls jobName env w).2).
Proof.
  intros Hk Hrunning Hget Hcompleted Hlocation.
  replace polls with (k + S (polls - S k)) by lia.
  destruct (wait_skips_running_polls k (S (polls - S k)) jobName env w Hrunning)
    as (wk & new & -> & Hcalls & Hlen & Hall & Hinstant & _).
  cbn [waitForCompletion]. run. rewrite Hinstant, Hget.
  rewrite bool_decide_eq_true_2 by done. rewrite Hlocation. cbn [fst snd].
  rewrite (new_calls_app w _ (new ++ [GetTranscriptionJob jobName (Responded info)]))
    by (cbn; by rewrite Hcalls, <- app_assoc).
  split; [done |]. split; [rewrite length_app; cbn; lia |].
  apply Forall_app. split; [| by repeat constructor; eexists].
  eapply Forall_impl; [exact Hall |]. intros c (job & -> & _). by eexists.
Qed.

Lemma polling_ends_when_completed_witness :
  let env := sample_env running_clock
               (λ t, if t <? 4 then job_with_status "IN_PROGRESS"
                     else job_with_status "COMPLETED")
               (Responded tt) (λ _, Responded tt) (generated_reply "ok") in
  let run := waitForCompletion 5 (js "MyTranscriptionJob-1") env sample_world in
  run.1 = Returned (Some (js "uri")) ∧ length (new_calls sample_world run.2) = 3.
Proof.
  intros env run.
  destruct (polling_ends_when_completed 5 (js "MyTranscriptionJob-1") env sample_world 2
              {| TranscriptionJobStatus := js "COMPLETED";
                 Transcript := Some {| TranscriptFileUri := Some (js "uri") |} |}
              {| TranscriptFileUri := Some (js "uri") |})
    as (Ho & Hlen & _).
  - lia.
  - intros j Hj. eexists. split.
    + destruct j as [| [| j]]; [reflexivity | reflexivity | lia].
    + split; vm_compute; discriminate.
  - reflexivity.
  - reflexivity.
  - reflexivity.
  - split; [exact Ho | exact Hlen].
Defined.

(** X19. waitForCompletion gives up at the first poll that finds the job
    FAILED or that the service answers with an error: after [k] polls that
    found the job running, it throws 'Transcription job failed.' in the one
    case and the service's message in the other, and polls no further. *)
Theorem polling_ends_on_failure polls jobName env w k :
  k < polls →
  (∀ j, j < k →
        ∃ running, transcribe_get env (instant w + 2 * j) jobName = Responded running
                   ∧ still_running running) →
  (∀ info,
     transcribe_get env (instant w + 2 * k) jobName = Responded info →
     TranscriptionJobStatus info = js "FAILED" →
     (waitForCompletion polls jobName env w).1 = Thrown (js "Transcription job failed.")
     ∧ length (new_calls w (waitForCompletion polls jobName env w).2) = S k)
  ∧ (∀ message,
       transcribe_get env (instant w + 2 * k) jobName = Raised message →
       (waitForCompletion polls jobName env w).1 = Thrown message
       ∧ length (new_calls w (waitForCompletion polls jobName env w).2) = S k).
Proof.
  intros Hk Hrunning.
  replace polls with (k + S (polls - S k)) by lia.
  destruct (wait_skips_running_polls k (S (polls - S k)) jobName env w Hrunning)
    as (wk & new & -> & Hcalls & Hlen & Hall & Hinstant & _).
  cbn [waitForCompletion]. run. rewrite Hinstant. split.
  - intros info -> Hfailed.
    rewrite bool_decide_eq_false_2
      by (rewrite Hfailed; intros H%js_inj; discriminate H).
    rewrite bool_decide_eq_true_2 by done. cbn [fst snd].
    rewrite (new_calls_app w _ (new ++ [GetTranscriptionJob jobName (Responded info)]))
      by (cbn; by rewrite Hcalls, <- app_assoc).
    split; [done |]. rewrite length_app. cbn. lia.
  - intros message ->. cbn [fst snd].
    rewrite (new_calls_app w _ (new ++ [GetTranscriptionJob jobName (Raised message)]))
      by (cbn; by rewrite Hcalls, <- app_assoc).
    split; [done |]. rewrite length_app. cbn. lia.
Qed.

Lemma polling_ends_on_failure_witness :
  let env := sample_env running_clock
               (λ t, if t <? 2 then job_with_status "QUEUED"
                     else job_with_status "FAILED")
               (Responded tt) (λ _, Responded tt) (generated_reply "ok") in
  let run := waitForCompletion 5 (js "MyTranscriptionJob-1") env sample_world in
  run.1 = Thrown (js "Transcription job failed.")
  ∧ length (new_calls sample_world run.2) = 2.
Proof.
  intros env run.
  destruct (polling_ends_on_failure 5 (js "MyTranscriptionJob-1") env sample_world 1)
    as [Hfailed _].
  - lia.
  - intros j Hj. eexists. split.
    + destruct j as [| j]; [reflexivity | lia].
    + split; vm_compute; discriminate.
  - apply (Hfailed {| TranscriptionJobStatus := js "FAILED";
                      Transcript := Some {| TranscriptFileUri := Some (js "uri") |} |});
      reflexivity.
Defined.

(** X20. waitForCompletion has no bound of its own: as long as every poll
    finds the job in a status other than COMPLETED and FAILED it keeps
    polling, so that after any number of rounds allowed it is still
    pending, having sent one poll per round. *)
Theorem polling_has_no_bound polls jobName env w :
  (∀ j, j < polls →
        ∃ running, transcribe_get env (instant w + 2 * j) jobName = Responded running
                   ∧ still_running running) →
  (waitForCompletion polls jobName env w).1 = Pending
  ∧ length (new_calls w (waitForCompletion polls jobName env w).2) = polls
  ∧ Forall (is_running_poll_of jobName)
           (new_calls w (waitForCompletion polls jobName env w).2).
Proof.
  intros Hrunning.
  destruct (wait_skips_running_polls polls 0 jobName env w Hrunning)
    as (wk & new & Hrun & Hcalls & Hlen & Hall & _).
  rewrite Nat.add_0_r in Hrun. rewrite Hrun.
  cbn [waitForCompletion fst snd].
  by rewrite (new_calls_app _ _ _ Hcalls).
Qed.

Lemma polling_has_no_bound_witness :
  let env := sample_env running_clock (λ _, job_with_status "IN_PROGRESS")
               (Responded tt) (λ _, Responded tt) (generated_reply "ok") in
  let run := waitForCompletion 7 (js "MyTranscriptionJob-1") env sample_world in
  run.1 = Pending ∧ length (new_calls sample_world run.2) = 7.
Proof.
  intros env run.
  destruct (polling_has_no_bound 7 (js "MyTranscriptionJob-1") env sample_world)
    as (Ho & Hlen & _).
  - intros j Hj. eexists. split; [reflexivity |].
    split; vm_compute; discriminate.
  - split; [exact Ho | exact Hlen].
Defined.

Lemma transcript_parts_leaves json : leaves_world (transcript_parts json).
Proof. unfold transcript_parts. auto 10 with world. Qed.

(** What a call of [getTranscriptText] does, reply by reply. *)
Lemma getTranscriptText_run bucket jobName env w :
  getTranscriptText bucket jobName env w =
    let key := jobName ++ js ".json" in
    let got := s3_get env (instant w) bucket key in
    let w1 := tick (log (GetObject bucket key got) w) in
    match got with
    | Raised message => (Thrown message, w1)
    | Responded data =>
        match JSON_parse env data with
        | Raised message => (Thrown message, w1)
        | Responded json =>
            match (transcript_parts json env w1).1 with
            | Returned parts =>
                let upload := transcript_upload bucket jobName (join parts [10%N]) in
                let stored := s3_put env (instant w1) upload in
                (match stored with
                 | Responded _ => Returned (join parts [10%N])
                 | Raised message => Thrown message
                 end,
                 tick (log (PutObject upload stored) w1))
            | Thrown message => (Thrown message, w1)
            | Pending => (Pending, w1)
            end
        end
    end.
Proof.
  unfold getTranscriptText. run.
  destruct (s3_get env _ _ _) as [data | message]; [| done].
  destruct (JSON_parse env data) as [json | message]; [| done].
  unfold transcript_parts, bind.
  rewrite (leaves_world_run (read_path json _)) by auto with world.
  destruct (read_path json _ env _).1 as [transcripts | message |];
    cbn [fst]; [| done ..].
  rewrite (leaves_world_run (call_map transcripts _)) by auto with world.
  destruct (call_map transcripts _ env _).1 as [parts | message |];
    cbn [fst]; [| done ..].
  unfold transcript_upload. cbn [instant aud_op calls].
  by destruct (s3_put env _ _) as [[] | message].
Qed.

(** X21. Whenever getTranscriptText returns a text, it has read the
    document of the job ([<job>.json]) and written that very text back as
    [<job>.txt], plain text, in the same bucket, and these are the two
    requests it sent; when the document cannot be parsed it throws the
    parser's message and writes nothing. *)
Theorem transcript_is_persisted bucket jobName env w o w' :
  getTranscriptText bucket jobName env w = (o, w') →
  (∀ text,
     o = Returned text →
     ∃ data,
       new_calls w w'
       = [GetObject bucket (jobName ++ js ".json") (Responded data);
          PutObject (transcript_upload bucket jobName text) (Responded tt)])
  ∧ (∀ data message,
       GetObject bucket (jobName ++ js ".json") (Responded data) ∈ new_calls w w' →
       JSON_parse env data = Raised message →
       o = Thrown message
       ∧ new_calls w w' = [GetObject bucket (jobName ++ js ".json") (Responded data)]).
Proof.
  intros Hrun. rewrite getTranscriptText_run in Hrun. cbv zeta in Hrun.
  destruct (s3_get env _ _ _) as [data | failure].
  2: { simplify_eq. rewrite (new_calls_app w _ [_]) by done.
       split; [done |]. by intros data message [=]%list_elem_of_singleton. }
  destruct (JSON_parse env data) as [json | failure] eqn:Hparse.
  2: { simplify_eq. rewrite (new_calls_app w _ [_]) by done.
       split; [done |]. intros d m [= <-]%list_elem_of_singleton Hd.
       rewrite Hparse in Hd. by simplify_eq. }
  destruct (transcript_parts json env _).1 as [parts | failure |].
  - destruct (s3_put env _ _) as [[] | failure]; simplify_eq.
    all: rewrite (new_calls_app w _ [_; _]) by (cbn; by rewrite <- app_assoc).
    all: split; [first [intros text [= <-]; by exists data | done] |].
    all: intros d m [[= <-] | [=]%list_elem_of_singleton]%elem_of_cons Hd.
    all: rewrite Hparse in Hd; by simplify_eq.
  - simplify_eq. rewrite (new_calls_app w _ [_]) by done.
    split; [done |]. intros d m [= <-]%list_elem_of_singleton Hd.
    rewrite Hparse in Hd. by simplify_eq.
  - simplify_eq. rewrite (new_calls_app w _ [_]) by done.
    split; [done |]. intros d m [= <-]%list_elem_of_singleton Hd.
    rewrite Hparse in Hd. by simplify_eq.
Qed.

Lemma transcript_is_persisted_witness :
  let run := getTranscriptText (js "mint-in") (js "MyTranscriptionJob-1") calm_env
               sample_world in
  ∃ data,
    new_calls sample_world run.2
    = [GetObject (js "mint-in") (js "MyTranscriptionJob-1.json") (Responded data);
       PutObject (transcript_upload (js "mint-in") (js "MyTranscriptionJob-1") (js "hello"))
                 (Responded tt)].
Proof.
  intros run.
  destruct (transcript_is_persisted (js "mint-in") (js "MyTranscriptionJob-1") calm_env
              sample_world run.1 run.2) as [Hreturned _].
  - apply surjective_pairing.
  - apply (Hreturned (js "hello")). reflexivity.
Defined.

Lemma join_strings (segments : list jsstr) :
  join (Str <$> segments) [10%N] = lines_of segments.
Proof.
  induction segments as [| s [| s' rest] IH]; [done | |].
  - simpl. by rewrite app_nil_r.
  - change (join (Str <$> s :: s' :: rest) [10%N])
      with (s ++ [10%N] ++ join (Str <$> s' :: rest) [10%N]).
    by rewrite IH.
Qed.

Lemma transcript_parts_of_document segments env w :
  transcript_parts (transcript_document segments) env w
  = (Returned (Str <$> segments), w).
Proof.
  unfold transcript_parts, bind.
  change (read_path (transcript_document segments) [js "results"; js "transcripts"] env w)
    with (Returned (Arr ((λ s, Obj [(js "transcript", Str s)]) <$> segments)), w).
  cbn [call_map]. induction segments as [| s rest IH]; [done |].
  cbn [fmap list_fmap mapM]. unfold bind at 1.
  change (read (Obj [(js "transcript", Str s)]) (js "transcript") env w)
    with (Returned (Str s), w).
  unfold bind at 1. cbn [fmap list_fmap] in IH. by rewrite IH.
Qed.

(** X22. For a document whose transcripts are string segments,
    getTranscriptText returns the segments in their order, separated by line
    feeds, provided the document is read and the text is stored. *)
Theorem transcript_text_is_the_segments bucket jobName env w data segments :
  s3_get env (instant w) bucket (jobName ++ js ".json") = Responded data →
  JSON_parse env data = Responded (transcript_document segments) →
  s3_put env (S (instant w)) (transcript_upload bucket jobName (lines_of segments))
  = Responded tt →
  (getTranscriptText bucket jobName env w).1 = Returned (lines_of segments).
Proof.
  intros Hget Hparse Hput.
  rewrite getTranscriptText_run. cbv zeta. rewrite Hget, Hparse.
  rewrite transcript_parts_of_document. cbn [fst].
  rewrite join_strings. cbn [instant tick log]. by rewrite Hput.
Qed.

Lemma transcript_text_is_the_segments_witness :
  let env :=
    {| Date_now := running_clock;
       fs_readdir_error := λ _, None;
       fs_readdir_rank := λ _ _, 0%nat;
       fs_unlink_error := λ _ _, None;
       fs_write_error := λ _ _, None;
       transcribe_start := λ _ _, Responded tt;
       transcribe_get := λ _ _, job_with_status "COMPLETED";
       s3_head := λ _ _ _, Responded tt;
       s3_get := λ _ _ _, Responded (js "{...}");
       s3_put := λ _ _, Responded tt;
       polly_synthesize := λ _ _, Responded [];
       watsonx_generateText := λ _ _, generated_reply "ok";
       watsonx_client := true;
       process_env := λ _, None;
       dirname := js "/app";
       JSON_parse := λ _, Responded (transcript_document
                                       [js "I feel anxious."; js "Can you help?"]);
       TypeError_message := λ _, js "TypeError" |} in
  (getTranscriptText (js "mint-in") (js "MyTranscriptionJob-1") env sample_world).1
  = Returned (js "I feel anxious." ++ [10%N] ++ js "Can you help?").
Proof.
  intros env.
  apply (transcript_text_is_the_segments (js "mint-in") (js "MyTranscriptionJob-1") env
           sample_world (js "{...}") [js "I feel anxious."; js "Can you help?"]);
    reflexivity.
Defined.

End TranscribeSharedMore.

Section TranscribeAudioMore.
Implicit Types (w : World) (env : Env) (jobName : jsstr).

Lemma waitForCompletion_returned polls jobName env w location w' :
  TranscribeShared.waitForCompletion polls jobName env w = (Returned location, w') →
  ∃ running job,
    calls w' = calls w ++ running ++ [GetTranscriptionJob jobName (Responded job)]
    ∧ Forall (is_running_poll_of jobName) running
    ∧ TranscriptionJobStatus job = js "COMPLETED"
    ∧ aud_op w' = aud_op w.
Proof.
  revert w. induction polls as [| polls IH]; intros w; [done |].
  cbn [TranscribeShared.waitForCompletion]. run.
  destruct (transcribe_get env _ _) as [job | message] eqn:Hget; [| done].
  case_bool_decide as Hcompleted.
  - destruct (Transcript job); intros [= <- <-]; exists [], job; done.
  - case_bool_decide as Hfailed; [done |].
    intros (running & last & Hcalls & Hall & Hlast & Hfiles)%IH.
    exists (GetTranscriptionJob jobName (Responded job) :: running), last.
    cbn [calls aud_op] in Hcalls, Hfiles.
    split; [rewrite Hcalls; cbn; by rewrite <- !app_assoc |].
    split; [constructor; [by eexists | done] | done].
Qed.

Lemma getTranscriptText_returned bucket jobName env w text w' :
  TranscribeShared.getTranscriptText bucket jobName env w = (Returned text, w') →
  ∃ data,
    calls w' = calls w
               ++ [GetObject bucket (jobName ++ js ".json") (Responded data);
                   PutObject (transcript_upload bucket jobName text) (Responded tt)]
    ∧ aud_op w' = aud_op w.
Proof.
  rewrite getTranscriptText_run. cbv zeta.
  destruct (s3_get env _ _ _) as [data | failure]; [| done].
  destruct (JSON_parse env data) as [json | failure]; [| done].
  destruct (transcript_parts json env _).1 as [parts | failure |]; [| done ..].
  destruct (s3_put env _ _) as [[] | failure]; [| done].
  intros [= <- <-]. exists data. cbn. by rewrite <- app_assoc.
Qed.

Lemma startTranscription_returned which jobName audioFile env w w' :
  match which with
  | submits_at_once => Transcribe.startTranscription
  | checks_first => TranscribeChecked.startTranscription
  end jobName audioFile env w = (Returned tt, w') →
  calls w' = calls w ++ start_requests which env jobName audioFile
  ∧ aud_op w' = aud_op w.
Proof.
  destruct which.
  - rewrite submits_at_once_run. cbv zeta.
    destruct (transcribe_start env _ _) as [[] | failure]; [| done].
    by intros [= <-].
  - rewrite checks_first_run. destruct (TranscribeChecked.s3_uri_test _); [| done]. cbv zeta.
    destruct (s3_head env _ _ _) as [[] | failure]; [| done].
    destruct (transcribe_start env _ _) as [[] | failure]; [| done].
    intros [= <-]. cbn. by rewrite <- app_assoc.
Qed.

Lemma transcribeAudio_returned which polls fileName env w text w' :
  Help.transcribeAudio which polls fileName env w = (Returned text, w') →
  ∃ running job data,
    calls w'
    = calls w
      ++ start_requests which env (job_name_at env w) fileName
      ++ running
      ++ [GetTranscriptionJob (job_name_at env w) (Responded job);
          GetObject (bucket_of which) (job_name_at env w ++ js ".json") (Responded data);
          PutObject (transcript_upload (bucket_of which) (job_name_at env w) text)
                    (Responded tt)]
    ∧ Forall (is_running_poll_of (job_name_at env w)) running
    ∧ TranscriptionJobStatus job = js "COMPLETED"
    ∧ aud_op w' = aud_op w.
Proof.
  intros Hrun.
  assert (∃ w1 w2 w3,
            match which with
            | submits_at_once => Transcribe.startTranscription
            | checks_first => TranscribeChecked.startTranscription
            end (job_name_at env w) fileName env (tick w) = (Returned tt, w1)
            ∧ (∃ location, TranscribeShared.waitForCompletion polls (job_name_at env w)
                             env w1 = (Returned location, w2))
            ∧ TranscribeShared.getTranscriptText (bucket_of which) (job_name_at env w)
                env w2 = (Returned text, w3)
            ∧ w' = w3) as (w1 & w2 & w3 & Hstart & [location Hwait] & Htext & ->).
  { destruct which;
      unfold Help.transcribeAudio, Transcribe.transcribeAudio,
        TranscribeChecked.transcribeAudio, TranscribeShared.transcribeAudio in Hrun;
      run_in Hrun; fold (job_name_at env w) in Hrun;
      [destruct (Transcribe.startTranscription _ _ _ _)
         as [[[] | failure |] w1] eqn:Hstart
      | destruct (TranscribeChecked.startTranscription _ _ _ _)
         as [[[] | failure |] w1] eqn:Hstart]; try done;
      (destruct (TranscribeShared.waitForCompletion _ _ _ _)
         as [[location | failure |] w2] eqn:Hwait; [| done ..]);
      (destruct (TranscribeShared.getTranscriptText _ _ _ _)
         as [[text' | failure |] w3] eqn:Htext; [| done ..]);
      injection Hrun as <- <-; exists w1, w2, w3; eauto. }
  apply startTranscription_returned in Hstart as [Hcalls1 Hfiles1].
  apply waitForCompletion_returned in Hwait
    as (running & job & Hcalls2 & Hall & Hcompleted & Hfiles2).
  apply getTranscriptText_returned in Htext as (data & Hcalls3 & Hfiles3).
  exists running, job, data.
  split; [| split; [done | split; [done |]]].
  - rewrite Hcalls3, Hcalls2, Hcalls1. cbn [tick calls].
    by rewrite <- !app_assoc.
  - by rewrite Hfiles3, Hfiles2, Hfiles1.
Qed.


(** X23. A transcribeAudio that returns a text has sent, in this order and
    nothing else: the requests of startTranscription for a job named after
    the clock (MyTranscriptionJob-<Date.now()>) on the given file, polls
    about that job that found it running, one poll that found it COMPLETED,
    the download of <job>.json and the upload of the returned text as
    <job>.txt, both in the bucket of the revision; the audio directory is
    left as it was. *)
Theorem transcription_requests which polls fileName env w text w' :
  Help.transcribeAudio which polls fileName env w = (Returned text, w') →
  ∃ running job data,
    new_calls w w'
    = start_requests which env (job_name_at env w) fileName
      ++ running
      ++ [GetTranscriptionJob (job_name_at env w) (Responded job);
          GetObject (bucket_of which) (job_name_at env w ++ js ".json") (Responded data);
          PutObject (transcript_upload (bucket_of which) (job_name_at env w) text)
                    (Responded tt)]
    ∧ Forall (is_running_poll_of (job_name_at env w)) running
    ∧ TranscriptionJobStatus job = js "COMPLETED"
    ∧ aud_op w' = aud_op w.
Proof.
  intros (running & job & data & Hcalls & Hrest)%transcribeAudio_returned.
  exists running, job, data. split; [by apply new_calls_app | done].
Qed.

Lemma transcription_requests_witness :
  let run := Help.transcribeAudio checks_first 3 (js "recording-1.mp3") calm_env
               sample_world in
  ∃ running job data,
    new_calls sample_world run.2
    = start_requests checks_first calm_env (job_name_at calm_env sample_world)
        (js "recording-1.mp3")
      ++ running
      ++ [GetTranscriptionJob (job_name_at calm_env sample_world) (Responded job);
          GetObject (js "mint-in") (job_name_at calm_env sample_world ++ js ".json")
                    (Responded data);
          PutObject (transcript_upload (js "mint-in") (job_name_at calm_env sample_world)
                       (js "hello"))
                    (Responded tt)].
Proof.
  intros run.
  destruct (transcription_requests checks_first 3 (js "recording-1.mp3") calm_env
              sample_world (js "hello") run.2)
    as (running & job & data & Hcalls & _).
  - reflexivity.
  - by exists running, job, data.
Defined.

End TranscribeAudioMore.

(** ** help.js: processAudioWithAI *)

Section PipelineMore.
Implicit Types (w : World) (env : Env) (which : TranscribeModule).

(** The run of [processAudioWithAI], stage by stage. *)
Lemma processAudioWithAI_run which polls fileName env w :
  processAudioWithAI which polls fileName env w =
    match transcribeAudio which polls fileName env w with
    | (Returned text, w1) =>
        match GraniteLLM.generateTextWithGranite text GraniteLLM.no_options env w1 with
        | (Returned answer, w2) =>
            match synthesizeSpeech answer no_options env w2 with
            | (Returned (SpeechSuccess _ _ relativePath _ _ _ _), w3) =>
                (Returned (PipelineSuccess text answer relativePath
                             (js "AI pipeline completed successfully")), w3)
            | (Returned (SpeechFailure error), w3) =>
                (Returned (PipelineFailure (js "Speech synthesis failed: " ++ error)
                             (js "AI Pipeline")), w3)
            | (Thrown message, w3) =>
                (Returned (PipelineFailure message (js "AI Pipeline")), w3)
            | (Pending, w3) => (Pending, w3)
            end
        | (Thrown message, w2) =>
            (Returned (PipelineFailure message (js "AI Pipeline")), w2)
        | (Pending, w2) => (Pending, w2)
        end
    | (Thrown message, w1) => (Returned (PipelineFailure message (js "AI Pipeline")), w1)
    | (Pending, w1) => (Pending, w1)
    end.
Proof.
  unfold processAudioWithAI. run.
  destruct (transcribeAudio which polls fileName env w) as [[text | ? |] w1]; [| done ..].
  destruct (GraniteLLM.generateTextWithGranite text _ env w1) as [[answer | ? |] w2]; [| done ..].
  by destruct (synthesizeSpeech answer _ env w2) as [[[] | ? |] w3].
Qed.

(** What [generateTextWithGranite] sends and what it leaves. *)
Lemma generateTextWithGranite_sent text options env w :
  ∃ new,
    calls (GraniteLLM.generateTextWithGranite text options env w).2 = calls w ++ new
    ∧ aud_op (GraniteLLM.generateTextWithGranite text options env w).2 = aud_op w
    ∧ (GraniteLLM.generateTextWithGranite text options env w).1 ≠ Pending
    ∧ Forall (λ c, ∃ reply, c = GenerateText (GraniteLLM.generate_params env text options) reply) new
    ∧ (∀ answer,
         (GraniteLLM.generateTextWithGranite text options env w).1 = Returned answer →
         ∃ response,
           new = [GenerateText (GraniteLLM.generate_params env text options) (Responded response)]).
Proof.
  rewrite generateTextWithGranite_run.
  destruct (bool_decide (text = [])).
  { exists []. by rewrite app_nil_r. }
  destruct (watsonx_client env).
  2: { exists []. by rewrite app_nil_r. }
  cbv zeta. destruct (watsonx_generateText env _ _) as [response | message].
  - eexists [_]. split; [done |]. split; [done |]. cbn [fst].
    destruct (read_generated_text_leaves response env
                (tick (log (GenerateText (GraniteLLM.generate_params env text options)
                              (Responded response)) w))) as [_ Hsettles].
    split; [by destruct (GraniteLLM.read_generated_text response env _).1 |].
    split; [repeat constructor; by eexists | by eexists].
  - eexists [_]. split; [done |]. split; [done |]. split; [done |].
    split; [repeat constructor; by eexists | done].
Qed.

(** What [synthesizeSpeech] sends. *)
Lemma synthesizeSpeech_sent text options env w :
  ∃ reply rest result,
    calls (synthesizeSpeech text options env w).2
    = calls w ++ SynthesizeSpeech (speech_params text options) reply :: rest
    ∧ Forall is_neither_generation_nor_synthesis rest
    ∧ (synthesizeSpeech text options env w).1 = Returned result.
Proof.
  rewrite synthesizeSpeech_run. cbv zeta.
  destruct (polly_synthesize env _ _) as [chunks | message].
  - destruct (fs_write_error env _ _) as [message |]; [by eexists _, [], _ |].
    destruct (s3_put env _ _) as [[] | message]; eexists _, [_], _.
    all: split; [by cbn; rewrite <- app_assoc |].
    all: split; [| done].
    all: by repeat constructor; intros [].
  - by eexists _, [], _.
Qed.

(** X24. processAudioWithAI never rejects: once the transcription has
    settled, in a text or in an error, it resolves to a result object, a
    success or a failure. *)
Theorem pipeline_always_reports which polls fileName env w :
  (transcribeAudio which polls fileName env w).1 ≠ Pending →
  ∃ result, (processAudioWithAI which polls fileName env w).1 = Returned result.
Proof.
  intros Hsettled. rewrite processAudioWithAI_run.
  destruct (transcribeAudio which polls fileName env w) as [[text | message |] w1];
    [| by eexists | done].
  destruct (generateTextWithGranite_sent text GraniteLLM.no_options env w1)
    as (_ & _ & _ & Hanswered & _).
  destruct (GraniteLLM.generateTextWithGranite text _ env w1) as [[answer | message |] w2];
    [| by eexists | done].
  destruct (synthesizeSpeech_sent answer no_options env w2) as (_ & _ & r & _ & _ & Hr).
  destruct (synthesizeSpeech answer _ env w2) as [[[] | |] w3];
    cbn [fst] in Hr; try done; by eexists.
Qed.

Lemma pipeline_always_reports_witness :
  ∃ result,
    (processAudioWithAI checks_first 3 (js "recording-1.mp3")
       (with_failing_synthesis (js "down") calm_env) sample_world).1 = Returned result.
Proof.
  apply (pipeline_always_reports checks_first 3 (js "recording-1.mp3")
           (with_failing_synthesis (js "down") calm_env) sample_world).
  vm_compute. discriminate.
Defined.

(** X25. A success result of processAudioWithAI tells how the stages were
    chained: after the requests of the transcription, which end with the
    upload of the transcript, exactly three requests are sent: the
    generation, asked about the transcript; the synthesis, asked about the
    generated answer; and the upload of the audio.  The reported audio file
    is public/aud_op/current_audio.mp3, and the local current_audio.mp3
    holds the audio the synthesis returned. *)
Theorem pipeline_success_chain which polls fileName env w w'
        transcribedText aiResponse audioFile message :
  processAudioWithAI which polls fileName env w
  = (Returned (PipelineSuccess transcribedText aiResponse audioFile message), w') →
  audioFile = js "public/aud_op/current_audio.mp3"
  ∧ ∃ before job response chunks upload,
      new_calls w w'
      = before
        ++ [PutObject (transcript_upload (bucket_of which) job transcribedText)
                      (Responded tt);
            GenerateText (GraniteLLM.generate_params env transcribedText GraniteLLM.no_options)
                         (Responded response);
            SynthesizeSpeech (speech_params aiResponse no_options) (Responded chunks);
            PutObject upload (Responded tt)]
      ∧ Forall is_neither_generation_nor_synthesis before
      ∧ Body upload = BufferBody (concat chunks)
      ∧ aud_op w' !! js "current_audio.mp3" = Some (concat chunks).
Proof.
  rewrite processAudioWithAI_run.
  destruct (transcribeAudio which polls fileName env w) as [[text | ? |] w1] eqn:Ht;
    [| done ..].
  destruct (generateTextWithGranite_sent text GraniteLLM.no_options env w1)
    as (new2 & Hcalls2 & _ & _ & _ & Hanswered).
  destruct (GraniteLLM.generateTextWithGranite text _ env w1) as [[answer | ? |] w2]; [| done ..].
  destruct (Hanswered answer eq_refl) as [response ->]. cbn [snd] in Hcalls2.
  pose proof (synthesizeSpeech_run answer no_options env w2) as Hs. cbv zeta in Hs.
  rewrite Hs. clear Hs.
  destruct (polly_synthesize env _ _) as [chunks | ?]; [| done].
  destruct (fs_write_error env _ _) as [? |]; [done |].
  destruct (s3_put env _ _) as [[] | ?]; [| done].
  intros [= <- <- <- <- <-]. split; [reflexivity |].
  apply transcribeAudio_returned in Ht as (running & job & data & Hcalls1 & Hall & _ & _).
  eexists (start_requests which env (job_name_at env w) fileName ++ running ++ [_; _]),
    (job_name_at env w), response, chunks, _.
  split.
  { apply new_calls_app. cbn [tick log with_files calls]. rewrite Hcalls2, Hcalls1.
    rewrite <- !app_assoc. cbn [app]. reflexivity. }
  split.
  { apply Forall_app. split.
    { destruct which; by repeat constructor; intros []. }
    apply Forall_app. split; [| by repeat constructor; intros []].
    eapply Forall_impl; [exact Hall |]. by intros c (j & -> & _); split; intros []. }
  split; [done |]. cbn. apply lookup_insert_eq.
Qed.

Lemma pipeline_success_chain_witness :
  let run := processAudioWithAI checks_first 3 (js "recording-1.mp3") calm_env
               sample_world in
  ∃ audio, aud_op run.2 !! js "current_audio.mp3" = Some audio.
Proof.
  intros run.
  destruct (pipeline_success_chain checks_first 3 (js "recording-1.mp3") calm_env
              sample_world run.2 (js "hello") (js "Breathe slowly.")
              (js "public/aud_op/current_audio.mp3")
              (js "AI pipeline completed successfully"))
    as (_ & _ & _ & _ & chunks & _ & _ & _ & _ & Hfile).
  - vm_compute. reflexivity.
  - by exists (concat chunks).
Defined.

(** X26. The stages of processAudioWithAI are fed in order: a request to
    the generation service is sent only when the transcription has returned
    a text, and its input is that text; a request to the synthesis service
    is sent only when the generation has returned an answer, and its text is
    that answer, cut to the synthesis limit. *)
Theorem stages_are_fed_in_order which polls fileName env w c :
  c ∈ new_calls w (processAudioWithAI which polls fileName env w).2 →
  (is_generation c →
   ∃ text w1 reply,
     transcribeAudio which polls fileName env w = (Returned text, w1)
     ∧ c = GenerateText (GraniteLLM.generate_params env text GraniteLLM.no_options) reply)
  ∧ (is_synthesis c →
     ∃ text w1 answer w2 reply,
       transcribeAudio which polls fileName env w = (Returned text, w1)
       ∧ GraniteLLM.generateTextWithGranite text GraniteLLM.no_options env w1 = (Returned answer, w2)
       ∧ c = SynthesizeSpeech (speech_params answer no_options) reply).
Proof.
  rewrite processAudioWithAI_run.
  destruct (transcribeAudio_stops which polls fileName env w) as (new1 & E1 & F1 & _).
  destruct (transcribeAudio which polls fileName env w) as [[text | ? |] w1];
    cbn [fst snd] in E1.
  2, 3: cbn [snd]; rewrite (new_calls_app w _ new1) by done;
    intros Hin; rewrite Forall_forall in F1; destruct (F1 c Hin); by split.
  destruct (generateTextWithGranite_sent text GraniteLLM.no_options env w1)
    as (new2 & E2 & _ & _ & F2 & _).
  destruct (GraniteLLM.generateTextWithGranite text _ env w1) as [[answer | ? |] w2]
    eqn:Hg; cbn [fst snd] in E2.
  2, 3: cbn [snd]; rewrite (new_calls_app w _ (new1 ++ new2))
      by (by rewrite E2, E1, <- app_assoc);
    intros [Hin | Hin]%elem_of_app;
    [rewrite Forall_forall in F1; destruct (F1 c Hin); by split
    | rewrite Forall_forall in F2; destruct (F2 c Hin) as [reply ->];
      split; [intros _; by eexists _, _, _ | intros []]].
  destruct (synthesizeSpeech_sent answer no_options env w2)
    as (reply & rest & r & E3 & F3 & Hr).
  assert (new_calls w (synthesizeSpeech answer no_options env w2).2
          = new1 ++ new2
            ++ SynthesizeSpeech (speech_params answer no_options) reply :: rest) as Hnew.
  { apply new_calls_app. by rewrite E3, E2, E1, <- !app_assoc. }
  destruct (synthesizeSpeech answer _ env w2) as [[[] | |] w3];
    cbn [fst snd] in *; try done; rewrite Hnew.
  all: intros [Hin | [Hin | [-> | Hin]%elem_of_cons]%elem_of_app]%elem_of_app.
  all: try (rewrite Forall_forall in F1; destruct (F1 c Hin); by split).
  all: try (rewrite Forall_forall in F2; destruct (F2 c Hin) as [reply' ->];
            split; [intros _; by eexists _, _, _ | intros []]).
  all: try (rewrite Forall_forall in F3; destruct (F3 c Hin); by split).
  all: split; [intros [] | intros _; by eexists text, w1, answer, w2, _].
Qed.

Lemma stages_are_fed_in_order_witness :
  let env := with_failing_synthesis (js "down") calm_env in
  let c := SynthesizeSpeech (speech_params (js "Breathe slowly.") no_options)
             (Raised (js "down")) in
  ∃ text w1 answer w2 reply,
    transcribeAudio checks_first 3 (js "recording-1.mp3") env sample_world
    = (Returned text, w1)
    ∧ GraniteLLM.generateTextWithGranite text GraniteLLM.no_options env w1
      = (Returned answer, w2)
    ∧ c = SynthesizeSpeech (speech_params answer no_options) reply.
Proof.
  intros env c.
  apply (stages_are_fed_in_order checks_first 3 (js "recording-1.mp3") env
           sample_world c).
  - vm_compute. do 6 apply list_elem_of_further. apply list_elem_of_here.
  - exact I.
Defined.

Lemma waitForCompletion_keeps polls jobName :
  keeps_files (TranscribeShared.waitForCompletion polls jobName).
Proof.
  induction polls as [| polls IH]; intros env w; [done |].
  cbn [TranscribeShared.waitForCompletion]. run.
  destruct (transcribe_get env _ _) as [job | message]; [| done].
  case_bool_decide; [by destruct (Transcript job) |].
  case_bool_decide; [done |]. by rewrite IH.
Qed.

Lemma getTranscriptText_keeps bucket jobName :
  keeps_files (TranscribeShared.getTranscriptText bucket jobName).
Proof.
  intros env w. rewrite getTranscriptText_run. cbv zeta.
  destruct (s3_get env _ _ _) as [data | ?]; [| done].
  destruct (JSON_parse env data) as [json | ?]; [| done].
  by destruct (transcript_parts json env _).1.
Qed.

Lemma startTranscription_keeps which jobName audioFile :
  keeps_files (match which with
               | submits_at_once => Transcribe.startTranscription
               | checks_first => TranscribeChecked.startTranscription
               end jobName audioFile).
Proof.
  intros env w. destruct which.
  - by rewrite submits_at_once_run.
  - rewrite checks_first_run. destruct (TranscribeChecked.s3_uri_test _); [| done].
    cbv zeta. by destruct (s3_head env _ _ _) as [[] | ?].
Qed.

Lemma transcribeAudio_keeps which polls fileName :
  keeps_files (transcribeAudio which polls fileName).
Proof.
  assert (transcribeAudio which polls fileName
          = TranscribeShared.transcribeAudio (bucket_of which)
              (match which with
               | submits_at_once => Transcribe.startTranscription
               | checks_first => TranscribeChecked.startTranscription
               end) polls fileName) as -> by by destruct which.
  unfold TranscribeShared.transcribeAudio, mbind, promise_bind.
  apply keeps_try_catch; [| done].
  apply keeps_bind; [done | intros timestamp].
  apply keeps_bind; [apply startTranscription_keeps | intros _].
  apply keeps_bind; [apply waitForCompletion_keeps | intros _].
  apply getTranscriptText_keeps.
Qed.

(** X27. processAudioWithAI changes the audio directory only through the
    synthesis stage: in a run that sent no request to the synthesis service,
    every file is as it was. *)
Theorem no_synthesis_no_file_change which polls fileName env w :
  Forall (λ c, ¬ is_synthesis c)
         (new_calls w (processAudioWithAI which polls fileName env w).2) →
  aud_op (processAudioWithAI which polls fileName env w).2 = aud_op w.
Proof.
  rewrite processAudioWithAI_run.
  pose proof (transcribeAudio_keeps which polls fileName env w) as K1.
  destruct (transcribeAudio_stops which polls fileName env w) as (new1 & E1 & _).
  destruct (transcribeAudio which polls fileName env w) as [[text | ? |] w1];
    cbn [fst snd] in *; [| done ..].
  destruct (generateTextWithGranite_sent text GraniteLLM.no_options env w1)
    as (new2 & E2 & K2 & _).
  destruct (GraniteLLM.generateTextWithGranite text _ env w1) as [[answer | ? |] w2];
    cbn [fst snd] in *; [| by rewrite K2 ..].
  destruct (synthesizeSpeech_sent answer no_options env w2)
    as (reply & rest & r & E3 & _).
  assert (new_calls w (synthesizeSpeech answer no_options env w2).2
          = new1 ++ new2
            ++ SynthesizeSpeech (speech_params answer no_options) reply :: rest) as Hnew.
  { apply new_calls_app. by rewrite E3, E2, E1, <- !app_assoc. }
  assert (Forall (λ c, ¬ is_synthesis c)
            (new_calls w (synthesizeSpeech answer no_options env w2).2) → False) as Hsent.
  { rewrite Hnew, !Forall_app, Forall_cons. intros (_ & _ & Hno & _). by apply Hno. }
  by destruct (synthesizeSpeech answer _ env w2) as [[[] | |] w3];
    cbn [fst snd] in *; intros ?%Hsent.
Qed.

Lemma no_synthesis_no_file_change_witness :
  aud_op (processAudioWithAI checks_first 3 (js "recording-1.mp3")
            (without_watsonx_client calm_env) sample_world).2
  = aud_op sample_world.
Proof.
  apply (no_synthesis_no_file_change checks_first 3 (js "recording-1.mp3")
           (without_watsonx_client calm_env) sample_world).
  vm_compute. repeat constructor; intros [].
Defined.

End PipelineMore.

(** ** help.js: the routes *)

Section RoutesMore.
Implicit Types (w : World) (env : Env) (which : TranscribeModule).

(** X28. The route /process-text always answers, with status 200, 400 or
    500.  It answers 400 exactly when the body has no text, or a text that
    is falsy (empty, 0, false, null), and then nothing has been sent to any
    service and no file has been touched. *)
Theorem process_text_always_answers reqBody env w :
  ∃ response,
    (process_text reqBody env w).1 = Returned response
    ∧ (status response = 200 ∨ status response = 400 ∨ status response = 500)%Z
    ∧ (status response = 400%Z
       ↔ ∃ text, member reqBody (js "text") = Some text ∧ truthy text = false)
    ∧ (status response = 400%Z → (process_text reqBody env w).2 = w).
Proof.
  unfold process_text, read. run.
  destruct (member reqBody (js "text")) as [text |].
  2: { eexists. split; [done |]. cbn. split; [auto |].
       split; [| done]. split; [done | by intros (? & ? & ?)]. }
  destruct (truthy text) eqn:Htruthy.
  2: { eexists. split; [done |]. cbn. split; [auto |].
       split; [| done]. split; [by eexists | done]. }
  assert (∀ (response : Response) w',
            status response = 200%Z ∨ status response = 500%Z →
            ∃ r, (Returned response, w').1 = Returned r
                 ∧ (status r = 200 ∨ status r = 400 ∨ status r = 500)%Z
                 ∧ (status r = 400%Z
                    ↔ ∃ text', Some text = Some text' ∧ truthy text' = false)
                 ∧ (status r = 400%Z → (Returned response, w').2 = w)) as Hanswer.
  { intros response w' Hstatus. exists response. split; [done |].
    split; [tauto |]. split; [split |].
    - intros H400. rewrite H400 in Hstatus. by destruct Hstatus.
    - intros (? & [= <-] & ?). congruence.
    - intros H400. rewrite H400 in Hstatus. by destruct Hstatus. }
  destruct text as [| | b | n | s | items | fields]; try (apply Hanswer; by right).
  destruct (generateTextWithGranite_sent s GraniteLLM.no_options env w)
    as (_ & _ & _ & Hsettles & _).
  destruct (GraniteLLM.generateTextWithGranite s _ env w) as [[answer | message |] w1];
    [| apply Hanswer; by right | done].
  destruct (synthesizeSpeech_sent answer no_options env w1) as (_ & _ & r & _ & _ & Hr).
  destruct (synthesizeSpeech answer _ env w1) as [[[] | |] w2];
    cbn [fst] in Hr; try done; apply Hanswer; auto.
Qed.

Lemma transcribeAudio_submits which polls fileName :
  logs (submits_only (js "s3://" ++ bucket_of which ++ js "/" ++ fileName))
       (transcribeAudio which polls fileName).
Proof.
  set (P := submits_only (js "s3://" ++ bucket_of which ++ js "/" ++ fileName)).
  assert (∀ jobName, logs P (TranscribeShared.waitForCompletion polls jobName)) as Hwait.
  { intros jobName. induction polls as [| n IH].
    { intros env w. exists []. by rewrite app_nil_r. }
    cbn [TranscribeShared.waitForCompletion]. unfold mbind, promise_bind.
    apply logs_bind; [by apply logs_send |]. intros job.
    case_bool_decide.
    { destruct (Transcript job); [apply logs_ret | apply logs_throw_TypeError]. }
    case_bool_decide; [apply logs_throw |].
    apply logs_bind; [apply logs_sleep | done]. }
  assert (∀ jobName,
            logs P (TranscribeShared.getTranscriptText (bucket_of which) jobName)) as Htext.
  { intros jobName env w. rewrite getTranscriptText_run. cbv zeta.
    destruct (s3_get env _ _ _) as [data | ?]; [| by eexists [_]; repeat constructor].
    destruct (JSON_parse env data) as [json | ?]; [| by eexists [_]; repeat constructor].
    destruct (transcript_parts json env _).1; [| by eexists [_]; repeat constructor ..].
    eexists [_; _]. split; [cbn; by rewrite <- app_assoc | by repeat constructor]. }
  assert (∀ jobName,
            logs P (match which with
                    | submits_at_once => Transcribe.startTranscription
                    | checks_first => TranscribeChecked.startTranscription
                    end jobName fileName)) as Hstart.
  { intros jobName env w. subst P. destruct which.
    - rewrite submits_at_once_run. cbv zeta. eexists [_]. split; [done |].
      by repeat constructor.
    - rewrite checks_first_run. destruct (TranscribeChecked.s3_uri_test _).
      2: { exists []. by rewrite app_nil_r. }
      cbv zeta. destruct (s3_head env _ _ _) as [[] | ?].
      + eexists [_; _]. split; [cbn; by rewrite <- app_assoc |].
        by repeat constructor.
      + eexists [_]. split; [done | by repeat constructor]. }
  assert (transcribeAudio which polls fileName
          = TranscribeShared.transcribeAudio (bucket_of which)
              (match which with
               | submits_at_once => Transcribe.startTranscription
               | checks_first => TranscribeChecked.startTranscription
               end) polls fileName) as -> by by destruct which.
  unfold TranscribeShared.transcribeAudio, mbind, promise_bind.
  apply logs_try_catch; [| intros; apply logs_throw].
  apply logs_bind; [apply logs_now | intros timestamp].
  apply logs_bind; [apply Hstart | intros _].
  apply logs_bind; [apply Hwait | intros _].
  apply Htext.
Qed.

Lemma processAudioWithAI_submits which polls fileName :
  logs (submits_only (js "s3://" ++ bucket_of which ++ js "/" ++ fileName))
       (processAudioWithAI which polls fileName).
Proof.
  intros env w. rewrite processAudioWithAI_run.
  destruct (transcribeAudio_submits which polls fileName env w) as (new1 & E1 & F1).
  destruct (transcribeAudio which polls fileName env w) as [[text | ? |] w1];
    cbn [fst snd] in *; [| by exists new1 ..].
  destruct (generateTextWithGranite_sent text GraniteLLM.no_options env w1)
    as (new2 & E2 & _ & _ & F2 & _).
  assert (Forall (submits_only (js "s3://" ++ bucket_of which ++ js "/" ++ fileName))
            new2) as F2'.
  { eapply Forall_impl; [exact F2 |]. by intros c [reply ->]. }
  destruct (GraniteLLM.generateTextWithGranite text _ env w1) as [[answer | ? |] w2];
    cbn [fst snd] in *.
  2, 3: exists (new1 ++ new2); rewrite E2, E1, <- app_assoc;
    split; [done | by apply Forall_app].
  pose proof (synthesizeSpeech_run answer no_options env w2) as Hs. cbv zeta in Hs.
  rewrite Hs. clear Hs.
  destruct (polly_synthesize env _ _) as [chunks | ?].
  - destruct (fs_write_error env _ _) as [? |].
    { cbn [fst snd]. eexists (new1 ++ new2 ++ [_]).
      split; [cbn; by rewrite E2, E1, <- !app_assoc |].
      rewrite !Forall_app. split; [done |]. split; [done |]. by repeat constructor. }
    destruct (s3_put env _ _) as [[] | ?]; cbn [fst snd].
    all: eexists (new1 ++ new2 ++ [_; _]).
    all: split; [cbn; by rewrite E2, E1, <- !app_assoc |].
    all: rewrite !Forall_app; split; [done |]; split; [done |].
    all: by repeat constructor.
  - cbn [fst snd]. eexists (new1 ++ new2 ++ [_]).
    split; [cbn; by rewrite E2, E1, <- !app_assoc |].
    rewrite !Forall_app. split; [done |]. split; [done |]. by repeat constructor.
Qed.

(** The run of the route /upload-to-s3 on a file, up to the pipeline. *)
Lemma upload_to_s3_run which polls buffer env w :
  let timestamp := Date_now env (instant w) in
  let command := recording_upload timestamp buffer in
  let stored := s3_put env (S (instant w)) command in
  let w1 := tick (log (PutObject command stored) (tick w)) in
  match stored with
  | Raised message =>
      upload_to_s3 which polls (Some buffer) env w
      = (Returned {| status := 500;
                     body := SendText (js "Upload failed: " ++ message) |}, w1)
  | Responded _ =>
      (upload_to_s3 which polls (Some buffer) env w).2
      = (processAudioWithAI which polls (recording_name timestamp) env (tick w1)).2
      ∧ ∀ response,
          (upload_to_s3 which polls (Some buffer) env w).1 = Returned response →
          (status response = 200 ∨ status response = 500)%Z
          ∧ ∃ fields,
              body response = SendJson fields
              ∧ own_property fields (js "fileName") = Str (recording_name timestamp)
  end.
Proof.
  intros timestamp command stored w1. subst timestamp command stored w1.
  unfold upload_to_s3, recording_upload. run.
  destruct (s3_put env _ _) as [[] | message]; [| done].
  destruct (processAudioWithAI which polls _ env _) as [[[] | failure |] w2];
    cbn [fst snd]; (split; [done |]); intros response [= <-]; cbn [status body];
    (split; [auto |]); eexists; (split; [done |]); reflexivity.
Qed.

(** X29. The route /upload-to-s3 answers 400 'No audio file received'
    without doing anything when the request carries no file.  With a file,
    it first stores the buffer in bucket mint-in under
    recording-<Date.now()>.mp3; if the store refuses, it answers 500 'Upload
    failed: <message>' and nothing else is sent; once the store has
    accepted, every answer is a JSON object with status 200 or 500 that
    carries the file name. *)
Theorem upload_outcomes which polls env w :
  upload_to_s3 which polls None env w
  = (Returned {| status := 400; body := SendText (js "No audio file received") |}, w)
  ∧ ∀ buffer,
      let fileName := recording_name (Date_now env (instant w)) in
      let command := recording_upload (Date_now env (instant w)) buffer in
      (∀ message,
         s3_put env (S (instant w)) command = Raised message →
         (upload_to_s3 which polls (Some buffer) env w).1
         = Returned {| status := 500;
                       body := SendText (js "Upload failed: " ++ message) |}
         ∧ new_calls w (upload_to_s3 which polls (Some buffer) env w).2
           = [PutObject command (Raised message)]
         ∧ aud_op (upload_to_s3 which polls (Some buffer) env w).2 = aud_op w)
      ∧ (s3_put env (S (instant w)) command = Responded tt →
         ∀ response,
           (upload_to_s3 which polls (Some buffer) env w).1 = Returned response →
           (status response = 200 ∨ status response = 500)%Z
           ∧ ∃ fields,
               body response = SendJson fields
               ∧ own_property fields (js "fileName") = Str fileName).
Proof.
  split; [done |]. intros buffer fileName command.
  pose proof (upload_to_s3_run which polls buffer env w) as Hrun. cbv zeta in Hrun.
  fold command in Hrun. split.
  - intros message Hput. rewrite Hput in Hrun. rewrite Hrun. cbn [fst snd].
    split; [done |]. split; [by apply new_calls_app | done].
  - intros Hput. rewrite Hput in Hrun. apply Hrun.
Qed.

Lemma upload_outcomes_witness :
  let env := sample_env running_clock (λ _, job_with_status "COMPLETED") (Responded tt)
               (λ _, Raised (js "AccessDenied")) (generated_reply "ok") in
  (upload_to_s3 checks_first 3 (Some [x2a]) env sample_world).1
  = Returned {| status := 500;
                body := SendText (js "Upload failed: AccessDenied") |}.
Proof.
  intros env.
  destruct (upload_outcomes checks_first 3 env sample_world) as [_ Hfile].
  destruct (Hfile [x2a]) as [Hrefused _].
  destruct (Hrefused (js "AccessDenied")) as [Hanswer _]; [reflexivity |].
  exact Hanswer.
Defined.

(** X30. The route /upload-to-s3 asks for the transcription of the
    recording it has stored: a transcription job is submitted only after
    the store has accepted the upload, which is the first request of the
    run, and the media of the job is the key of the upload,
    recording-<Date.now()>.mp3, in the bucket of the transcribe module: the
    upload bucket mint-in for the checking revision, mint-bucket1 for
    transcribe.js. *)
Theorem submitted_job_is_about_the_upload which polls buffer env w params reply :
  StartTranscriptionJob params reply
    ∈ new_calls w (upload_to_s3 which polls (Some buffer) env w).2 →
  MediaFileUri params
  = js "s3://" ++ bucket_of which ++ js "/" ++ recording_name (Date_now env (instant w))
  ∧ ∃ rest,
      new_calls w (upload_to_s3 which polls (Some buffer) env w).2
      = PutObject (recording_upload (Date_now env (instant w)) buffer) (Responded tt)
        :: rest.
Proof.
  pose proof (upload_to_s3_run which polls buffer env w) as Hrun. cbv zeta in Hrun.
  destruct (s3_put env _ _) as [[] | message].
  2: { rewrite Hrun. cbn [snd]. rewrite (new_calls_app w _ [_]) by done.
       by intros [=]%list_elem_of_singleton. }
  destruct Hrun as [-> _].
  destruct (processAudioWithAI_submits which polls
              (recording_name (Date_now env (instant w))) env
              (tick (tick (log (PutObject
                                  (recording_upload (Date_now env (instant w)) buffer)
                                  (Responded tt)) (tick w)))))
    as (new & Hcalls & Hall).
  rewrite (new_calls_app w _ (_ :: new)) by (rewrite Hcalls; cbn; by rewrite <- app_assoc).
  intros [[=] | Hin]%elem_of_cons. split; [| by eexists].
  rewrite Forall_forall in Hall. apply (Hall _ Hin).
Qed.

Lemma submitted_job_is_about_the_upload_witness :
  let params :=
    TranscribeShared.start_params Transcribe.bucketName
      (js "MyTranscriptionJob-1700000000003") (js "recording-1700000000000.mp3") in
  MediaFileUri params = js "s3://mint-bucket1/recording-1700000000000.mp3"
  ∧ ∃ rest,
      new_calls sample_world
        (upload_to_s3 submits_at_once 3 (Some [x2a]) calm_env sample_world).2
      = PutObject (recording_upload 1700000000000 [x2a]) (Responded tt) :: rest.
Proof.
  intros params.
  apply (submitted_job_is_about_the_upload submits_at_once 3 [x2a] calm_env sample_world
           params (Responded tt)).
  vm_compute. apply list_elem_of_further, list_elem_of_here.
Defined.

End RoutesMore.
